(** * ModelCenter fine-tuning drivers: a shallow embedding

    The development follows three source files of the repository:
    - [src/finetune_cpm1.py]: [make_input], [LCQMC_Dataset] ([__init__],
      [__len__], [__getitem__]), [clip_grad_norm] and the accuracy loop of
      [finetune];
    - [src/finetune_gpt2.py]: [metric] and the evaluation block of
      [finetune] that gathers predictions and labels from every worker;
    - [model_center/layer/embedding.py]: [Embedding.forward] and
      [Embedding.projection].

    Integer tensors are lists of [Z] with the wrap-around of the tensor's
    dtype written out.  Gradient tensors are lists of real numbers: the
    arithmetic of [clip_grad_norm] is read in exact arithmetic, rounding is
    not part of the model. *)

From Stdlib Require Import ZArith List Bool Lia String Ascii Sorted Permutation.
From Stdlib Require Import Reals Lra Psatz.
Import ListNotations.

Open Scope Z_scope.

(* ================================================================= *)
(** ** Python exceptions and fallible computations *)

Inductive exn : Type :=
| AssertionError
| ValueError
| IndexError
| RuntimeError
| ZeroDivisionError.

Inductive result (A : Type) : Type :=
| Ok (a : A)
| Raise (e : exn).

Arguments Ok {A} a.
Arguments Raise {A} e.

Definition bind {A B : Type} (m : result A) (k : A -> result B) : result B :=
  match m with
  | Ok a => k a
  | Raise e => Raise e
  end.

Notation "x <- m ;; k" := (bind m (fun x => k))
  (at level 61, m at next level, right associativity).

(** Runs [f] over a list from left to right and stops at the first
    exception, as a [for] loop or a comprehension does. *)
Fixpoint mapM {A B : Type} (f : A -> result B) (l : list A) : result (list B) :=
  match l with
  | [] => Ok []
  | a :: l' => b <- f a ;; bs <- mapM f l' ;; Ok (b :: bs)
  end.

Definition succeeds {A : Type} (m : result A) : Prop := exists a, m = Ok a.

(* ================================================================= *)
(** ** The parts of torch and numpy that the drivers use on integers *)

Definition fits_int32 (z : Z) : Prop := - 2 ^ 31 <= z < 2 ^ 31.
Definition fits_int64 (z : Z) : Prop := - 2 ^ 63 <= z < 2 ^ 63.

Definition fits_int32b (z : Z) : bool := (- 2 ^ 31 <=? z) && (z <? 2 ^ 31).
Definition fits_int64b (z : Z) : bool := (- 2 ^ 63 <=? z) && (z <? 2 ^ 63).

(** [Tensor.int()]: the cast of an int64 entry to int32 keeps the low 32
    bits, read as a signed number. *)
Definition to_int32 (z : Z) : Z := (z + 2 ^ 31) mod 2 ^ 32 - 2 ^ 31.

(** [torch.tensor(l)] on a list of Python integers builds an int64 tensor
    and raises when an entry does not fit. *)
Definition torch_tensor (l : list Z) : result (list Z) :=
  if forallb fits_int64b l then Ok l else Raise RuntimeError.

(** [torch.tensor(z, dtype=torch.int32)] on one Python integer raises when
    the value overflows the dtype. *)
Definition torch_tensor_int32 (z : Z) : result Z :=
  if fits_int32b z then Ok z else Raise RuntimeError.

(** [torch.tensor(z, dtype=torch.long)]. *)
Definition torch_tensor_long (z : Z) : result Z :=
  if fits_int64b z then Ok z else Raise RuntimeError.

(** [torch.zeros((n,), dtype=torch.int32)]. *)
Definition torch_zeros (n : Z) : result (list Z) :=
  if n <? 0 then Raise RuntimeError else Ok (repeat 0 (Z.to_nat n)).

(** [np.arange(n)]: empty when [n <= 0]. *)
Definition np_arange (n : Z) : list Z := map Z.of_nat (seq 0 (Z.to_nat n)).

(** [dst[:n] = src] for [0 <= n]: the slice holds [min n (len dst)] entries
    and the assignment raises unless [src] has as many. *)
Definition assign_prefix (dst : list Z) (n : Z) (src : list Z) : result (list Z) :=
  if (Nat.min (Z.to_nat n) (List.length dst) =? List.length src)%nat
  then Ok (src ++ skipn (List.length src) dst)
  else Raise RuntimeError.

(** [dst[i] = v] for [0 <= i]; an index past the end raises. *)
Definition assign_index (dst : list Z) (i : Z) (v : Z) : result (list Z) :=
  if (0 <=? i) && (i <? Z.of_nat (List.length dst))
  then Ok (firstn (Z.to_nat i) dst ++ v :: skipn (S (Z.to_nat i)) dst)
  else Raise IndexError.

(** [len(l)] as a Python integer. *)
Definition len {A : Type} (l : list A) : Z := Z.of_nat (List.length l).

(** [[0 for i in range(n)]]: empty when [n <= 0]. *)
Definition zeros_range (n : Z) : list Z := repeat 0 (Z.to_nat n).

(* ================================================================= *)
(** ** finetune_cpm1.py: [make_input] *)

Record packed_input : Type := {
  input_tokens : list Z;      (* int32, width max_length *)
  input_length : Z;           (* int32 scalar *)
  context : list bool;        (* width max_length *)
  input_span : list Z         (* int32, width max_length, all zero *)
}.

Definition make_input (lef_tokens rig_tokens : list Z) (spans max_length : Z)
  : result packed_input :=
  let input := lef_tokens ++ zeros_range spans ++ rig_tokens in
  let length := len input in
  if negb (length <? max_length) then Raise AssertionError else
  buf <- torch_zeros max_length ;;
  t <- torch_tensor input ;;
  toks <- assign_prefix buf length (map to_int32 t) ;;
  ilen <- torch_tensor_int32 length ;;
  let ctx := map (fun c => (c <? len lef_tokens) || (c >=? len lef_tokens + spans))
                 (np_arange max_length) in
  span <- torch_zeros max_length ;;
  Ok {| input_tokens := toks; input_length := ilen;
        context := ctx; input_span := span |}.

(* ================================================================= *)
(** ** finetune_cpm1.py: [LCQMC_Dataset.__init__] *)

(** One entry of [self.data]. *)
Record example : Type := {
  ex_input_tokens : list Z;
  ex_input_length : Z;
  ex_context : list bool;
  ex_input_span : list Z;
  ex_target : Z;              (* int64 scalar *)
  ex_index : list Z           (* int32, width max_length *)
}.

(** A row of the file as [csv.reader] yields it: the list of its columns. *)
Definition row : Type := list string.

(** [enumerate(l)]. *)
Definition enumerate {A : Type} (l : list A) : list (Z * A) :=
  combine (map Z.of_nat (seq 0 (List.length l))) l.

Definition dquote : string := String (ascii_of_nat 34) EmptyString.

(** The f-string of the prompt: text_a and text_b, each between double
    quotes, joined and followed by the fixed words of the template. *)
Definition prompt (text_a text_b : string) : string :=
  (dquote ++ text_a ++ dquote ++ "与" ++ dquote ++ text_b ++ dquote
     ++ "的关系是:")%string.

Section LCQMC.

(** [tokenizer.encode] and the builtin [int] on a string (which raises
    [ValueError] on a string that is not a number) are taken as given. *)
Variable encode : string -> list Z.
Variable int_of_string : string -> result Z.

(** The body of the loop for a row that is kept. *)
Definition build_example (r : row) (max_length : Z) : result example :=
  match r with
  | [text_a; text_b; label] =>
      let lef_tokens := 1 :: encode (prompt text_a text_b) in
      let rig_tokens := encode "。" in
      p <- make_input lef_tokens rig_tokens 1 max_length ;;
      z <- torch_zeros max_length ;;
      index <- assign_index z (len lef_tokens - 1) 1 ;;
      n <- int_of_string label ;;
      target <- torch_tensor_long n ;;
      Ok {| ex_input_tokens := input_tokens p;
            ex_input_length := input_length p;
            ex_context := context p;
            ex_input_span := input_span p;
            ex_target := target;
            ex_index := index |}
  | _ => Raise ValueError
  end.

(** The [for i, row in enumerate(reader)] loop; [data] is [self.data]. *)
Fixpoint LCQMC_loop (it : list (Z * row)) (max_id rank world_size max_length : Z)
         (data : list example) : result (list example) :=
  match it with
  | [] => Ok data
  | (i, r) :: rest =>
      if (i =? 0) || (i >? max_id)
      then LCQMC_loop rest max_id rank world_size max_length data
      else if negb (i mod world_size =? rank)
      then LCQMC_loop rest max_id rank world_size max_length data
      else
        ex <- build_example r max_length ;;
        LCQMC_loop rest max_id rank world_size max_length (data ++ [ex])
  end.

(** The constructor, from the rows read from the file to [self.data]. *)
Definition LCQMC_Dataset_init (reader : list row) (rank world_size max_length : Z)
  : result (list example) :=
  if world_size =? 0 then Raise ZeroDivisionError else
  let max_id := (len reader - 1) / world_size * world_size in
  LCQMC_loop (enumerate reader) max_id rank world_size max_length [].

End LCQMC.

(** The two [continue] tests, on the index of a row, and the rows a rank
    keeps by them. *)
Definition kept_index (max_id rank world_size i : Z) : bool :=
  negb ((i =? 0) || (i >? max_id)) && (i mod world_size =? rank).

Definition kept (max_id rank world_size : Z) (ir : Z * row) : bool :=
  kept_index max_id rank world_size (fst ir).

(** The row indices the claim gives to rank [r]. *)
Definition assigned (R W r i : Z) : Prop :=
  1 <= i <= (R - 1) / W * W /\ i mod W = r.

(** A byte-level tokenizer and a parser of the two labels of the task, to
    run the constructor on a small file. *)
Definition byte_encode (s : string) : list Z :=
  map (fun c => Z.of_nat (nat_of_ascii c)) (list_ascii_of_string s).

Definition label_of_string (s : string) : result Z :=
  if String.eqb s "0" then Ok 0
  else if String.eqb s "1" then Ok 1
  else Raise ValueError.

Definition small_file : list row :=
  [ ["text_a"; "text_b"; "label"];
    ["a1"; "b1"; "1"];
    ["a2"; "b2"; "0"];
    ["a3"; "b3"; "1"];
    ["a4"; "b4"; "0"];
    ["a5"; "b5"; "1"] ]%string.

(* ================================================================= *)
(** ** finetune_gpt2.py: gathering predictions and labels in [finetune] *)

(** [nccl.allGather(src, dst, comm)], a binding of NCCL's all-gather, run by
    every rank of the communicator: a rank sends its [src], and the data of
    rank [i] is written at offset [i * sendcount] of the rank's receive
    buffer [dst], where [sendcount] is the size of the rank's own [src].
    bmtrain first checks that [dst] has [world_size] times the size of
    [src].  NCCL requires the same send count on every rank; what happens
    otherwise is not defined, and the model has no result there ([None]). *)
Definition write_at (buf : list Z) (off : nat) (src : list Z) : list Z :=
  firstn off buf ++ src ++ skipn (off + List.length src) buf.

Definition gather_into (srcs : list (list Z)) (sendcount : nat) (dst : list Z) : list Z :=
  fold_left (fun buf (js : nat * list Z) => write_at buf (fst js * sendcount) (snd js))
            (combine (seq 0 (List.length srcs)) srcs) dst.

Definition same_count (srcs : list (list Z)) : bool :=
  match srcs with
  | [] => true
  | s :: rest => forallb (fun s' => (List.length s' =? List.length s)%nat) rest
  end.

Definition nccl_allGather (srcs dsts : list (list Z)) : result (option (list (list Z))) :=
  let world_size := List.length srcs in
  if negb (forallb (fun sd => (List.length (snd sd) =? List.length (fst sd) * world_size)%nat)
                   (combine srcs dsts))
  then Raise AssertionError
  else if same_count srcs
  then Ok (Some (map (fun sd => gather_into srcs (List.length (fst sd)) (snd sd))
                     (combine srcs dsts)))
  else Ok None.

(** [torch.tensor(pd).int()] *)
Definition int_tensor (l : list Z) : result (list Z) :=
  t <- torch_tensor l ;; Ok (map to_int32 t).

(** One list ([pd] or [gt]) on all ranks at once: [locals] holds the
    tensors [pd_local] of the ranks, in rank order, and [junk] is what
    [torch.empty] leaves in a buffer.  The result is the list each rank
    holds after [tolist()]. *)
Definition gather_list (locals : list (list Z)) (junk : Z)
  : result (option (list (list Z))) :=
  let world_size := List.length locals in
  let globals := map (fun l => repeat junk (List.length l * world_size)) locals in
  nccl_allGather locals globals.

(** Lines 200-209 on all ranks at once: [pds] and [gts] hold the lists [pd]
    and [gt] of each rank, in rank order; the result holds the lists [pd]
    and [gt] of each rank after the two gathers. *)
Definition finetune_gather (pds gts : list (list Z)) (junk : Z)
  : result (option (list (list Z) * list (list Z))) :=
  pd_local <- mapM int_tensor pds ;;
  gt_local <- mapM int_tensor gts ;;
  pd <- gather_list pd_local junk ;;
  gt <- gather_list gt_local junk ;;
  Ok (match pd, gt with
      | Some pd, Some gt => Some (pd, gt)
      | _, _ => None
      end).

(* ================================================================= *)
(** ** finetune_cpm1.py: [clip_grad_norm] *)

(** A gradient tensor, flattened: neither the norms nor the rescaling look
    at its shape. *)
Definition tensor : Type := list R.

Record param : Type := {
  data : tensor;
  grad : option tensor        (* [None] when the parameter has no gradient *)
}.

(** An entry of [optimizer.param_groups]; only its ['params'] are read. *)
Record ParamGroup : Type := {
  params : list param
}.

(** The [norm_type] argument: the string ['inf'], or a number. *)
Inductive norm_type : Type :=
| Inf
| Lp (p : R).

Definition has_grad (q : param) : bool :=
  match grad q with Some _ => true | None => false end.

(** [p.grad.data] of a parameter that has a gradient. *)
Definition grad_data (q : param) : tensor :=
  match grad q with Some g => g | None => [] end.

(** [[p for group in param_groups for p in group['params'] if p.grad is not None]] *)
Definition parameters (param_groups : list ParamGroup) : list param :=
  flat_map (fun g => filter has_grad (params g)) param_groups.

Section RealTensors.
Local Open Scope R_scope.

Definition Rsum (l : list R) : R := fold_right Rplus 0 l.

(** [x ** y] on a base [0 <= x]: [0 ** y] is [0] for [0 < y]. *)
Definition rpow (x y : R) : R :=
  if Req_dec_T x 0 then (if Req_dec_T y 0 then 1 else 0) else Rpower x y.

(** [Tensor.abs()], [Tensor.max()] (which raises on a tensor without
    entries) and [Tensor.norm(p)] for [p <> 0]. *)
Definition tensor_abs (g : tensor) : tensor := map Rabs g.

Definition tensor_max (g : tensor) : result R :=
  match g with
  | [] => Raise RuntimeError
  | x :: xs => Ok (fold_left Rmax xs x)
  end.

Definition tensor_norm (g : tensor) (p : R) : R :=
  rpow (Rsum (map (fun x => rpow (Rabs x) p) g)) (1 / p).

(** [Tensor.mul_(c)]. *)
Definition tensor_mul (g : tensor) (c : R) : tensor := map (fun x => x * c) g.

(** The builtin [max] over a generator: [ValueError] when it is empty. *)
Definition py_max (l : list R) : result R :=
  match l with
  | [] => Raise ValueError
  | x :: xs => Ok (fold_left Rmax xs x)
  end.

(** [nccl.allReduce(src, dst, op, comm)] with ["max"] and ["sum"]: every
    rank receives the reduction of the values of all ranks, given here in
    rank order. *)
Definition nccl_allReduce_max (locals : list R) : R :=
  match locals with
  | [] => 0
  | x :: xs => fold_left Rmax xs x
  end.

Definition nccl_allReduce_sum (locals : list R) : R :=
  fold_left Rplus locals 0.

(** What a rank holds in [total_norm_cuda] when it enters the
    collective. *)
Definition local_norm (nt : norm_type) (ps : list param) : result R :=
  match nt with
  | Inf =>
      ms <- mapM (fun q => tensor_max (tensor_abs (grad_data q))) ps ;;
      py_max ms
  | Lp p =>
      Ok (fold_left (fun total q => total + rpow (tensor_norm (grad_data q) p) p) ps 0)
  end.

(** [total_norm] after the collective; [1. / norm_type] raises for a
    norm type of zero. *)
Definition reduced_norm (nt : norm_type) (locals : list R) : result R :=
  match nt with
  | Inf => Ok (nccl_allReduce_max locals)
  | Lp p =>
      if Req_dec_T p 0 then Raise ZeroDivisionError
      else Ok (rpow (nccl_allReduce_sum locals) (1 / p))
  end.

(** Lines 156-169 on all ranks at once: [workers] holds the
    [param_groups] of each rank, in rank order. *)
Definition global_norm (nt : norm_type) (workers : list (list ParamGroup)) : result R :=
  locals <- mapM (fun pg => local_norm nt (parameters pg)) workers ;;
  reduced_norm nt locals.

(** [p.grad.data.mul_(clip_coef)] for every [p] of [parameters]: the
    parameters of an optimizer are distinct objects, so the update visits
    each gradient once; parameters without a gradient are not in the
    list. *)
Definition mul_param (c : R) (q : param) : param :=
  match grad q with
  | Some g => {| data := data q; grad := Some (tensor_mul g c) |}
  | None => q
  end.

Definition mul_grads (c : R) (param_groups : list ParamGroup) : list ParamGroup :=
  map (fun g => {| params := map (mul_param c) (params g) |}) param_groups.

(** Lines 173-177 on one rank: the gradients after the call and the
    returned value.  Division is the one of the reals; the theorems keep
    to [0 < eps] and [scale <> 0], where no denominator is zero. *)
Definition clip_coef (max_norm scale eps total_norm : R) : R :=
  (max_norm * scale) / (total_norm + eps).

Definition clip_rank (max_norm scale eps total_norm : R) (param_groups : list ParamGroup)
  : list ParamGroup * R :=
  let c := clip_coef max_norm scale eps total_norm in
  (if Rlt_dec c 1 then mul_grads c param_groups else param_groups,
   total_norm / scale).

(** [clip_grad_norm] on all ranks at once: for each rank, its
    [param_groups] after the call and the value it returns. *)
Definition clip_grad_norm (workers : list (list ParamGroup))
           (max_norm scale : R) (nt : norm_type) (eps : R)
  : result (list (list ParamGroup * R)) :=
  total_norm <- global_norm nt workers ;;
  Ok (map (clip_rank max_norm scale eps total_norm) workers).

(** The default [eps=1e-6]. *)
Definition eps_default : R := 1 / 1000000.

(** *** The norms of the claim, on the entries of all ranks *)

(** Every entry of every gradient of every rank, in rank order. *)
Definition rank_grads (param_groups : list ParamGroup) : list R :=
  flat_map grad_data (parameters param_groups).

Definition all_grads (workers : list (list ParamGroup)) : list R :=
  flat_map rank_grads workers.

Definition Rmaxl (l : list R) : R := fold_right Rmax 0 l.

(** Maximum absolute entry, p-norm and Euclidean norm of a vector. *)
Definition Linf_norm (v : list R) : R := Rmaxl (map Rabs v).
Definition Lp_norm (p : R) (v : list R) : R :=
  rpow (Rsum (map (fun x => rpow (Rabs x) p) v)) (1 / p).
Definition L2_norm (v : list R) : R := sqrt (Rsum (map (fun x => x * x) v)).

(** A rank the ['inf'] branch can run on: at least one gradient, and no
    gradient without entries. *)
Definition has_entries (param_groups : list ParamGroup) : Prop :=
  parameters param_groups <> [] /\
  Forall (fun q => grad_data q <> []) (parameters param_groups).

(** [q'] is [q] with its gradient, when it has one, multiplied by [k]. *)
Definition grad_scaled (k : R) (q q' : param) : Prop :=
  data q' = data q /\
  match grad q, grad q' with
  | Some g, Some g' => g' = map (fun x => x * k) g
  | None, None => True
  | _, _ => False
  end.

Definition groups_scaled (k : R) (pg pg' : list ParamGroup) : Prop :=
  Forall2 (fun g g' => Forall2 (grad_scaled k) (params g) (params g')) pg pg'.

End RealTensors.

(** *** The scenario of the specification: two ranks, one gradient each *)

Definition rank_with (g : list R) : list ParamGroup :=
  [ {| params := [ {| data := [0%R; 0%R]; grad := Some g |} ] |} ].

Definition two_workers : list (list ParamGroup) :=
  [ rank_with [3%R; 4%R]; rank_with [0%R; 0%R] ].

(** The calls the two branches of [clip_grad_norm] can run on: ranks with
    entries for ['inf'], a norm type other than zero for a number. *)
Definition can_run (nt : norm_type) (workers : list (list ParamGroup)) : Prop :=
  match nt with
  | Inf => Forall has_entries workers
  | Lp p => p <> 0%R
  end.

(** One rank whose only gradient has the single entry 1. *)
Definition one_worker : list (list ParamGroup) := [ rank_with [1%R] ].

(** *** Parameter objects and the update in place

    In Python a group holds references to parameter objects, and
    [mul_] changes the object a reference points to.  A rank is then a heap
    of parameter objects and groups of references into it; [read] gives the
    groups as [clip_grad_norm] sees them.  An optimizer holds every
    parameter object once ([torch.optim.Optimizer] refuses a parameter that
    is in two groups), and on such a rank the loop over [parameters] is
    [mul_grads]: this is [mul_in_place_read] below. *)
Record rank_state : Type := {
  heap : list param;
  groups : list (list nat)
}.

Definition no_param : param := {| data := []; grad := None |}.

Definition deref (h : list param) (i : nat) : param := nth i h no_param.

Definition read (st : rank_state) : list ParamGroup :=
  map (fun g => {| params := map (deref (heap st)) g |}) (groups st).

(** The references of [parameters], in the order of the comprehension. *)
Definition parameter_refs (st : rank_state) : list nat :=
  flat_map (fun g => filter (fun i => has_grad (deref (heap st) i)) g) (groups st).

Fixpoint heap_update (h : list param) (i : nat) (f : param -> param) : list param :=
  match h, i with
  | [], _ => []
  | q :: t, O => f q :: t
  | q :: t, S j => q :: heap_update t j f
  end.

(** [for p in parameters: p.grad.data.mul_(clip_coef)] *)
Definition mul_in_place (c : R) (st : rank_state) : rank_state :=
  {| heap := fold_left (fun h i => heap_update h i (mul_param c)) (parameter_refs st) (heap st);
     groups := groups st |}.

(** A rank whose group lists the same parameter object twice. *)
Definition aliased_rank : rank_state :=
  {| heap := [ {| data := []; grad := Some [1%R] |} ];
     groups := [ [0%nat; 0%nat] ] |}.

(* ================================================================= *)
(** ** model_center/layer/embedding.py: [Embedding] *)

(** The kernels the layer calls, from cpm_kernels and torch; the layer is
    modelled for any implementation of them.  [I] is the type of tensors of
    token ids and [T] the type of floating-point tensors. *)
Class Kernels (I T : Type) : Type := {
  OpEmbedding_apply : I -> T -> T;      (* OpEmbedding.apply(ids, weight) *)
  ct_transpose : T -> T;                (* ct.transpose(x) *)
  F_linear : T -> T -> T;               (* F.linear(input, weight) *)
  tensor_div : T -> R -> T              (* tensor / float *)
}.

(** The attributes of the module that [__init__] sets. *)
Record Embedding (T : Type) : Type := {
  dim_model : Z;
  weight : T;
  length_scale : bool;
  int8 : bool
}.

Arguments dim_model {T} _.
Arguments weight {T} _.
Arguments length_scale {T} _.
Arguments int8 {T} _.

(** [math.sqrt] on an integer that is not negative. *)
Definition math_sqrt (n : Z) : R := sqrt (IZR n).

(** Both methods are given with the module after the call, next to the
    returned tensor. *)
Definition forward {I T : Type} `{Kernels I T} (self : Embedding T) (ids : I)
  : T * Embedding T :=
  let embeds := OpEmbedding_apply ids (weight self) in
  let embeds :=
    if length_scale self then tensor_div embeds (math_sqrt (dim_model self)) else embeds in
  (embeds, self).

Definition projection {I T : Type} `{Kernels I T} (self : Embedding T) (x : T)
  : T * Embedding T :=
  let x := if length_scale self then tensor_div x (math_sqrt (dim_model self)) else x in
  let logits := F_linear (ct_transpose x) (weight self) in
  (logits, self).

(* ================================================================= *)
(** ** finetune_cpm1.py: [LCQMC_Dataset.__len__] and [__getitem__] *)

(** [l[idx]] on a Python list: a negative index counts from the end, and an
    index outside the list raises [IndexError]. *)
Definition py_getitem {A : Type} (l : list A) (idx : Z) : result A :=
  let i := if idx <? 0 then idx + len l else idx in
  if (0 <=? i) && (i <? len l)
  then match nth_error l (Z.to_nat i) with
       | Some a => Ok a
       | None => Raise IndexError
       end
  else Raise IndexError.

Definition LCQMC_Dataset_len (data : list example) : Z := len data.

(** The six tensors of [self.data[idx]]; [.cuda()] moves them to the device
    and keeps their values. *)
Definition LCQMC_Dataset_getitem (data : list example) (idx : Z) : result example :=
  py_getitem data idx.

(** The file row that example [k] of rank [rank] is built from. *)
Definition row_of (rank world_size k : Z) : Z :=
  k * world_size + (if rank =? 0 then world_size else rank).

(** [small_file] with another header and another last row. *)
Definition small_file' : list row :=
  [ ["sentence1"; "sentence2"];
    ["a1"; "b1"; "1"];
    ["a2"; "b2"; "0"];
    ["a3"; "b3"; "1"];
    ["a4"; "b4"; "0"];
    ["not a row"] ]%string.

(** A rank with three parameter objects, the second without a gradient,
    in two groups. *)
Definition small_rank : rank_state :=
  {| heap := [ {| data := [1%R]; grad := Some [3%R; 4%R] |};
               {| data := [2%R]; grad := None |};
               {| data := [3%R]; grad := Some [1%R] |} ];
     groups := [ [0%nat; 1%nat]; [2%nat] ] |}.

(* ================================================================= *)
(** ** finetune_cpm1.py: the accuracy of a split in [finetune]

    Floating-point values are real numbers here, as for the gradients. *)

(** [a / b] on two Python integers. *)
Definition py_truediv (a b : Z) : result R :=
  if b =? 0 then Raise ZeroDivisionError else Ok (IZR a / IZR b)%R.

(** [logits == targets] on two tensors of one dimension: entry by entry for
    equal sizes, a tensor of one entry is compared with every entry of the
    other, and other sizes raise. *)
Definition torch_eq (a b : list Z) : result (list bool) :=
  if (List.length a =? List.length b)%nat
  then Ok (map (fun xy => fst xy =? snd xy) (combine a b))
  else match a, b with
       | [x], _ => Ok (map (fun y => x =? y) b)
       | _, [y] => Ok (map (fun x => x =? y) a)
       | _, _ => Raise RuntimeError
       end.

(** [torch.sum(t).item()] on a tensor of booleans. *)
Definition count_true (t : list bool) : Z := len (filter (fun b => b) t).

(** The loop over the batches of a split (lines 222-238 and 246-262); a
    batch is given by the predictions [logits] after [argmax] and by its
    [targets]. *)
Fixpoint eval_loop (batches : list (list Z * list Z)) (acc total : Z) : result (Z * Z) :=
  match batches with
  | [] => Ok (acc, total)
  | (logits, targets) :: rest =>
      hits <- torch_eq logits targets ;;
      eval_loop rest (acc + count_true hits) (total + len logits)
  end.

(** [acc / total] after the loop, on one rank. *)
Definition eval_accuracy (batches : list (list Z * list Z)) : result R :=
  at_ <- eval_loop batches 0 0 ;;
  py_truediv (fst at_) (snd at_).

(** [bmp.sum_loss(acc)], from bmtrain: the sum of the values of all ranks
    divided by [world_size], on every rank. *)
Definition bmp_sum_loss (locals : list R) : R :=
  (fold_right Rplus 0 locals / IZR (len locals))%R.

(** The number of positions at which two lists agree. *)
Definition agreements (preds targets : list Z) : Z :=
  len (filter (fun xy => fst xy =? snd xy) (combine preds targets)).

(* ================================================================= *)
(** ** finetune_gpt2.py: [metric] *)

(** [zip(gts, pds, qids)]: as long as the shortest of the three. *)
Fixpoint zip3 (gts pds qids : list Z) : list (Z * Z * Z) :=
  match gts, pds, qids with
  | gt :: gts', pd :: pds', qid :: qids' => (gt, pd, qid) :: zip3 gts' pds' qids'
  | _, _, _ => []
  end.

(** The dictionary [ss], in insertion order. *)
Definition dict : Type := list (Z * list (Z * Z)).

Definition dict_contains (ss : dict) (qid : Z) : bool :=
  existsb (fun e => fst e =? qid) ss.

(** [if qid not in ss: ss[qid] = []] *)
Definition dict_setdefault (ss : dict) (qid : Z) : dict :=
  if dict_contains ss qid then ss else ss ++ [(qid, [])].

(** [ss[qid].append(v)] *)
Definition dict_append (ss : dict) (qid : Z) (v : Z * Z) : dict :=
  map (fun e => if fst e =? qid then (fst e, snd e ++ [v]) else e) ss.

(** The first loop of [metric]. *)
Definition metric_groups (gts pds qids : list Z) : dict :=
  fold_left (fun ss t =>
               let '(gt, pd, qid) := t in
               dict_append (dict_setdefault ss qid) qid (gt, pd))
            (zip3 gts pds qids) [].

(** The number of pairs the dictionary holds. *)
Definition dict_size (ss : dict) : nat :=
  fold_right Nat.add 0%nat (map (fun e => List.length (snd e)) ss).

(** [gts, pds = zip] of the unpacked [gt_pd_s]: the unpacking into two
    names raises on an empty list. *)
Definition unzip_pairs (gt_pd_s : list (Z * Z)) : result (list Z * list Z) :=
  match gt_pd_s with
  | [] => Raise ValueError
  | _ => Ok (map fst gt_pd_s, map snd gt_pd_s)
  end.

(** [int(sum([gt == pd for gt, pd in gt_pd_s]) == len(gt_pd_s))] *)
Definition exact_match (gt_pd_s : list (Z * Z)) : Z :=
  if len (filter (fun gp => fst gp =? snd gp) gt_pd_s) =? len gt_pd_s then 1 else 0.

(** [sum(l) / len(l)] on a list of floats. *)
Definition mean (l : list R) : result R :=
  if len l =? 0 then Raise ZeroDivisionError
  else Ok (fold_right Rplus 0 l / IZR (len l))%R.

Section Metric.

(** sklearn's [f1_score(y_true, y_pred)] with its default average and with
    [average="macro"] are taken as given. *)
Variable f1_score : list Z -> list Z -> result R.
Variable f1_score_macro : list Z -> list Z -> result R.

(** The body of the second loop for one question: its F1 and its exact
    match. *)
Definition metric_question (e : Z * list (Z * Z)) : result (R * Z) :=
  gp <- unzip_pairs (snd e) ;;
  f1 <- f1_score_macro (fst gp) (snd gp) ;;
  Ok (f1, exact_match (snd e)).

Definition metric (gts pds qids : list Z) : result (R * R * R) :=
  f1_a <- f1_score gts pds ;;
  let ss := metric_groups gts pds qids in
  per <- mapM metric_question ss ;;
  let f1s := map fst per in
  let ems := map snd per in
  f1_m <- mean f1s ;;
  em <- py_truediv (fold_right Z.add 0 ems) (len ems) ;;
  Ok (f1_a, f1_m, em).

End Metric.

(** One step of the first loop of [metric]. *)
Definition metric_step (ss : dict) (t : Z * Z * Z) : dict :=
  let '(gt, pd, qid) := t in
  dict_append (dict_setdefault ss qid) qid (gt, pd).

(** The pairs of the question [qid] among the zipped triples, in order. *)
Definition pairs_of (qid : Z) (triples : list (Z * Z * Z)) : list (Z * Z) :=
  map (fun t => (fst (fst t), snd (fst t)))
      (filter (fun t => snd t =? qid) triples).

(** What the dictionary holds after the triples [seen]: one entry for each
    question that occurs, with the pairs of that question in order. *)
Definition groups_of (seen : list (Z * Z * Z)) (ss : dict) : Prop :=
  NoDup (map fst ss) /\
  (forall k l, In (k, l) ss -> l = pairs_of k seen /\ l <> []) /\
  (forall t, In t seen -> In (snd t) (map fst ss)) /\
  dict_size ss = List.length seen.

(** A stand-in for [f1_score] to run [metric]: the share of agreeing
    positions. *)
Definition share_equal (gts pds : list Z) : result R :=
  py_truediv (agreements pds gts) (len gts).

(** Three batches of a split, and the same split on two ranks. *)
Definition small_batches : list (list Z * list Z) :=
  [ ([1; 0], [1; 1]); ([0; 0], [0; 0]); ([1], [0]) ].

Definition small_ranks : list (list (list Z * list Z)) :=
  [ [ ([1; 0], [1; 1]); ([0], [0]) ]; [ ([0; 0; 1], [0; 1; 1]) ] ].

(** All predictions, and all targets, of the batches of a rank. *)
Definition all_preds (batches : list (list Z * list Z)) : list Z :=
  List.concat (map fst batches).

Definition all_targets (batches : list (list Z * list Z)) : list Z :=
  List.concat (map snd batches).

Definition well_shaped (batches : list (list Z * list Z)) : Prop :=
  Forall (fun b => List.length (fst b) = List.length (snd b)) batches.

(** The entries of [ems] for a dictionary, and their sum. *)
Definition exact_matches (ss : dict) : list Z := map (fun e => exact_match (snd e)) ss.

Definition sum_Z (l : list Z) : Z := fold_right Z.add 0 l.

(** Ground truth, predictions and question ids of four answers to two
    questions. *)
Definition small_gts : list Z := [1; 0; 1; 1].
Definition small_pds : list Z := [1; 0; 0; 1].
Definition small_qids : list Z := [7; 7; 9; 9].

(** The lists of a second rank. *)
Definition other_pds : list (list Z) := [[0; 0; 0; 0]].
Definition other_gts : list (list Z) := [[1; 1; 1; 1]].

(* ================================================================= *)
(** ** Kernels on one number

    The kernels on tensors of a single real entry, to run the layer: the
    lookup returns the weight, the linear map is the product. *)
#[local] Instance scalar_kernels : Kernels unit R := {|
  OpEmbedding_apply := fun _ w => w;
  ct_transpose := fun x => x;
  F_linear := fun x w => (x * w)%R;
  tensor_div := fun t s => (t / s)%R
|}.

(* ================================================================= *)
(** * Proofs *)

(** ** Integer tensors *)

Lemma fits_int64b_spec (z : Z) : fits_int64b z = true <-> fits_int64 z.
Proof. unfold fits_int64b, fits_int64. lia. Qed.

Lemma fits_int32b_spec (z : Z) : fits_int32b z = true <-> fits_int32 z.
Proof. unfold fits_int32b, fits_int32. lia. Qed.

Lemma fits_int32_int64 (z : Z) : fits_int32 z -> fits_int64 z.
Proof. unfold fits_int32, fits_int64. lia. Qed.

Lemma to_int32_fits (z : Z) : fits_int32 z -> to_int32 z = z.
Proof.
  unfold fits_int32, to_int32. intros H.
  rewrite Z.mod_small; lia.
Qed.

Lemma map_to_int32_fits (l : list Z) : Forall fits_int32 l -> map to_int32 l = l.
Proof.
  induction 1 as [|z l Hz _ IH]; simpl; [reflexivity|].
  now rewrite to_int32_fits, IH.
Qed.

Lemma torch_tensor_ok (l : list Z) : Forall fits_int64 l -> torch_tensor l = Ok l.
Proof.
  intros H. unfold torch_tensor.
  replace (forallb fits_int64b l) with true; [reflexivity|].
  symmetry. apply forallb_forall. intros z Hz.
  apply fits_int64b_spec. rewrite Forall_forall in H. now apply H.
Qed.

Lemma torch_zeros_ok (n : Z) : 0 <= n -> torch_zeros n = Ok (repeat 0 (Z.to_nat n)).
Proof.
  intros H. unfold torch_zeros.
  destruct (n <? 0) eqn:E; [lia | reflexivity].
Qed.

Lemma Forall_fits_repeat0 (P : Z -> Prop) (n : nat) : P 0 -> Forall P (repeat 0 n).
Proof. intros H. induction n; simpl; constructor; assumption. Qed.

Lemma len_app {A : Type} (l1 l2 : list A) : len (l1 ++ l2) = len l1 + len l2.
Proof. unfold len. rewrite length_app. lia. Qed.

Lemma len_zeros_range (n : Z) : 0 <= n -> len (zeros_range n) = n.
Proof. intros H. unfold len, zeros_range. rewrite repeat_length. lia. Qed.

Lemma len_nonneg {A : Type} (l : list A) : 0 <= len l.
Proof. unfold len. lia. Qed.

Lemma len_input (lef rig : list Z) (spans : Z) :
  0 <= spans ->
  len (lef ++ zeros_range spans ++ rig) = len lef + spans + len rig.
Proof. intros H. rewrite !len_app, len_zeros_range by assumption. lia. Qed.

Lemma assign_prefix_ok (dst src : list Z) (n : Z) :
  n = len src -> (List.length src <= List.length dst)%nat ->
  assign_prefix dst n src = Ok (src ++ skipn (List.length src) dst).
Proof.
  intros -> Hle. unfold assign_prefix, len.
  rewrite Nat2Z.id, Nat.min_l by assumption.
  now rewrite Nat.eqb_refl.
Qed.

Lemma skipn_repeat {A : Type} (a : A) (k n : nat) :
  skipn k (repeat a n) = repeat a (n - k).
Proof.
  revert n. induction k as [|k IH]; intros n; simpl.
  - now rewrite Nat.sub_0_r.
  - destruct n; simpl; [reflexivity | apply IH].
Qed.

Lemma nth_map_in {A B : Type} (f : A -> B) (l : list A) (i : nat) (d : B) (d' : A) :
  (i < List.length l)%nat -> nth i (map f l) d = f (nth i l d').
Proof.
  intros H. rewrite nth_indep with (d' := f d') by (now rewrite length_map).
  apply map_nth.
Qed.

Lemma nth_np_arange (n : Z) (i : nat) (d : Z) :
  (i < Z.to_nat n)%nat -> nth i (np_arange n) d = Z.of_nat i.
Proof.
  intros H. unfold np_arange.
  rewrite nth_indep with (d' := Z.of_nat 0) by (now rewrite length_map, length_seq).
  rewrite map_nth, seq_nth by assumption. reflexivity.
Qed.

Lemma length_np_arange (n : Z) : List.length (np_arange n) = Z.to_nat n.
Proof. unfold np_arange. now rewrite length_map, length_seq. Qed.

(** ** [make_input] *)

(** The outcome of [make_input] once the assertion holds and the entries fit
    the tensors. *)
Lemma make_input_ok (lef rig : list Z) (spans max_length : Z) :
  0 <= spans ->
  Forall fits_int64 lef -> Forall fits_int64 rig ->
  max_length <= 2 ^ 31 ->
  len lef + spans + len rig < max_length ->
  make_input lef rig spans max_length =
  Ok {| input_tokens :=
          map to_int32 (lef ++ zeros_range spans ++ rig)
          ++ repeat 0 (Z.to_nat (max_length - (len lef + spans + len rig)));
        input_length := len lef + spans + len rig;
        context :=
          map (fun c => (c <? len lef) || (c >=? len lef + spans))
              (np_arange max_length);
        input_span := repeat 0 (Z.to_nat max_length) |}.
Proof.
  intros Hs Hl Hr Hmax Hlt.
  pose proof (len_nonneg lef) as Hl0. pose proof (len_nonneg rig) as Hr0.
  unfold make_input.
  rewrite len_input by assumption.
  destruct (len lef + spans + len rig <? max_length) eqn:E; [simpl | lia].
  rewrite torch_zeros_ok by lia. simpl.
  rewrite torch_tensor_ok.
  2:{ apply Forall_app; split; [assumption|].
      apply Forall_app; split; [|assumption].
      apply Forall_fits_repeat0. unfold fits_int64. lia. }
  simpl.
  assert (Hlen : len (map to_int32 (lef ++ zeros_range spans ++ rig))
                 = len lef + spans + len rig).
  { unfold len. rewrite length_map. apply (len_input lef rig spans Hs). }
  rewrite assign_prefix_ok.
  2:{ now rewrite Hlen. }
  2:{ rewrite repeat_length. unfold len in *. lia. }
  simpl. unfold torch_tensor_int32.
  replace (fits_int32b (len lef + spans + len rig)) with true.
  2:{ symmetry. apply fits_int32b_spec. unfold fits_int32. lia. }
  simpl. do 3 f_equal.
  rewrite skipn_repeat. f_equal. unfold len in *. lia.
Qed.

(** Past its assertion, [make_input] can only fail inside torch. *)
Lemma make_input_past_assert (lef rig : list Z) (spans max_length : Z) :
  len (lef ++ zeros_range spans ++ rig) < max_length ->
  make_input lef rig spans max_length <> Raise AssertionError.
Proof.
  intros Hlt. unfold make_input.
  destruct (len (lef ++ zeros_range spans ++ rig) <? max_length) eqn:E; [simpl | lia].
  unfold torch_zeros, torch_tensor, assign_prefix, torch_tensor_int32.
  destruct (max_length <? 0); simpl; [discriminate|].
  destruct (forallb fits_int64b _); simpl; [|discriminate].
  destruct (Nat.eqb _ _); simpl; [|discriminate].
  destruct (fits_int32b _); simpl; discriminate.
Qed.

(** C6: when the combined length is below [max_length], [make_input] returns
    a token tensor of width [max_length] that holds the left tokens, then
    [spans] zeros, then the right tokens, then zero padding; a length field
    equal to the combined count; and a context mask of width [max_length]
    that is false exactly on the span region.  The span count is a count
    ([0 <= spans]) and the token ids and [max_length] fit int32. *)
Theorem make_input_packs (lef_tokens rig_tokens : list Z) (spans max_length : Z) :
  0 <= spans ->
  Forall fits_int32 lef_tokens -> Forall fits_int32 rig_tokens ->
  max_length <= 2 ^ 31 ->
  len lef_tokens + spans + len rig_tokens < max_length ->
  exists p,
    make_input lef_tokens rig_tokens spans max_length = Ok p /\
    len (input_tokens p) = max_length /\
    input_tokens p =
      lef_tokens ++ repeat 0 (Z.to_nat spans) ++ rig_tokens
      ++ repeat 0 (Z.to_nat (max_length - (len lef_tokens + spans + len rig_tokens))) /\
    input_length p = len lef_tokens + spans + len rig_tokens /\
    len (context p) = max_length /\
    forall i, 0 <= i < max_length ->
      nth (Z.to_nat i) (context p) false =
      negb ((len lef_tokens <=? i) && (i <? len lef_tokens + spans)).
Proof.
  intros Hs Hl Hr Hmax Hlt.
  pose proof (len_nonneg lef_tokens) as Hl0.
  pose proof (len_nonneg rig_tokens) as Hr0.
  eexists. split.
  { apply make_input_ok; try assumption;
      (eapply Forall_impl; [apply fits_int32_int64 | assumption]). }
  cbn [input_tokens input_length context].
  assert (Hin : map to_int32 (lef_tokens ++ zeros_range spans ++ rig_tokens)
                = lef_tokens ++ zeros_range spans ++ rig_tokens).
  { apply map_to_int32_fits.
    apply Forall_app; split; [assumption|].
    apply Forall_app; split; [|assumption].
    apply Forall_fits_repeat0. unfold fits_int32. lia. }
  rewrite Hin. repeat split.
  - rewrite len_app, len_input by assumption.
    unfold len. rewrite repeat_length. unfold len in *. lia.
  - unfold zeros_range. now rewrite <- !app_assoc.
  - unfold len. rewrite length_map, length_np_arange. lia.
  - intros i Hi.
    rewrite nth_map_in with (d' := 0) by (rewrite length_np_arange; lia).
    rewrite nth_np_arange by lia.
    rewrite Z2Nat.id by lia.
    destruct (i <? len lef_tokens) eqn:E1;
      destruct (i >=? len lef_tokens + spans) eqn:E2;
      destruct (len lef_tokens <=? i) eqn:E3;
      destruct (i <? len lef_tokens + spans) eqn:E4; simpl; try reflexivity; lia.
Qed.

Lemma make_input_packs_witness :
  exists p,
    make_input [5; 6] [7] 2 8 = Ok p /\
    len (input_tokens p) = 8 /\
    input_tokens p = [5; 6] ++ repeat 0 (Z.to_nat 2) ++ [7]
                     ++ repeat 0 (Z.to_nat (8 - (len [5; 6] + 2 + len [7]))) /\
    input_length p = len [5; 6] + 2 + len [7] /\
    len (context p) = 8 /\
    forall i, 0 <= i < 8 ->
      nth (Z.to_nat i) (context p) false =
      negb ((len [5; 6] <=? i) && (i <? len [5; 6] + 2)).
Proof.
  apply (make_input_packs [5; 6] [7] 2 8).
  - lia.
  - repeat constructor; unfold fits_int32; lia.
  - repeat constructor; unfold fits_int32; lia.
  - lia.
  - vm_compute. reflexivity.
Defined.

(** C7: [make_input] raises [AssertionError] exactly when the combined
    length reaches [max_length]; below it nothing else is validated and the
    call succeeds, for Python integers that torch can store. *)
Theorem make_input_assertion (lef_tokens rig_tokens : list Z) (spans max_length : Z) :
  0 <= spans ->
  (make_input lef_tokens rig_tokens spans max_length = Raise AssertionError
   <-> len lef_tokens + spans + len rig_tokens >= max_length) /\
  (len lef_tokens + spans + len rig_tokens < max_length ->
   Forall fits_int64 lef_tokens -> Forall fits_int64 rig_tokens ->
   max_length <= 2 ^ 31 ->
   succeeds (make_input lef_tokens rig_tokens spans max_length)).
Proof.
  intros Hs. split; [split|].
  - intros Hraise.
    destruct (Z_lt_ge_dec (len lef_tokens + spans + len rig_tokens) max_length)
      as [Hlt|Hge]; [exfalso | assumption].
    apply (make_input_past_assert lef_tokens rig_tokens spans max_length);
      [now rewrite len_input | assumption].
  - intros Hge. unfold make_input. rewrite len_input by assumption.
    destruct (len lef_tokens + spans + len rig_tokens <? max_length) eqn:E;
      [lia | reflexivity].
  - intros Hlt Hl Hr Hmax. eexists.
    now apply make_input_ok.
Qed.

Lemma make_input_assertion_witness :
  (make_input [5; 6] [7] 2 8 = Raise AssertionError
   <-> len [5; 6] + 2 + len [7] >= 8) /\
  succeeds (make_input [5; 6] [7] 2 8).
Proof.
  destruct (make_input_assertion [5; 6] [7] 2 8) as [Hiff Hok]; [lia|].
  split; [exact Hiff|].
  apply Hok.
  - vm_compute. reflexivity.
  - repeat constructor; unfold fits_int64; lia.
  - repeat constructor; unfold fits_int64; lia.
  - lia.
Defined.

Example make_input_at_limit : make_input [5; 6] [7] 2 5 = Raise AssertionError.
Proof. reflexivity. Qed.

Example make_input_below_limit :
  make_input [5; 6] [7] 2 8 =
  Ok {| input_tokens := [5; 6; 0; 0; 7; 0; 0; 0];
        input_length := 5;
        context := [true; true; false; false; true; true; true; true];
        input_span := [0; 0; 0; 0; 0; 0; 0; 0] |}.
Proof. reflexivity. Qed.

(** ** [LCQMC_Dataset.__init__] *)

Lemma mapM_length {A B : Type} (f : A -> result B) (l : list A) (bs : list B) :
  mapM f l = Ok bs -> List.length bs = List.length l.
Proof.
  revert bs. induction l as [|a l IH]; simpl; intros bs H.
  - now inversion H.
  - destruct (f a) as [b|e]; simpl in H; [|discriminate].
    destruct (mapM f l) as [bs'|e]; simpl in H; [|discriminate].
    inversion H; subst. simpl. f_equal. now apply IH.
Qed.

Lemma mapM_succeeds {A B : Type} (f : A -> result B) (l : list A) :
  Forall (fun a => succeeds (f a)) l -> succeeds (mapM f l).
Proof.
  induction 1 as [|a l [b Hb] _ [bs Hbs]]; simpl.
  - now exists [].
  - exists (b :: bs). now rewrite Hb, Hbs.
Qed.

(** The loop builds an example for the kept rows, in order, and nothing
    else. *)
Lemma LCQMC_loop_kept (encode : string -> list Z) (int_of_string : string -> result Z)
      (it : list (Z * row)) (max_id rank world_size max_length : Z) (data : list example) :
  LCQMC_loop encode int_of_string it max_id rank world_size max_length data =
  (exs <- mapM (fun ir => build_example encode int_of_string (snd ir) max_length)
               (filter (kept max_id rank world_size) it) ;;
   Ok (data ++ exs)).
Proof.
  revert data. induction it as [|[i r] rest IH]; intros data; simpl.
  - now rewrite app_nil_r.
  - unfold kept at 1. unfold kept_index at 1. simpl fst.
    destruct ((i =? 0) || (i >? max_id)); simpl; [apply IH|].
    destruct (i mod world_size =? rank); simpl; [|apply IH].
    destruct (build_example encode int_of_string r max_length); simpl; [|reflexivity].
    rewrite IH.
    destruct (mapM _ (filter _ rest)); simpl; [|reflexivity].
    now rewrite <- app_assoc.
Qed.

Lemma In_combine_seq {A : Type} (l : list A) (a : nat) (i : Z) (r : A) :
  In (i, r) (combine (map Z.of_nat (seq a (List.length l))) l) <->
  exists j, i = Z.of_nat (a + j) /\ nth_error l j = Some r.
Proof.
  revert a. induction l as [|x l IH]; intros a; simpl.
  - split; [tauto|]. intros [j [_ H]]. destruct j; discriminate.
  - split.
    + intros [H|H].
      * inversion H; subst. exists 0%nat. split; [f_equal; lia | reflexivity].
      * apply IH in H. destruct H as [j [-> Hj]].
        exists (S j). split; [f_equal; lia | exact Hj].
    + intros [[|j] [-> Hj]]; simpl in Hj.
      * left. inversion Hj; subst. f_equal. f_equal. lia.
      * right. apply IH. exists j. split; [f_equal; lia | exact Hj].
Qed.

Lemma In_enumerate {A : Type} (l : list A) (i : Z) (r : A) :
  In (i, r) (enumerate l) <-> 0 <= i /\ nth_error l (Z.to_nat i) = Some r.
Proof.
  unfold enumerate. rewrite In_combine_seq. simpl. split.
  - intros [j [-> Hj]]. rewrite Nat2Z.id. split; [lia | exact Hj].
  - intros [Hi Hr]. exists (Z.to_nat i). split; [lia | exact Hr].
Qed.

Lemma length_filter_combine {A : Type} (p : Z -> bool) (ixs : list Z) (l : list A) :
  List.length ixs = List.length l ->
  List.length (filter (fun ir => p (fst ir)) (combine ixs l)) = List.length (filter p ixs).
Proof.
  revert l. induction ixs as [|i ixs IH]; intros [|x l] H; simpl in *; try discriminate.
  - reflexivity.
  - destruct (p i); simpl; rewrite IH by lia; reflexivity.
Qed.

(** Stepping a floor division by one: the quotient grows exactly at the
    multiples. *)
Lemma div_step (W r x : Z) :
  0 < W -> 0 <= r < W ->
  (x + 1 - r) / W = (x - r) / W + (if (x + 1) mod W =? r then 1 else 0).
Proof.
  intros HW Hr.
  pose proof (Z.div_mod (x - r) W ltac:(lia)) as E1.
  pose proof (Z.mod_pos_bound (x - r) W HW) as B1.
  pose proof (Z.div_mod (x + 1) W ltac:(lia)) as E2.
  pose proof (Z.mod_pos_bound (x + 1) W HW) as B2.
  set (q1 := (x - r) / W) in *. set (s1 := (x - r) mod W) in *.
  set (q2 := (x + 1) / W) in *. set (s2 := (x + 1) mod W) in *.
  destruct (s2 =? r) eqn:E.
  - apply Z.eqb_eq in E.
    assert (Hq : q2 - q1 = 1) by nia.
    symmetry. apply Z.div_unique with (r := 0); [lia|]. nia.
  - apply Z.eqb_neq in E.
    assert (Hq : q2 - q1 = 0 \/ q2 - q1 = 1) by nia.
    symmetry. apply Z.div_unique with (r := s1 + 1); [|lia].
    assert (s1 <> W - 1); [|lia].
    intros Hc. apply E. destruct Hq as [Hq|Hq]; nia.
Qed.

(** Among the indices 1..m, those congruent to [r] are counted by a floor
    division. *)
Lemma count_residue (W r : Z) (m : nat) :
  0 < W -> 0 <= r < W ->
  Z.of_nat (List.length (filter (fun i => i mod W =? r) (map Z.of_nat (seq 1 m)))) =
  (Z.of_nat m - r) / W + (if r =? 0 then 0 else 1).
Proof.
  intros HW Hr. induction m as [|m IH].
  - simpl. destruct (r =? 0) eqn:E.
    + apply Z.eqb_eq in E. subst. reflexivity.
    + apply Z.eqb_neq in E.
      assert (H : (- r) / W = -1).
      { symmetry. apply Z.div_unique with (r := W - r); lia. }
      rewrite H. reflexivity.
  - rewrite seq_S, map_app, filter_app, length_app, Nat2Z.inj_add, IH.
    replace (Z.of_nat (S m) - r) with (Z.of_nat m + 1 - r) by lia.
    rewrite div_step by assumption.
    cbn [map filter Nat.add].
    replace (Z.of_nat (S m)) with (Z.of_nat m + 1) by lia.
    destruct ((Z.of_nat m + 1) mod W =? r); simpl; lia.
Qed.

Lemma filter_nil_in {A : Type} (p : A -> bool) (l : list A) :
  (forall a, In a l -> p a = false) -> filter p l = [].
Proof.
  induction l as [|a l IH]; simpl; intros H; [reflexivity|].
  rewrite (H a) by now left. apply IH. intros b Hb. apply H. now right.
Qed.

Lemma In_map_seq (a n : nat) (i : Z) :
  In i (map Z.of_nat (seq a n)) -> Z.of_nat a <= i < Z.of_nat a + Z.of_nat n.
Proof.
  intros H. apply in_map_iff in H. destruct H as [j [<- Hj]].
  apply in_seq in Hj. lia.
Qed.

(** Every rank keeps [(R - 1) // W] of the [R] rows. *)
Lemma kept_count (reader : list row) (rank W : Z) :
  1 <= len reader -> 1 <= W -> 0 <= rank < W ->
  len (filter (kept ((len reader - 1) / W * W) rank W) (enumerate reader))
  = (len reader - 1) / W.
Proof.
  intros HR HW Hr.
  set (k := (len reader - 1) / W).
  assert (Hk : 0 <= k) by (apply Z.div_pos; lia).
  assert (HkW : k * W <= len reader - 1).
  { unfold k. rewrite Z.mul_comm. apply Z.mul_div_le. lia. }
  unfold len at 1. unfold enumerate.
  change (kept (k * W) rank W) with (fun ir : Z * row => kept_index (k * W) rank W (fst ir)).
  rewrite length_filter_combine by (now rewrite length_map, length_seq).
  assert (Hn : List.length reader
               = (1 + (Z.to_nat (k * W) + (List.length reader - 1 - Z.to_nat (k * W))))%nat).
  { unfold len in *. nia. }
  rewrite Hn at 1.
  rewrite !seq_app, !map_app, !filter_app, !length_app.
  rewrite (filter_nil_in _ (map Z.of_nat (seq 0 1))).
  2:{ intros i Hi. apply In_map_seq in Hi. unfold kept_index.
      replace i with 0 by lia. reflexivity. }
  rewrite (filter_nil_in _ (map Z.of_nat (seq _ (List.length reader - 1 - Z.to_nat (k * W))))).
  2:{ intros i Hi. apply In_map_seq in Hi. unfold kept_index.
      destruct (i >? k * W) eqn:E; [now rewrite orb_true_r | nia]. }
  rewrite (filter_ext_in _ (fun i => i mod W =? rank)).
  2:{ intros i Hi. apply In_map_seq in Hi. unfold kept_index.
      destruct (i =? 0) eqn:E0; [lia|].
      destruct (i >? k * W) eqn:E1; [nia | reflexivity]. }
  simpl List.length. rewrite Nat.add_0_r. simpl Nat.add.
  rewrite count_residue by lia.
  rewrite Z2Nat.id by nia.
  destruct (rank =? 0) eqn:E.
  - apply Z.eqb_eq in E. subst rank. rewrite Z.sub_0_r, Z.div_mul by lia. lia.
  - apply Z.eqb_neq in E.
    assert (H : (k * W - rank) / W = k - 1); [|lia].
    symmetry. apply Z.div_unique with (r := W - rank); lia.
Qed.

(** C9: from a file of [R >= 1] rows, header included, the constructor
    builds on rank [r] of [W] an example for exactly the rows [i] with
    [1 <= i <= ((R-1)//W)*W] and [i mod W = r], in file order; these are
    [(R-1)//W] rows on every rank, so whenever the constructor returns
    every rank holds [(R-1)//W] examples, and it returns as soon as each of
    these rows yields an example. *)
Theorem LCQMC_Dataset_rank_rows
        (encode : string -> list Z) (int_of_string : string -> result Z)
        (reader : list row) (rank world_size max_length : Z) :
  1 <= len reader -> 1 <= world_size -> 0 <= rank < world_size ->
  let rows := filter (kept ((len reader - 1) / world_size * world_size) rank world_size)
                     (enumerate reader) in
  let init := LCQMC_Dataset_init encode int_of_string reader rank world_size max_length in
  (forall i r, In (i, r) rows <->
               assigned (len reader) world_size rank i
               /\ nth_error reader (Z.to_nat i) = Some r) /\
  len rows = (len reader - 1) / world_size /\
  init = mapM (fun ir => build_example encode int_of_string (snd ir) max_length) rows /\
  (forall data, init = Ok data -> len data = (len reader - 1) / world_size) /\
  (Forall (fun ir => succeeds (build_example encode int_of_string (snd ir) max_length)) rows ->
   succeeds init).
Proof.
  intros HR HW Hr rows init.
  assert (Hinit : init = mapM (fun ir => build_example encode int_of_string (snd ir) max_length)
                              rows).
  { unfold init, LCQMC_Dataset_init.
    destruct (world_size =? 0) eqn:E; [lia|].
    rewrite LCQMC_loop_kept. fold rows.
    destruct (mapM _ rows); reflexivity. }
  assert (Hcount : len rows = (len reader - 1) / world_size)
    by (apply kept_count; assumption).
  split; [|split; [exact Hcount | split; [exact Hinit | split]]].
  - intros i r. unfold rows. rewrite filter_In, In_enumerate.
    unfold kept, kept_index, assigned. simpl fst.
    assert (Hk : (len reader - 1) / world_size * world_size <= len reader - 1).
    { rewrite Z.mul_comm. apply Z.mul_div_le. lia. }
    split.
    + intros [[Hi Hnth] Hkept].
      apply andb_true_iff in Hkept. destruct Hkept as [H1 H2].
      apply negb_true_iff, orb_false_iff in H1. destruct H1 as [H0 Hmax].
      repeat split; try assumption; lia.
    + intros [[Hi Hmod] Hnth].
      repeat split; try assumption; [lia|].
      apply andb_true_iff. split; [|lia].
      apply negb_true_iff, orb_false_iff. split; lia.
  - intros data Hdata. rewrite Hinit in Hdata.
    apply mapM_length in Hdata. unfold len in *. rewrite Hdata. exact Hcount.
  - intros Hall. rewrite Hinit. now apply mapM_succeeds.
Qed.

Lemma LCQMC_Dataset_rank_rows_witness :
  let rows := filter (kept ((len small_file - 1) / 2 * 2) 1 2) (enumerate small_file) in
  let init := LCQMC_Dataset_init byte_encode label_of_string small_file 1 2 64 in
  (forall i r, In (i, r) rows <->
               assigned (len small_file) 2 1 i
               /\ nth_error small_file (Z.to_nat i) = Some r) /\
  len rows = (len small_file - 1) / 2 /\
  init = mapM (fun ir => build_example byte_encode label_of_string (snd ir) 64) rows /\
  (forall data, init = Ok data -> len data = (len small_file - 1) / 2) /\
  (Forall (fun ir => succeeds (build_example byte_encode label_of_string (snd ir) 64)) rows ->
   succeeds init).
Proof.
  apply (LCQMC_Dataset_rank_rows byte_encode label_of_string small_file 1 2 64).
  - vm_compute. discriminate.
  - lia.
  - lia.
Defined.

Example small_file_rank1 :
  map ex_target
      (match LCQMC_Dataset_init byte_encode label_of_string small_file 1 2 64 with
       | Ok data => data
       | Raise _ => []
       end) = [1; 1].
Proof. vm_compute. reflexivity. Qed.

Example small_file_rank0 :
  map ex_target
      (match LCQMC_Dataset_init byte_encode label_of_string small_file 0 2 64 with
       | Ok data => data
       | Raise _ => []
       end) = [0; 0].
Proof. vm_compute. reflexivity. Qed.

(** ** Gathering predictions and labels *)

Lemma int_tensor_fits (l : list Z) : Forall fits_int32 l -> int_tensor l = Ok l.
Proof.
  intros H. unfold int_tensor.
  rewrite torch_tensor_ok by (eapply Forall_impl; [apply fits_int32_int64 | exact H]).
  simpl. now rewrite map_to_int32_fits.
Qed.

Lemma mapM_int_tensor_fits (ls : list (list Z)) :
  Forall (Forall fits_int32) ls -> mapM int_tensor ls = Ok ls.
Proof.
  induction 1 as [|l ls Hl _ IH]; simpl; [reflexivity|].
  rewrite int_tensor_fits by assumption. simpl. now rewrite IH.
Qed.

Lemma write_at_block (pre rest src : list Z) :
  (List.length src <= List.length rest)%nat ->
  write_at (pre ++ rest) (List.length pre) src
  = (pre ++ src) ++ skipn (List.length src) rest.
Proof.
  intros _. unfold write_at.
  rewrite firstn_app, Nat.sub_diag, firstn_all. simpl. rewrite app_nil_r.
  rewrite skipn_app, skipn_all2 by lia.
  replace (List.length pre + List.length src - List.length pre)%nat
    with (List.length src) by lia.
  simpl. now rewrite <- app_assoc.
Qed.

(** Writing the blocks of the ranks [a], [a+1], ... one after the other
    fills the buffer with their concatenation. *)
Lemma gather_blocks (n : nat) (l : list (list Z)) :
  Forall (fun s => List.length s = n) l ->
  forall (a : nat) (pre rest : list Z),
    List.length pre = (a * n)%nat ->
    (n * List.length l <= List.length rest)%nat ->
    fold_left (fun buf (js : nat * list Z) => write_at buf (fst js * n) (snd js))
              (combine (seq a (List.length l)) l) (pre ++ rest)
    = pre ++ List.concat l ++ skipn (n * List.length l) rest.
Proof.
  induction 1 as [|s l Hs _ IH]; intros a pre rest Hpre Hrest.
  - simpl. now rewrite Nat.mul_0_r.
  - cbn [List.length seq combine fold_left fst snd List.concat] in *.
    rewrite <- Hpre.
    rewrite write_at_block by nia.
    rewrite IH.
    + rewrite skipn_skipn, <- !app_assoc.
      replace (n * List.length l + List.length s)%nat
        with (n * S (List.length l))%nat by nia.
      reflexivity.
    + rewrite length_app. simpl. lia.
    + rewrite length_skipn. nia.
Qed.

Lemma gather_into_concat (n : nat) (srcs : list (list Z)) (dst : list Z) :
  Forall (fun s => List.length s = n) srcs ->
  List.length dst = (n * List.length srcs)%nat ->
  gather_into srcs n dst = List.concat srcs.
Proof.
  intros Hall Hdst. unfold gather_into.
  pose proof (gather_blocks n srcs Hall 0 [] dst eq_refl ltac:(lia)) as H.
  simpl app in H. rewrite H.
  rewrite skipn_all2 by lia. apply app_nil_r.
Qed.

Lemma same_count_true (n : nat) (srcs : list (list Z)) :
  Forall (fun s => List.length s = n) srcs -> same_count srcs = true.
Proof.
  intros H. destruct srcs as [|s rest]; [reflexivity|]. simpl.
  inversion H as [|? ? Hs Hrest]; subst.
  apply forallb_forall. intros s' Hs'.
  rewrite Forall_forall in Hrest. rewrite (Hrest s' Hs'). apply Nat.eqb_refl.
Qed.

Lemma length_concat_same (n : nat) (l : list (list Z)) :
  Forall (fun s => List.length s = n) l ->
  List.length (List.concat l) = (n * List.length l)%nat.
Proof.
  induction 1 as [|s l Hs _ IH]; simpl; [lia|].
  rewrite length_app, IH. nia.
Qed.

Lemma concat_block (n : nat) (l : list (list Z)) :
  Forall (fun s => List.length s = n) l ->
  forall (r : nat) (s : list Z),
    nth_error l r = Some s ->
    firstn n (skipn (r * n) (List.concat l)) = s.
Proof.
  induction 1 as [|x l Hx _ IH]; intros r s Hr.
  - destruct r; discriminate.
  - destruct r as [|r]; simpl in Hr.
    + inversion Hr; subst. simpl.
      rewrite firstn_app, Nat.sub_diag, firstn_all. simpl. apply app_nil_r.
    + cbn [List.concat]. rewrite skipn_app.
      rewrite skipn_all2 by (simpl; nia). cbn [app].
      replace (S r * n - List.length x)%nat with (r * n)%nat by (simpl; nia).
      apply IH. exact Hr.
Qed.

Lemma combine_map_r {A B : Type} (f : A -> B) (l : list A) :
  combine l (map f l) = map (fun a => (a, f a)) l.
Proof. induction l as [|a l IH]; simpl; [reflexivity | now rewrite IH]. Qed.

Lemma gather_list_concat (locals : list (list Z)) (junk : Z) (n : nat) :
  Forall (fun l => List.length l = n) locals ->
  gather_list locals junk = Ok (Some (map (fun _ => List.concat locals) locals)).
Proof.
  intros Hn. unfold gather_list, nccl_allGather.
  rewrite combine_map_r.
  replace (forallb _ (map _ locals)) with true.
  2:{ symmetry. apply forallb_forall. intros [s d] Hsd.
      apply in_map_iff in Hsd. destruct Hsd as [l [Heq _]].
      inversion Heq; subst. simpl. rewrite repeat_length. apply Nat.eqb_refl. }
  simpl. rewrite (same_count_true n) by assumption.
  do 2 f_equal. rewrite map_map. apply map_ext_in.
  intros l Hl. cbn [fst snd].
  assert (Hl' : List.length l = n) by (rewrite Forall_forall in Hn; now apply Hn).
  rewrite Hl'.
  apply gather_into_concat; [assumption|].
  apply repeat_length.
Qed.

(** C8: when every rank holds the same number [n] of local predictions and
    of labels, the two gathers leave on every rank the concatenation of the
    local lists in rank order: [n * world_size] entries, the block of rank
    [r] being the local list of rank [r] in its own order.  The entries are
    class indices, which fit int32. *)
Theorem finetune_gather_rank_order (pds gts : list (list Z)) (junk : Z) (n : nat) :
  Forall (fun l => List.length l = n) pds ->
  Forall (fun l => List.length l = n) gts ->
  Forall (Forall fits_int32) pds ->
  Forall (Forall fits_int32) gts ->
  finetune_gather pds gts junk
  = Ok (Some (map (fun _ => List.concat pds) pds, map (fun _ => List.concat gts) gts)) /\
  List.length (List.concat pds) = (n * List.length pds)%nat /\
  List.length (List.concat gts) = (n * List.length gts)%nat /\
  forall (r : nat) (l : list Z),
    (nth_error pds r = Some l -> firstn n (skipn (r * n) (List.concat pds)) = l) /\
    (nth_error gts r = Some l -> firstn n (skipn (r * n) (List.concat gts)) = l).
Proof.
  intros Hpn Hgn Hpfit Hgfit. split; [|split; [|split]].
  - unfold finetune_gather.
    rewrite !mapM_int_tensor_fits by assumption. simpl.
    rewrite (gather_list_concat pds junk n) by assumption. simpl.
    rewrite (gather_list_concat gts junk n) by assumption. reflexivity.
  - now apply length_concat_same.
  - now apply length_concat_same.
  - intros r l. split; now apply concat_block.
Qed.

Lemma finetune_gather_rank_order_witness :
  finetune_gather [[1; 0; 1]; [0; 0; 1]] [[1; 1; 1]; [0; 1; 0]] 7
  = Ok (Some (map (fun _ => List.concat [[1; 0; 1]; [0; 0; 1]]) [[1; 0; 1]; [0; 0; 1]],
              map (fun _ => List.concat [[1; 1; 1]; [0; 1; 0]]) [[1; 1; 1]; [0; 1; 0]])) /\
  List.length (List.concat [[1; 0; 1]; [0; 0; 1]])
  = (3 * List.length [[1; 0; 1]; [0; 0; 1]])%nat /\
  List.length (List.concat [[1; 1; 1]; [0; 1; 0]])
  = (3 * List.length [[1; 1; 1]; [0; 1; 0]])%nat /\
  forall (r : nat) (l : list Z),
    (nth_error [[1; 0; 1]; [0; 0; 1]] r = Some l ->
     firstn 3 (skipn (r * 3) (List.concat [[1; 0; 1]; [0; 0; 1]])) = l) /\
    (nth_error [[1; 1; 1]; [0; 1; 0]] r = Some l ->
     firstn 3 (skipn (r * 3) (List.concat [[1; 1; 1]; [0; 1; 0]])) = l).
Proof.
  apply (finetune_gather_rank_order [[1; 0; 1]; [0; 0; 1]] [[1; 1; 1]; [0; 1; 0]] 7 3).
  - repeat constructor.
  - repeat constructor.
  - repeat constructor; unfold fits_int32; lia.
  - repeat constructor; unfold fits_int32; lia.
Defined.

(** Two ranks with three predictions each: six entries on every rank,
    rank 0 first. *)
Example finetune_gather_2x3 :
  finetune_gather [[1; 0; 1]; [0; 0; 1]] [[1; 1; 1]; [0; 1; 0]] 7
  = Ok (Some ([[1; 0; 1; 0; 0; 1]; [1; 0; 1; 0; 0; 1]],
              [[1; 1; 1; 0; 1; 0]; [1; 1; 1; 0; 1; 0]])).
Proof. reflexivity. Qed.

(** With unequal counts the model gives no gathered list. *)
Example finetune_gather_uneven :
  finetune_gather [[1; 0; 1]; [0; 0]] [[1; 1; 1]; [0; 1]] 7 = Ok None.
Proof. reflexivity. Qed.

(* ================================================================= *)
(** ** [clip_grad_norm] *)

Section ClipGradNorm.
Local Open Scope R_scope.

(** Takes the branch [clip_coef < 1] of the call when the numbers say so. *)
Ltac clips :=
  match goal with
  | |- context [Rlt_dec ?c 1] =>
      let N := fresh "N" in
      destruct (Rlt_dec c 1) as [_|N]; [|exfalso; apply N; lra]
  end.

(** Unfolds the update of the gradients of a rank built by [rank_with]. *)
Ltac unfold_update :=
  unfold mul_grads, rank_with, mul_param, tensor_mul; simpl.

(** *** Powers, sums and maxima *)

Lemma rpow_nonneg (x y : R) : 0 <= rpow x y.
Proof.
  unfold rpow. destruct (Req_dec_T x 0); [destruct (Req_dec_T y 0); lra|].
  unfold Rpower. left. apply exp_pos.
Qed.

Lemma rpow_0_l (y : R) : y <> 0 -> rpow 0 y = 0.
Proof.
  intros H. unfold rpow.
  destruct (Req_dec_T 0 0) as [_|N]; [|now elim N].
  destruct (Req_dec_T y 0); [contradiction | reflexivity].
Qed.

Lemma rpow_pos (x y : R) : 0 < x -> rpow x y = Rpower x y.
Proof.
  intros H. unfold rpow. destruct (Req_dec_T x 0); [lra | reflexivity].
Qed.

Lemma Rpower_pos (x y : R) : 0 < Rpower x y.
Proof. unfold Rpower. apply exp_pos. Qed.

(** Raising the p-th root to the p-th power, and back. *)
Lemma rpow_root (s p : R) : 0 <= s -> p <> 0 -> rpow (rpow s (1 / p)) p = s.
Proof.
  intros Hs Hp.
  assert (Hip : 1 / p <> 0).
  { unfold Rdiv. rewrite Rmult_1_l. now apply Rinv_neq_0_compat. }
  destruct Hs as [Hs|<-].
  - rewrite (rpow_pos s) by assumption.
    rewrite rpow_pos by apply Rpower_pos.
    rewrite Rpower_mult.
    replace (1 / p * p) with 1 by (field; assumption).
    now apply Rpower_1.
  - now rewrite !rpow_0_l.
Qed.

Lemma root_rpow (a p : R) : 0 <= a -> p <> 0 -> rpow (rpow a p) (1 / p) = a.
Proof.
  intros Ha Hp.
  assert (Hip : 1 / p <> 0).
  { unfold Rdiv. rewrite Rmult_1_l. now apply Rinv_neq_0_compat. }
  destruct Ha as [Ha|<-].
  - rewrite (rpow_pos a) by assumption.
    rewrite rpow_pos by apply Rpower_pos.
    rewrite Rpower_mult.
    replace (p * (1 / p)) with 1 by (field; assumption).
    now apply Rpower_1.
  - now rewrite !rpow_0_l.
Qed.

Lemma rpow_mult (a b p : R) :
  0 <= a -> 0 <= b -> p <> 0 -> rpow (a * b) p = rpow a p * rpow b p.
Proof.
  intros [Ha|<-] [Hb|<-] Hp.
  - rewrite !rpow_pos by (try apply Rmult_lt_0_compat; assumption).
    symmetry. now apply Rpower_mult_distr.
  - rewrite Rmult_0_r, rpow_0_l by assumption. ring.
  - rewrite Rmult_0_l, rpow_0_l by assumption. ring.
  - rewrite Rmult_0_l, rpow_0_l by assumption. ring.
Qed.

Lemma rpow_2 (x : R) : rpow (Rabs x) 2 = x * x.
Proof.
  destruct (Req_dec_T x 0) as [->|Hx].
  - rewrite Rabs_R0, rpow_0_l by lra. ring.
  - rewrite rpow_pos by now apply Rabs_pos_lt.
    change 2 with (INR 2).
    rewrite Rpower_pow by now apply Rabs_pos_lt.
    simpl. rewrite Rmult_1_r, <- Rabs_mult.
    apply Rabs_pos_eq. nra.
Qed.

Lemma rpow_half (s : R) : 0 <= s -> rpow s (1 / 2) = sqrt s.
Proof.
  intros [Hs|<-].
  - rewrite rpow_pos by assumption.
    replace (1 / 2) with (/ 2) by lra. now apply Rpower_sqrt.
  - rewrite rpow_0_l by lra. now rewrite sqrt_0.
Qed.

Lemma Rsum_app (l1 l2 : list R) : Rsum (l1 ++ l2) = Rsum l1 + Rsum l2.
Proof.
  induction l1 as [|x l1 IH]; simpl; [lra|]. unfold Rsum in *. simpl. rewrite IH. lra.
Qed.

Lemma Rsum_nonneg (l : list R) : Forall (fun x => 0 <= x) l -> 0 <= Rsum l.
Proof.
  induction 1 as [|x l Hx _ IH]; unfold Rsum in *; simpl; lra.
Qed.

Lemma Rsum_rpow_nonneg (p : R) (v : list R) :
  0 <= Rsum (map (fun x => rpow (Rabs x) p) v).
Proof.
  apply Rsum_nonneg. apply Forall_forall. intros y Hy.
  apply in_map_iff in Hy. destruct Hy as [x [<- _]]. apply rpow_nonneg.
Qed.

Lemma fold_left_Rplus (l : list R) (a : R) : fold_left Rplus l a = a + Rsum l.
Proof.
  revert a. induction l as [|x l IH]; intros a; simpl.
  - unfold Rsum. simpl. lra.
  - rewrite IH. unfold Rsum. simpl. lra.
Qed.

Lemma fold_left_add_map {A : Type} (f : A -> R) (l : list A) (a : R) :
  fold_left (fun total q => total + f q) l a = a + Rsum (map f l).
Proof.
  revert a. induction l as [|x l IH]; intros a; simpl.
  - unfold Rsum. simpl. lra.
  - rewrite IH. unfold Rsum. simpl. lra.
Qed.

Lemma Rsum_flat_map {A : Type} (f : A -> list R) (l : list A) :
  Rsum (flat_map f l) = Rsum (map (fun a => Rsum (f a)) l).
Proof.
  induction l as [|a l IH]; simpl; [reflexivity|].
  rewrite Rsum_app, IH. reflexivity.
Qed.

Lemma Rmaxl_nonneg (l : list R) : 0 <= Rmaxl l.
Proof.
  induction l as [|x l IH]; simpl; [lra|].
  eapply Rle_trans; [exact IH | apply Rmax_r].
Qed.

Lemma Rmaxl_app (l1 l2 : list R) : Rmaxl (l1 ++ l2) = Rmax (Rmaxl l1) (Rmaxl l2).
Proof.
  induction l1 as [|x l1 IH]; simpl.
  - symmetry. apply Rmax_right. apply Rmaxl_nonneg.
  - rewrite IH. apply Rmax_assoc.
Qed.

Lemma fold_left_Rmax (l : list R) (x : R) :
  0 <= x -> fold_left Rmax l x = Rmax x (Rmaxl l).
Proof.
  revert x. induction l as [|y l IH]; intros x Hx; simpl.
  - symmetry. now apply Rmax_left.
  - rewrite IH.
    + symmetry. apply Rmax_assoc.
    + eapply Rle_trans; [exact Hx | apply Rmax_l].
Qed.

Lemma Rmaxl_flat_map {A : Type} (f : A -> list R) (l : list A) :
  Rmaxl (flat_map f l) = Rmaxl (map (fun a => Rmaxl (f a)) l).
Proof.
  induction l as [|a l IH]; simpl; [reflexivity|].
  now rewrite Rmaxl_app, IH.
Qed.

(** [Linf_norm] is the largest absolute entry of a vector with entries. *)
Lemma Linf_norm_max (v : list R) :
  v <> [] ->
  (exists x, In x v /\ Linf_norm v = Rabs x) /\
  (forall x, In x v -> Rabs x <= Linf_norm v).
Proof.
  intros Hv. split.
  - induction v as [|x v IH]; [contradiction|].
    unfold Linf_norm in *. simpl.
    destruct v as [|y v'].
    + exists x. split; [now left|]. simpl. apply Rmax_left. apply Rabs_pos.
    + destruct IH as [z [Hz Ez]]; [discriminate|].
      destruct (Rle_dec (Rabs x) (Rmaxl (map Rabs (y :: v')))) as [Hle|Hgt].
      * exists z. split; [now right|]. rewrite Rmax_right by assumption. exact Ez.
      * exists x. split; [now left|]. apply Rmax_left. lra.
  - intros x Hx. unfold Linf_norm. clear Hv.
    induction v as [|y v IH]; [contradiction|].
    simpl. destruct Hx as [->|Hx].
    + apply Rmax_l.
    + eapply Rle_trans; [now apply IH | apply Rmax_r].
Qed.


(** *** The aggregated norm *)

Lemma mapM_Ok {A B : Type} (f : A -> B) (l : list A) :
  mapM (fun a => Ok (f a)) l = Ok (map f l).
Proof. induction l as [|a l IH]; simpl; [reflexivity | now rewrite IH]. Qed.

Lemma mapM_ext_in {A B : Type} (f g : A -> result B) (l : list A) :
  (forall a, In a l -> f a = g a) -> mapM f l = mapM g l.
Proof.
  induction l as [|a l IH]; simpl; intros H; [reflexivity|].
  rewrite (H a) by now left. rewrite IH; [reflexivity|].
  intros b Hb. apply H. now right.
Qed.

Lemma map_flat_map {A B C : Type} (f : B -> C) (g : A -> list B) (l : list A) :
  map f (flat_map g l) = flat_map (fun a => map f (g a)) l.
Proof.
  induction l as [|a l IH]; simpl; [reflexivity|].
  now rewrite map_app, IH.
Qed.

Lemma tensor_max_abs (g : tensor) :
  g <> [] -> tensor_max (tensor_abs g) = Ok (Linf_norm g).
Proof.
  destruct g as [|x xs]; [contradiction|]. intros _.
  unfold tensor_abs, Linf_norm. simpl.
  rewrite fold_left_Rmax by apply Rabs_pos. reflexivity.
Qed.

Lemma py_max_nonneg (l : list R) :
  l <> [] -> Forall (fun x => 0 <= x) l -> py_max l = Ok (Rmaxl l).
Proof.
  destruct l as [|x xs]; [contradiction|]. intros _ H.
  inversion H; subst. simpl. now rewrite fold_left_Rmax.
Qed.

Lemma allReduce_max_nonneg (l : list R) :
  Forall (fun x => 0 <= x) l -> nccl_allReduce_max l = Rmaxl l.
Proof.
  destruct l as [|x xs]; [reflexivity|]. intros H.
  inversion H; subst. simpl. now rewrite fold_left_Rmax.
Qed.

Lemma Linf_norm_nonneg (v : list R) : 0 <= Linf_norm v.
Proof. apply Rmaxl_nonneg. Qed.

Lemma Linf_norm_flat_map {A : Type} (f : A -> list R) (l : list A) :
  Linf_norm (flat_map f l) = Rmaxl (map (fun a => Linf_norm (f a)) l).
Proof.
  unfold Linf_norm. now rewrite map_flat_map, Rmaxl_flat_map.
Qed.

Lemma Forall_map_nonneg {A : Type} (f : A -> R) (l : list A) :
  (forall a, 0 <= f a) -> Forall (fun x => 0 <= x) (map f l).
Proof.
  intros H. apply Forall_forall. intros y Hy.
  apply in_map_iff in Hy. destruct Hy as [a [<- _]]. apply H.
Qed.

(** The ['inf'] branch on one rank: the largest absolute entry of the
    rank. *)
Lemma local_norm_Inf (pg : list ParamGroup) :
  has_entries pg -> local_norm Inf (parameters pg) = Ok (Linf_norm (rank_grads pg)).
Proof.
  intros [Hne Hall]. unfold local_norm, rank_grads.
  rewrite (mapM_ext_in _ (fun q => Ok (Linf_norm (grad_data q)))).
  2:{ intros q Hq. apply tensor_max_abs. rewrite Forall_forall in Hall. now apply Hall. }
  rewrite mapM_Ok. simpl.
  rewrite py_max_nonneg.
  - now rewrite Linf_norm_flat_map.
  - destruct (parameters pg); [contradiction | discriminate].
  - apply Forall_map_nonneg. intros q. apply Linf_norm_nonneg.
Qed.

(** The numeric branch on one rank: the sum of the p-th powers of the
    absolute entries of the rank. *)
Lemma local_norm_Lp (p : R) (pg : list ParamGroup) :
  p <> 0 ->
  local_norm (Lp p) (parameters pg)
  = Ok (Rsum (map (fun x => rpow (Rabs x) p) (rank_grads pg))).
Proof.
  intros Hp. unfold local_norm, rank_grads. f_equal.
  rewrite fold_left_add_map, Rplus_0_l.
  rewrite map_flat_map, Rsum_flat_map. f_equal.
  apply map_ext. intros q. unfold tensor_norm.
  apply rpow_root; [apply Rsum_rpow_nonneg | assumption].
Qed.

Lemma global_norm_Inf (workers : list (list ParamGroup)) :
  Forall has_entries workers ->
  global_norm Inf workers = Ok (Linf_norm (all_grads workers)).
Proof.
  intros Hall. unfold global_norm.
  rewrite (mapM_ext_in _ (fun pg => Ok (Linf_norm (rank_grads pg)))).
  2:{ intros pg Hpg. apply local_norm_Inf. rewrite Forall_forall in Hall. now apply Hall. }
  rewrite mapM_Ok. simpl.
  rewrite allReduce_max_nonneg.
  - unfold all_grads. now rewrite Linf_norm_flat_map.
  - apply Forall_map_nonneg. intros pg. apply Linf_norm_nonneg.
Qed.

Lemma global_norm_Lp (p : R) (workers : list (list ParamGroup)) :
  p <> 0 ->
  global_norm (Lp p) workers = Ok (Lp_norm p (all_grads workers)).
Proof.
  intros Hp. unfold global_norm.
  rewrite (mapM_ext_in _ (fun pg => Ok (Rsum (map (fun x => rpow (Rabs x) p) (rank_grads pg))))).
  2:{ intros pg _. now apply local_norm_Lp. }
  rewrite mapM_Ok. simpl.
  destruct (Req_dec_T p 0) as [E|_]; [contradiction|].
  unfold nccl_allReduce_sum, Lp_norm, all_grads.
  rewrite fold_left_Rplus, Rplus_0_l.
  now rewrite map_flat_map, Rsum_flat_map.
Qed.

Lemma Lp_norm_2 (v : list R) : Lp_norm 2 v = L2_norm v.
Proof.
  unfold Lp_norm, L2_norm.
  rewrite rpow_half by apply Rsum_rpow_nonneg.
  f_equal. f_equal. apply map_ext. intros x. apply rpow_2.
Qed.

(** C1: on ranks that each hold at least one gradient, the norm that
    [clip_grad_norm] aggregates is the norm of the vector of all entries of
    all ranks.  For ['inf'] it is the largest absolute entry over all ranks;
    for a number [0 < p] it is the p-th root of the sum over the ranks of
    the per-rank sums of the p-th powers of the per-tensor norms, which is
    the p-norm of all entries; for [p = 2] it is the square root of the sum
    of the squares of all entries. *)
Theorem clip_grad_norm_global_norm (workers : list (list ParamGroup)) :
  workers <> [] ->
  Forall has_entries workers ->
  global_norm Inf workers = Ok (Linf_norm (all_grads workers)) /\
  ((exists x, In x (all_grads workers) /\ Linf_norm (all_grads workers) = Rabs x) /\
   (forall x, In x (all_grads workers) -> Rabs x <= Linf_norm (all_grads workers))) /\
  (forall p, 0 < p ->
     global_norm (Lp p) workers
     = Ok (rpow (Rsum (map (fun pg =>
                              Rsum (map (fun q => rpow (tensor_norm (grad_data q) p) p)
                                        (parameters pg)))
                           workers))
                (1 / p)) /\
     global_norm (Lp p) workers = Ok (Lp_norm p (all_grads workers))) /\
  global_norm (Lp 2) workers
  = Ok (sqrt (Rsum (map (fun x => x * x) (all_grads workers)))).
Proof.
  intros Hne Hall. split; [|split; [|split]].
  - now apply global_norm_Inf.
  - apply Linf_norm_max.
    destruct workers as [|pg rest]; [contradiction|].
    inversion Hall as [|? ? [Hps Hgs] _]; subst.
    unfold all_grads, rank_grads. simpl.
    destruct (parameters pg) as [|q ps]; [contradiction|].
    inversion Hgs as [|? ? Hq _]; subst. simpl.
    destruct (grad_data q); [contradiction | discriminate].
  - intros p Hp.
    assert (Hp0 : p <> 0) by lra.
    split; [|now apply global_norm_Lp].
    rewrite global_norm_Lp by assumption.
    unfold Lp_norm, all_grads, rank_grads. do 2 f_equal.
    rewrite map_flat_map, Rsum_flat_map. f_equal.
    apply map_ext. intros pg.
    rewrite map_flat_map, Rsum_flat_map. f_equal.
    apply map_ext. intros q. unfold tensor_norm. symmetry.
    apply rpow_root; [apply Rsum_rpow_nonneg | assumption].
  - rewrite global_norm_Lp by lra. now rewrite Lp_norm_2.
Qed.

Lemma clip_grad_norm_global_norm_witness :
  global_norm Inf two_workers = Ok (Linf_norm (all_grads two_workers)) /\
  ((exists x, In x (all_grads two_workers) /\ Linf_norm (all_grads two_workers) = Rabs x) /\
   (forall x, In x (all_grads two_workers) -> Rabs x <= Linf_norm (all_grads two_workers))) /\
  (forall p, 0 < p ->
     global_norm (Lp p) two_workers
     = Ok (rpow (Rsum (map (fun pg =>
                              Rsum (map (fun q => rpow (tensor_norm (grad_data q) p) p)
                                        (parameters pg)))
                           two_workers))
                (1 / p)) /\
     global_norm (Lp p) two_workers = Ok (Lp_norm p (all_grads two_workers))) /\
  global_norm (Lp 2) two_workers
  = Ok (sqrt (Rsum (map (fun x => x * x) (all_grads two_workers)))).
Proof.
  apply (clip_grad_norm_global_norm two_workers).
  - discriminate.
  - repeat constructor; simpl; discriminate.
Defined.

(** *** The rescaling *)

Lemma global_norm_runs (nt : norm_type) (workers : list (list ParamGroup)) :
  can_run nt workers ->
  exists total, global_norm nt workers = Ok total /\ 0 <= total.
Proof.
  destruct nt as [|p]; simpl; intros H.
  - exists (Linf_norm (all_grads workers)). split.
    + now apply global_norm_Inf.
    + apply Linf_norm_nonneg.
  - exists (Lp_norm p (all_grads workers)). split.
    + now apply global_norm_Lp.
    + apply rpow_nonneg.
Qed.

Lemma map_mul_1 (g : list R) : map (fun x => x * 1) g = g.
Proof.
  induction g as [|x g IH]; simpl; [reflexivity|].
  now rewrite IH, Rmult_1_r.
Qed.

Lemma grad_scaled_mul (k : R) (q : param) : grad_scaled k q (mul_param k q).
Proof.
  unfold grad_scaled, mul_param.
  destruct (grad q) as [g|] eqn:E; simpl.
  - split; reflexivity.
  - rewrite E. split; [reflexivity | exact I].
Qed.

Lemma grad_scaled_1 (q : param) : grad_scaled 1 q q.
Proof.
  unfold grad_scaled. split; [reflexivity|].
  destruct (grad q); [now rewrite map_mul_1 | exact I].
Qed.

Lemma groups_scaled_mul (k : R) (pg : list ParamGroup) :
  groups_scaled k pg (mul_grads k pg).
Proof.
  unfold groups_scaled, mul_grads.
  induction pg as [|g pg IH]; simpl; constructor; [|exact IH].
  simpl. induction (params g) as [|q qs IHq]; simpl; constructor;
    [apply grad_scaled_mul | exact IHq].
Qed.

Lemma groups_scaled_1 (pg : list ParamGroup) : groups_scaled 1 pg pg.
Proof.
  unfold groups_scaled.
  induction pg as [|g pg IH]; constructor; [|exact IH].
  induction (params g) as [|q qs IHq]; constructor;
    [apply grad_scaled_1 | exact IHq].
Qed.

Lemma Forall2_map_r {A B : Type} (P : A -> B -> Prop) (f : A -> B) (l : list A) :
  (forall a, P a (f a)) -> Forall2 P l (map f l).
Proof. intros H. induction l; simpl; constructor; auto. Qed.

(** C2: with [c = max_norm * scale / (total_norm + eps)] and [0 < eps], the
    call leaves on every rank the same groups and parameters, every
    gradient multiplied by [min(1, c)] and the parameters without a gradient
    as they were: by [c] itself when [c < 1], and nothing is changed when
    [1 <= c]. *)
Theorem clip_grad_norm_scales_every_gradient
        (workers : list (list ParamGroup)) (max_norm scale : R)
        (nt : norm_type) (eps : R) :
  can_run nt workers -> 0 < eps ->
  exists total out,
    global_norm nt workers = Ok total /\
    0 < total + eps /\
    clip_grad_norm workers max_norm scale nt eps = Ok out /\
    let c := (max_norm * scale) / (total + eps) in
    Forall2 (fun pg o => groups_scaled (Rmin 1 c) pg (fst o)) workers out /\
    (c < 1 -> Forall2 (fun pg o => groups_scaled c pg (fst o)) workers out) /\
    (1 <= c -> map fst out = workers).
Proof.
  intros Hrun He.
  destruct (global_norm_runs nt workers Hrun) as [total [Htotal Hpos]].
  exists total, (map (clip_rank max_norm scale eps total) workers).
  split; [exact Htotal|]. split; [lra|]. split.
  { unfold clip_grad_norm. now rewrite Htotal. }
  intros c. unfold clip_rank, clip_coef. fold c.
  destruct (Rlt_dec c 1) as [Hlt|Hge].
  - split; [|split].
    + apply Forall2_map_r. intros pg. simpl.
      rewrite Rmin_right by lra. apply groups_scaled_mul.
    + intros _. apply Forall2_map_r. intros pg. simpl. apply groups_scaled_mul.
    + intros Hc. lra.
  - split; [|split].
    + apply Forall2_map_r. intros pg. simpl.
      rewrite Rmin_left by lra. apply groups_scaled_1.
    + intros Hc. contradiction.
    + intros _. rewrite map_map. simpl. apply map_id.
Qed.

Lemma clip_grad_norm_scales_every_gradient_witness :
  exists total out,
    global_norm (Lp 2) two_workers = Ok total /\
    0 < total + eps_default /\
    clip_grad_norm two_workers 1 1 (Lp 2) eps_default = Ok out /\
    let c := (1 * 1) / (total + eps_default) in
    Forall2 (fun pg o => groups_scaled (Rmin 1 c) pg (fst o)) two_workers out /\
    (c < 1 -> Forall2 (fun pg o => groups_scaled c pg (fst o)) two_workers out) /\
    (1 <= c -> map fst out = two_workers).
Proof.
  apply (clip_grad_norm_scales_every_gradient two_workers 1 1 (Lp 2) eps_default).
  - simpl. lra.
  - unfold eps_default. lra.
Defined.

(** *** The scenario with two ranks *)

Lemma two_workers_norm : global_norm (Lp 2) two_workers = Ok 5.
Proof.
  rewrite global_norm_Lp by lra. rewrite Lp_norm_2. f_equal.
  unfold L2_norm, all_grads, rank_grads, two_workers, rank_with, Rsum. simpl.
  apply sqrt_lem_1; lra.
Qed.

(** The coefficient of the scenario with the default [eps]. *)
Lemma two_workers_coef : clip_coef 1 1 eps_default 5 = 1000000 / 5000001.
Proof. unfold clip_coef, eps_default. field. Qed.

Lemma two_workers_clipped :
  clip_grad_norm two_workers 1 1 (Lp 2) eps_default
  = Ok [ (rank_with [3000000 / 5000001; 4000000 / 5000001], 5);
         (rank_with [0; 0], 5) ].
Proof.
  unfold clip_grad_norm. rewrite two_workers_norm. simpl.
  unfold clip_rank. rewrite two_workers_coef.
  clips.
  unfold_update.
  replace (3 * (1000000 / 5000001)) with (3000000 / 5000001) by lra.
  replace (4 * (1000000 / 5000001)) with (4000000 / 5000001) by lra.
  replace (0 * (1000000 / 5000001)) with 0 by lra.
  replace (5 / 1) with 5 by lra.
  reflexivity.
Qed.

(** Without [eps] the scenario gives the round numbers. *)
Lemma two_workers_clipped_eps0 :
  clip_grad_norm two_workers 1 1 (Lp 2) 0
  = Ok [ (rank_with [6 / 10; 8 / 10], 5); (rank_with [0; 0], 5) ].
Proof.
  unfold clip_grad_norm. rewrite two_workers_norm. simpl.
  unfold clip_rank.
  assert (Hc : clip_coef 1 1 0 5 = 2 / 10) by (unfold clip_coef; field).
  rewrite Hc.
  clips.
  unfold_update.
  replace (3 * (2 / 10)) with (6 / 10) by lra.
  replace (4 * (2 / 10)) with (8 / 10) by lra.
  replace (0 * (2 / 10)) with 0 by lra.
  replace (5 / 1) with 5 by lra.
  reflexivity.
Qed.

(** C3, as the code has it: the norm is 5, the coefficient is
    [1 / (5 + eps)], which is [1000000/5000001] for the default [eps] and
    within [1e-7] of 0.2; the gradient of rank 0 becomes
    [[3000000/5000001, 4000000/5000001]], within [2e-7] of [[0.6, 0.8]], the
    gradient of rank 1 stays [[0, 0]], and both ranks return 5.  With
    [eps = 0] the coefficient is 0.2 and the gradient of rank 0 becomes
    [[0.6, 0.8]]. *)
Theorem clip_grad_norm_two_workers :
  global_norm (Lp 2) two_workers = Ok 5 /\
  clip_coef 1 1 eps_default 5 = 1000000 / 5000001 /\
  clip_grad_norm two_workers 1 1 (Lp 2) eps_default
  = Ok [ (rank_with [3000000 / 5000001; 4000000 / 5000001], 5);
         (rank_with [0; 0], 5) ] /\
  Rabs (1000000 / 5000001 - 2 / 10) < 1 / 10000000 /\
  Rabs (3000000 / 5000001 - 6 / 10) < 2 / 10000000 /\
  Rabs (4000000 / 5000001 - 8 / 10) < 2 / 10000000 /\
  clip_coef 1 1 0 5 = 2 / 10 /\
  clip_grad_norm two_workers 1 1 (Lp 2) 0
  = Ok [ (rank_with [6 / 10; 8 / 10], 5); (rank_with [0; 0], 5) ].
Proof.
  split; [exact two_workers_norm|].
  split; [exact two_workers_coef|].
  split; [exact two_workers_clipped|].
  repeat split; try (apply Rabs_def1; lra).
  - unfold clip_coef. field.
  - exact two_workers_clipped_eps0.
Qed.

(** C3 as stated fails on the code: the coefficient is not 0.2 and the
    call does not leave [[0.6, 0.8]] on rank 0. *)
Lemma clip_grad_norm_two_workers_not_exact :
  clip_coef 1 1 eps_default 5 <> 2 / 10 /\
  clip_grad_norm two_workers 1 1 (Lp 2) eps_default
  <> Ok [ (rank_with [6 / 10; 8 / 10], 5); (rank_with [0; 0], 5) ].
Proof.
  split.
  - rewrite two_workers_coef. lra.
  - rewrite two_workers_clipped.
    intros E. inversion E as [[E1 E2]]. lra.
Qed.

(** *** The returned value and the decision to clip *)





Lemma one_worker_norm : global_norm (Lp 2) one_worker = Ok 1.
Proof.
  rewrite global_norm_Lp by lra. rewrite Lp_norm_2. f_equal.
  unfold L2_norm, all_grads, rank_grads, one_worker, rank_with, Rsum. simpl.
  apply sqrt_lem_1; lra.
Qed.

(** With [scale = 1] the margin is [eps]: with [max_norm = 1.0000005] the
    returned norm, 1, is below [max_norm], and the gradient is rescaled all
    the same. *)
Lemma clip_grad_norm_clips_below_max_norm :
  clip_grad_norm one_worker (2000001 / 2000000) 1 (Lp 2) eps_default
  = Ok [ (rank_with [2000001 / 2000002], 1) ] /\
  1 < 2000001 / 2000000 /\
  rank_with [2000001 / 2000002] <> rank_with [1].
Proof.
  split; [|split].
  - unfold clip_grad_norm. rewrite one_worker_norm. simpl.
    unfold clip_rank.
    assert (Hc : clip_coef (2000001 / 2000000) 1 eps_default 1 = 2000001 / 2000002).
    { unfold clip_coef, eps_default. field. }
    rewrite Hc.
    clips.
    unfold_update.
    replace (1 * (2000001 / 2000002)) with (2000001 / 2000002) by lra.
    replace (1 / 1) with 1 by lra.
    reflexivity.
  - lra.
  - unfold rank_with. intros E. inversion E as [E1]. lra.
Qed.



(** *** A second call *)

Lemma filter_map_comm {A B : Type} (f : A -> B) (p : B -> bool) (l : list A) :
  filter p (map f l) = map f (filter (fun a => p (f a)) l).
Proof.
  induction l as [|a l IH]; simpl; [reflexivity|].
  destruct (p (f a)); simpl; now rewrite IH.
Qed.

Lemma has_grad_mul_param (c : R) (q : param) : has_grad (mul_param c q) = has_grad q.
Proof. unfold has_grad, mul_param. destruct (grad q) eqn:E; simpl; now rewrite ?E. Qed.

Lemma grad_data_mul_param (c : R) (q : param) :
  grad_data (mul_param c q) = map (fun x => x * c) (grad_data q).
Proof. unfold grad_data, mul_param. destruct (grad q) eqn:E; simpl; now rewrite ?E. Qed.

Lemma parameters_mul_grads (c : R) (pg : list ParamGroup) :
  parameters (mul_grads c pg) = map (mul_param c) (parameters pg).
Proof.
  unfold parameters, mul_grads.
  induction pg as [|g pg IH]; simpl; [reflexivity|].
  rewrite IH, map_app. f_equal.
  rewrite filter_map_comm. f_equal.
  apply filter_ext. intros q. apply has_grad_mul_param.
Qed.

Lemma rank_grads_mul_grads (c : R) (pg : list ParamGroup) :
  rank_grads (mul_grads c pg) = map (fun x => x * c) (rank_grads pg).
Proof.
  unfold rank_grads. rewrite parameters_mul_grads.
  induction (parameters pg) as [|q qs IH]; simpl; [reflexivity|].
  now rewrite IH, map_app, grad_data_mul_param.
Qed.

Lemma all_grads_mul_grads (c : R) (workers : list (list ParamGroup)) :
  all_grads (map (mul_grads c) workers) = map (fun x => x * c) (all_grads workers).
Proof.
  unfold all_grads.
  induction workers as [|pg ws IH]; simpl; [reflexivity|].
  now rewrite IH, map_app, rank_grads_mul_grads.
Qed.

Lemma has_entries_mul_grads (c : R) (pg : list ParamGroup) :
  has_entries pg -> has_entries (mul_grads c pg).
Proof.
  unfold has_entries. rewrite parameters_mul_grads. intros [Hne Hall]. split.
  - destruct (parameters pg); [contradiction | discriminate].
  - apply Forall_forall. intros q' Hq'.
    apply in_map_iff in Hq'. destruct Hq' as [q [<- Hq]].
    rewrite grad_data_mul_param. rewrite Forall_forall in Hall.
    specialize (Hall q Hq). destruct (grad_data q); [contradiction | discriminate].
Qed.

Lemma can_run_mul_grads (nt : norm_type) (c : R) (workers : list (list ParamGroup)) :
  can_run nt workers -> can_run nt (map (mul_grads c) workers).
Proof.
  destruct nt as [|p]; simpl; [|tauto].
  intros H. apply Forall_forall. intros pg' Hpg'.
  apply in_map_iff in Hpg'. destruct Hpg' as [pg [<- Hpg]].
  apply has_entries_mul_grads. rewrite Forall_forall in H. now apply H.
Qed.

Lemma Rmaxl_scale (c : R) (l : list R) :
  0 <= c -> Rmaxl (map (fun x => x * c) l) = Rmaxl l * c.
Proof.
  intros Hc. induction l as [|x l IH]; simpl; [lra|].
  rewrite IH, !(Rmult_comm _ c). now apply RmaxRmult.
Qed.

Lemma Linf_norm_scale (c : R) (v : list R) :
  0 <= c -> Linf_norm (map (fun x => x * c) v) = Linf_norm v * c.
Proof.
  intros Hc. unfold Linf_norm. rewrite <- Rmaxl_scale by assumption.
  rewrite !map_map. f_equal. apply map_ext. intros x.
  rewrite Rabs_mult. f_equal. now apply Rabs_pos_eq.
Qed.

Lemma Rsum_scale (c : R) (l : list R) : Rsum (map (fun x => x * c) l) = Rsum l * c.
Proof.
  induction l as [|x l IH]; unfold Rsum in *; simpl; [lra|]. rewrite IH. lra.
Qed.

Lemma Lp_norm_scale (p c : R) (v : list R) :
  p <> 0 -> 0 <= c -> Lp_norm p (map (fun x => x * c) v) = Lp_norm p v * c.
Proof.
  intros Hp Hc. unfold Lp_norm.
  assert (Hip : 1 / p <> 0).
  { unfold Rdiv. rewrite Rmult_1_l. now apply Rinv_neq_0_compat. }
  rewrite map_map.
  rewrite (map_ext _ (fun x => rpow (Rabs x) p * rpow c p)).
  2:{ intros x. rewrite Rabs_mult, (Rabs_pos_eq c) by assumption.
      apply rpow_mult; [apply Rabs_pos | assumption | assumption]. }
  rewrite <- (map_map (fun x => rpow (Rabs x) p) (fun y => y * rpow c p)).
  rewrite Rsum_scale.
  rewrite rpow_mult; [|apply Rsum_rpow_nonneg | apply rpow_nonneg | assumption].
  now rewrite root_rpow.
Qed.

(** The aggregated norm is homogeneous: rescaling every gradient by
    [0 <= c] rescales the norm by [c]. *)
Lemma global_norm_mul_grads (nt : norm_type) (c total : R) (workers : list (list ParamGroup)) :
  can_run nt workers -> 0 <= c ->
  global_norm nt workers = Ok total ->
  global_norm nt (map (mul_grads c) workers) = Ok (total * c).
Proof.
  intros Hrun Hc Htotal.
  pose proof (can_run_mul_grads nt c workers Hrun) as Hrun'.
  destruct nt as [|p]; simpl in Hrun, Hrun'.
  - rewrite global_norm_Inf in Htotal |- * by assumption.
    inversion Htotal; subst.
    now rewrite all_grads_mul_grads, Linf_norm_scale.
  - rewrite global_norm_Lp in Htotal |- * by assumption.
    inversion Htotal; subst.
    now rewrite all_grads_mul_grads, Lp_norm_scale.
Qed.

Lemma clip_grad_norm_with (workers : list (list ParamGroup)) (max_norm scale : R)
      (nt : norm_type) (eps total : R) :
  global_norm nt workers = Ok total ->
  clip_grad_norm workers max_norm scale nt eps
  = Ok (map (clip_rank max_norm scale eps total) workers) /\
  map fst (map (clip_rank max_norm scale eps total) workers)
  = if Rlt_dec (clip_coef max_norm scale eps total) 1
    then map (mul_grads (clip_coef max_norm scale eps total)) workers
    else workers.
Proof.
  intros H. split.
  - unfold clip_grad_norm. now rewrite H.
  - rewrite map_map. unfold clip_rank. simpl.
    destruct (Rlt_dec _ 1); [reflexivity | apply map_id].
Qed.







(** *** The update in place on distinct parameter objects *)

Lemma deref_heap_update (h : list param) (i j : nat) (f : param -> param) :
  f no_param = no_param ->
  deref (heap_update h i f) j = if Nat.eqb i j then f (deref h j) else deref h j.
Proof.
  intros Hf. unfold deref. revert i j.
  induction h as [|q t IH]; intros i j; simpl.
  - destruct (Nat.eqb i j); destruct j; simpl; now rewrite ?Hf.
  - destruct i as [|i]; destruct j as [|j]; simpl; try reflexivity.
    apply IH.
Qed.

Lemma mul_param_no_param (c : R) : mul_param c no_param = no_param.
Proof. reflexivity. Qed.

Lemma mul_param_no_grad (c : R) (q : param) : has_grad q = false -> mul_param c q = q.
Proof. unfold has_grad, mul_param. destruct (grad q); [discriminate | reflexivity]. Qed.

(** After the loop over distinct references, the referenced objects are
    rescaled once and the other objects are as they were. *)
Lemma fold_heap_update_deref (c : R) (refs : list nat) (h : list param) (j : nat) :
  NoDup refs ->
  deref (fold_left (fun h i => heap_update h i (mul_param c)) refs h) j
  = if in_dec Nat.eq_dec j refs then mul_param c (deref h j) else deref h j.
Proof.
  intros Hnd. revert h. induction Hnd as [|i refs Hi Hnd IH]; intros h; simpl.
  - reflexivity.
  - rewrite IH, (deref_heap_update h i j) by apply mul_param_no_param.
    destruct (Nat.eq_dec i j) as [->|Hne].
    + rewrite Nat.eqb_refl.
      destruct (in_dec Nat.eq_dec j refs) as [Hin|_]; [contradiction | reflexivity].
    + rewrite (proj2 (Nat.eqb_neq i j) Hne).
      destruct (in_dec Nat.eq_dec j refs); reflexivity.
Qed.

Lemma in_parameter_refs (st : rank_state) (g : list nat) (j : nat) :
  In g (groups st) -> In j g -> has_grad (deref (heap st) j) = true ->
  In j (parameter_refs st).
Proof.
  intros Hg Hj Hgrad. unfold parameter_refs.
  apply in_flat_map. exists g. split; [assumption|].
  apply filter_In. now split.
Qed.

(** On a rank that holds every parameter object once, the loop in place is
    [mul_grads] on the groups. *)
Lemma mul_in_place_read (c : R) (st : rank_state) :
  NoDup (parameter_refs st) ->
  read (mul_in_place c st) = mul_grads c (read st).
Proof.
  intros Hnd. unfold read, mul_in_place, mul_grads. simpl.
  rewrite map_map. apply map_ext_in. intros g Hg. simpl. f_equal.
  rewrite map_map. apply map_ext_in. intros j Hj.
  rewrite fold_heap_update_deref by assumption.
  destruct (in_dec Nat.eq_dec j (parameter_refs st)) as [_|Hout]; [reflexivity|].
  symmetry. apply mul_param_no_grad.
  destruct (has_grad (deref (heap st) j)) eqn:E; [|reflexivity].
  elim Hout. now apply (in_parameter_refs st g j).
Qed.

(** What [clip_grad_norm] iterates over is the list of the referenced
    objects. *)
Lemma parameters_read (st : rank_state) :
  parameters (read st) = map (deref (heap st)) (parameter_refs st).
Proof.
  unfold parameters, read, parameter_refs.
  induction (groups st) as [|g gs IH]; simpl; [reflexivity|].
  rewrite IH, map_app. f_equal.
  now rewrite filter_map_comm.
Qed.

(** A parameter object that a group lists twice is rescaled twice. *)
Example mul_in_place_aliased :
  map grad (heap (mul_in_place (1 / 2) aliased_rank)) = [Some [1 * (1 / 2) * (1 / 2)]].
Proof. reflexivity. Qed.

End ClipGradNorm.

(* ================================================================= *)
(** ** [Embedding] *)

(** C10: [forward] returns the lookup [OpEmbedding(ids, weight)], divided
    by [sqrt(dim_model)] when [length_scale] is set and as it is
    otherwise; [projection] returns the linear map of the transposed input
    against the same [weight], the input divided by [sqrt(dim_model)]
    beforehand when [length_scale] is set and as it is otherwise; the
    module, its weight included, is the same after either call. *)
Theorem Embedding_forward_projection {I T : Type} `{Kernels I T}
        (dim : Z) (w : T) (i8 : bool) (ids : I) (x : T) :
  let scaled := {| dim_model := dim; weight := w; length_scale := true; int8 := i8 |} in
  let plain := {| dim_model := dim; weight := w; length_scale := false; int8 := i8 |} in
  forward scaled ids = (tensor_div (OpEmbedding_apply ids w) (sqrt (IZR dim)), scaled) /\
  forward plain ids = (OpEmbedding_apply ids w, plain) /\
  projection (I := I) scaled x
  = (F_linear (ct_transpose (tensor_div x (sqrt (IZR dim)))) w, scaled) /\
  projection (I := I) plain x = (F_linear (ct_transpose x) w, plain) /\
  weight (snd (forward scaled ids)) = w /\
  weight (snd (forward plain ids)) = w /\
  weight (snd (projection (I := I) scaled x)) = w /\
  weight (snd (projection (I := I) plain x)) = w.
Proof.
  intros scaled plain. unfold forward, projection, math_sqrt.
  repeat split.
Qed.

(* ================================================================= *)
(** * Further properties of the drivers *)

(** ** [make_input]: outcomes and invariants *)

Lemma to_int32_range (z : Z) : fits_int32 (to_int32 z).
Proof.
  unfold fits_int32, to_int32.
  pose proof (Z.mod_pos_bound (z + 2 ^ 31) (2 ^ 32) ltac:(lia)). lia.
Qed.

Lemma Forall_map_to_int32 (l : list Z) : Forall fits_int32 (map to_int32 l).
Proof.
  apply Forall_forall. intros y Hy.
  apply in_map_iff in Hy. destruct Hy as [z [<- _]]. apply to_int32_range.
Qed.

Lemma torch_tensor_cases (l : list Z) :
  (Forall fits_int64 l /\ torch_tensor l = Ok l) \/
  (~ Forall fits_int64 l /\ torch_tensor l = Raise RuntimeError).
Proof.
  unfold torch_tensor. destruct (forallb fits_int64b l) eqn:E.
  - left. split; [|reflexivity].
    apply Forall_forall. intros z Hz. apply fits_int64b_spec.
    rewrite forallb_forall in E. now apply E.
  - right. split; [|reflexivity]. intros H.
    assert (forallb fits_int64b l = true); [|congruence].
    apply forallb_forall. intros z Hz. apply fits_int64b_spec.
    rewrite Forall_forall in H. now apply H.
Qed.

Lemma len_zeros_range_max (n : Z) : len (zeros_range n) = Z.max 0 n.
Proof. unfold len, zeros_range. rewrite repeat_length. lia. Qed.

Lemma len_input_max (lef rig : list Z) (spans : Z) :
  len (lef ++ zeros_range spans ++ rig) = len lef + Z.max 0 spans + len rig.
Proof. rewrite !len_app, len_zeros_range_max. lia. Qed.

Lemma Forall_input_fits (lef rig : list Z) (spans : Z) :
  Forall fits_int64 (lef ++ zeros_range spans ++ rig) <-> Forall fits_int64 (lef ++ rig).
Proof.
  rewrite !Forall_app. split.
  - intros [Hl [_ Hr]]. now split.
  - intros [Hl Hr]. repeat split; try assumption.
    apply Forall_fits_repeat0. unfold fits_int64. lia.
Qed.

(** What [make_input] returns when it returns, for any arguments. *)
Lemma make_input_value (lef rig : list Z) (spans max_length : Z) :
  let input := lef ++ zeros_range spans ++ rig in
  len input < max_length -> Forall fits_int64 (lef ++ rig) -> len input < 2 ^ 31 ->
  make_input lef rig spans max_length =
  Ok {| input_tokens := map to_int32 input ++ repeat 0 (Z.to_nat (max_length - len input));
        input_length := len input;
        context := map (fun c => (c <? len lef) || (c >=? len lef + spans))
                       (np_arange max_length);
        input_span := repeat 0 (Z.to_nat max_length) |}.
Proof.
  intros input Hlt Hfit H31.
  pose proof (len_nonneg input) as H0.
  unfold make_input. fold input.
  destruct (len input <? max_length) eqn:E; [simpl | lia].
  rewrite torch_zeros_ok by lia. simpl.
  rewrite torch_tensor_ok
    by (apply (proj2 (Forall_input_fits lef rig spans)); exact Hfit).
  simpl.
  rewrite assign_prefix_ok.
  2:{ unfold len. now rewrite length_map. }
  2:{ rewrite repeat_length, length_map. unfold len in *. lia. }
  simpl. unfold torch_tensor_int32.
  replace (fits_int32b (len input)) with true.
  2:{ symmetry. apply fits_int32b_spec. unfold fits_int32. lia. }
  simpl. do 3 f_equal.
  rewrite skipn_repeat, length_map. f_equal. unfold len. lia.
Qed.

(** X1: the three outcomes of [make_input], for any arguments.  With
    [n = len(lef_tokens) + max(0, spans) + len(rig_tokens)] the length of the
    packed list: the call raises [AssertionError] exactly when
    [max_length <= n]; it returns exactly when [n < max_length], every token
    fits int64 and [n < 2^31]; and in the remaining case torch raises
    [RuntimeError]. *)
Theorem make_input_outcomes (lef_tokens rig_tokens : list Z) (spans max_length : Z) :
  let n := len lef_tokens + Z.max 0 spans + len rig_tokens in
  let storable := Forall fits_int64 (lef_tokens ++ rig_tokens) /\ n < 2 ^ 31 in
  (make_input lef_tokens rig_tokens spans max_length = Raise AssertionError
   <-> max_length <= n) /\
  (succeeds (make_input lef_tokens rig_tokens spans max_length)
   <-> n < max_length /\ storable) /\
  (make_input lef_tokens rig_tokens spans max_length = Raise RuntimeError
   <-> n < max_length /\ ~ storable).
Proof.
  intros n storable.
  assert (Hn : len (lef_tokens ++ zeros_range spans ++ rig_tokens) = n)
    by apply len_input_max.
  assert (Hn0 : 0 <= n).
  { pose proof (len_nonneg lef_tokens). pose proof (len_nonneg rig_tokens).
    unfold n. lia. }
  destruct (Z_lt_ge_dec n max_length) as [Hlt|Hge].
  - (* the assertion holds *)
    assert (Hcases :
              (storable /\ succeeds (make_input lef_tokens rig_tokens spans max_length)) \/
              (~ storable /\
               make_input lef_tokens rig_tokens spans max_length = Raise RuntimeError)).
    { destruct (torch_tensor_cases (lef_tokens ++ zeros_range spans ++ rig_tokens))
        as [[Hfit Ht]|[Hfit Ht]].
      - destruct (Z_lt_ge_dec n (2 ^ 31)) as [H31|H31].
        + assert (Hfit' : Forall fits_int64 (lef_tokens ++ rig_tokens))
            by (apply (proj1 (Forall_input_fits lef_tokens rig_tokens spans)); exact Hfit).
          left. split; [split; assumption|].
          eexists. apply make_input_value; rewrite ?Hn; assumption.
        + right. split; [intros [_ H]; lia|].
          unfold make_input. rewrite Hn.
          destruct (n <? max_length) eqn:E; [simpl | lia].
          rewrite torch_zeros_ok by lia. simpl. rewrite Ht. simpl.
          rewrite assign_prefix_ok.
          2:{ unfold len. rewrite length_map. exact (eq_sym Hn). }
          2:{ rewrite repeat_length, length_map. unfold len in Hn. lia. }
          simpl. unfold torch_tensor_int32.
          destruct (fits_int32b n) eqn:E32; [|reflexivity].
          apply fits_int32b_spec in E32. unfold fits_int32 in E32. lia.
      - right. split.
        { intros [H _]. apply Hfit.
          apply (proj2 (Forall_input_fits lef_tokens rig_tokens spans)); exact H. }
        unfold make_input. rewrite Hn.
        destruct (n <? max_length) eqn:E; [simpl | lia].
        rewrite torch_zeros_ok by lia. simpl. now rewrite Ht. }
    split; [|split].
    + split; [|lia]. intros Hraise. destruct Hcases as [[_ [p Hp]]|[_ Hr]]; congruence.
    + split.
      * intros [p Hp]. split; [assumption|].
        destruct Hcases as [[Hs _]|[_ Hr]]; [assumption | congruence].
      * intros [_ Hs]. destruct Hcases as [[_ Hok]|[Hns _]]; [assumption | contradiction].
    + split.
      * intros Hr. split; [assumption|].
        destruct Hcases as [[_ [p Hp]]|[Hns _]]; [congruence | assumption].
      * intros [_ Hns]. destruct Hcases as [[Hs _]|[_ Hr]]; [contradiction | assumption].
  - (* the assertion fails *)
    assert (Hraise : make_input lef_tokens rig_tokens spans max_length = Raise AssertionError).
    { unfold make_input. rewrite Hn.
      destruct (n <? max_length) eqn:E; [lia | reflexivity]. }
    split; [|split].
    + split; [lia | intros _; exact Hraise].
    + split; [intros [p Hp]; congruence | intros [H _]; lia].
    + split; [intros Hr; congruence | intros [H _]; lia].
Qed.

(** A call that returns passed the assertion and the conversions. *)
Lemma make_input_returned (lef rig : list Z) (spans max_length : Z) (p : packed_input) :
  make_input lef rig spans max_length = Ok p ->
  let input := lef ++ zeros_range spans ++ rig in
  len input < max_length /\ Forall fits_int64 (lef ++ rig) /\ len input < 2 ^ 31.
Proof.
  intros Hp input. unfold make_input in Hp. fold input in Hp.
  destruct (len input <? max_length) eqn:E; simpl in Hp; [|discriminate].
  apply Z.ltb_lt in E.
  pose proof (len_nonneg input) as H0.
  rewrite torch_zeros_ok in Hp by lia. simpl in Hp.
  destruct (torch_tensor_cases input) as [[Hfit Ht]|[_ Ht]];
    rewrite Ht in Hp; simpl in Hp; [|discriminate].
  rewrite assign_prefix_ok in Hp.
  2:{ unfold len. now rewrite length_map. }
  2:{ rewrite repeat_length, length_map. unfold len in *. lia. }
  simpl in Hp. unfold torch_tensor_int32 in Hp.
  destruct (fits_int32b (len input)) eqn:E32; simpl in Hp; [|discriminate].
  apply fits_int32b_spec in E32. unfold fits_int32 in E32.
  repeat split; [assumption | | lia].
  apply (proj1 (Forall_input_fits lef rig spans)); exact Hfit.
Qed.

Lemma make_input_returned_value (lef rig : list Z) (spans max_length : Z) (p : packed_input) :
  make_input lef rig spans max_length = Ok p ->
  let input := lef ++ zeros_range spans ++ rig in
  p = {| input_tokens := map to_int32 input ++ repeat 0 (Z.to_nat (max_length - len input));
         input_length := len input;
         context := map (fun c => (c <? len lef) || (c >=? len lef + spans))
                        (np_arange max_length);
         input_span := repeat 0 (Z.to_nat max_length) |}.
Proof.
  intros Hp input.
  destruct (make_input_returned lef rig spans max_length p Hp) as [Hlt [Hfit H31]].
  pose proof (make_input_value lef rig spans max_length Hlt Hfit H31) as Hv.
  rewrite Hp in Hv. now inversion Hv.
Qed.

Lemma nth_app_repeat0 (l : list Z) (k i : nat) (d : Z) :
  (List.length l <= i < List.length l + k)%nat -> nth i (l ++ repeat 0 k) d = 0.
Proof.
  intros H. rewrite app_nth2 by lia.
  apply nth_repeat_lt. lia.
Qed.

(** X2: what every returned value of [make_input] satisfies, whatever the
    arguments: the three tensors have width [max_length]; the span tensor is
    zero; the length field is the length of the packed list and is below
    [max_length]; every token entry fits int32, the first [input_length]
    entries being the packed list cast to int32 and the others zero; so the
    last position is always padding, and the mask is true there. *)
Theorem make_input_invariants (lef_tokens rig_tokens : list Z) (spans max_length : Z)
        (p : packed_input) :
  make_input lef_tokens rig_tokens spans max_length = Ok p ->
  len (input_tokens p) = max_length /\
  len (context p) = max_length /\
  input_span p = repeat 0 (Z.to_nat max_length) /\
  input_length p = len lef_tokens + Z.max 0 spans + len rig_tokens /\
  0 <= input_length p < max_length /\
  Forall fits_int32 (input_tokens p) /\
  firstn (Z.to_nat (input_length p)) (input_tokens p)
  = map to_int32 (lef_tokens ++ zeros_range spans ++ rig_tokens) /\
  (forall i, input_length p <= i < max_length -> nth (Z.to_nat i) (input_tokens p) 1 = 0) /\
  nth (Z.to_nat (max_length - 1)) (input_tokens p) 1 = 0 /\
  nth (Z.to_nat (max_length - 1)) (context p) false = true.
Proof.
  intros Hp.
  destruct (make_input_returned _ _ _ _ _ Hp) as [Hlt [Hfit H31]].
  rewrite (make_input_returned_value _ _ _ _ _ Hp). clear Hp.
  cbn [input_tokens input_length context input_span].
  set (input := lef_tokens ++ zeros_range spans ++ rig_tokens) in *.
  pose proof (len_nonneg input) as H0.
  pose proof (len_nonneg lef_tokens) as Hl0.
  pose proof (len_nonneg rig_tokens) as Hr0.
  assert (Hn : len input = len lef_tokens + Z.max 0 spans + len rig_tokens)
    by apply len_input_max.
  assert (Hmap : List.length (map to_int32 input) = Z.to_nat (len input)).
  { rewrite length_map. unfold len. now rewrite Nat2Z.id. }
  assert (Hpad : forall i, len input <= i < max_length ->
                           nth (Z.to_nat i)
                               (map to_int32 input
                                    ++ repeat 0 (Z.to_nat (max_length - len input))) 1 = 0).
  { intros i Hi. apply nth_app_repeat0. rewrite Hmap. lia. }
  repeat split.
  - unfold len at 1. rewrite length_app, repeat_length, Hmap. lia.
  - unfold len at 1. rewrite length_map, length_np_arange. lia.
  - exact Hn.
  - lia.
  - lia.
  - apply Forall_app. split; [apply Forall_map_to_int32|].
    apply Forall_fits_repeat0. unfold fits_int32. lia.
  - rewrite <- Hmap, firstn_app, Nat.sub_diag, firstn_all. simpl. apply app_nil_r.
  - exact Hpad.
  - apply Hpad. lia.
  - rewrite nth_map_in with (d' := 0) by (rewrite length_np_arange; lia).
    rewrite nth_np_arange by lia. rewrite Z2Nat.id by lia.
    apply orb_true_iff. right. apply Z.geb_le. lia.
Qed.

Lemma make_input_invariants_witness :
  exists p,
    make_input [5; 6] [7] 2 8 = Ok p /\
    len (input_tokens p) = 8 /\
    len (context p) = 8 /\
    input_span p = repeat 0 (Z.to_nat 8) /\
    input_length p = len [5; 6] + Z.max 0 2 + len [7] /\
    0 <= input_length p < 8 /\
    Forall fits_int32 (input_tokens p) /\
    firstn (Z.to_nat (input_length p)) (input_tokens p)
    = map to_int32 ([5; 6] ++ zeros_range 2 ++ [7]) /\
    (forall i, input_length p <= i < 8 -> nth (Z.to_nat i) (input_tokens p) 1 = 0) /\
    nth (Z.to_nat (8 - 1)) (input_tokens p) 1 = 0 /\
    nth (Z.to_nat (8 - 1)) (context p) false = true.
Proof.
  eexists. split; [reflexivity|].
  apply (make_input_invariants [5; 6] [7] 2 8). reflexivity.
Defined.

Lemma map_seq_const {B : Type} (f : Z -> B) (b : B) (a n : nat) :
  (forall i, (a <= i < a + n)%nat -> f (Z.of_nat i) = b) ->
  map f (map Z.of_nat (seq a n)) = repeat b n.
Proof.
  revert a. induction n as [|n IH]; intros a H; simpl; [reflexivity|].
  rewrite H by lia. f_equal. apply IH. intros i Hi. apply H. lia.
Qed.

(** The mask as three runs, for a span count that fits. *)
Lemma context_runs (a s : nat) (spans max_length : Z) :
  spans = Z.of_nat s -> (a + s <= Z.to_nat max_length)%nat ->
  map (fun c => (c <? Z.of_nat a) || (c >=? Z.of_nat a + spans)) (np_arange max_length)
  = repeat true a ++ repeat false s ++ repeat true (Z.to_nat max_length - a - s).
Proof.
  intros -> Hle. unfold np_arange.
  replace (Z.to_nat max_length) with (a + (s + (Z.to_nat max_length - a - s)))%nat at 1 by lia.
  rewrite !seq_app, !map_app. f_equal; [|f_equal].
  - apply map_seq_const. intros i Hi.
    destruct (Z.of_nat i <? Z.of_nat a) eqn:E; [reflexivity | lia].
  - apply map_seq_const. intros i Hi.
    destruct (Z.of_nat i <? Z.of_nat a) eqn:E1; [lia|].
    destruct (Z.of_nat i >=? Z.of_nat a + Z.of_nat s) eqn:E2; [lia | reflexivity].
  - apply map_seq_const. intros i Hi.
    destruct (Z.of_nat i >=? Z.of_nat a + Z.of_nat s) eqn:E2;
      [apply orb_true_r | lia].
Qed.

Lemma filter_negb_runs (a s r : nat) :
  filter negb (repeat true a ++ repeat false s ++ repeat true r) = repeat false s.
Proof.
  rewrite !filter_app.
  assert (Ht : forall k, filter negb (repeat true k) = []).
  { induction k; simpl; auto. }
  assert (Hf : forall k, filter negb (repeat false k) = repeat false k).
  { induction k; simpl; [reflexivity | now f_equal]. }
  rewrite !Ht, Hf. simpl. apply app_nil_r.
Qed.

(** X3: with [spans <= 0] no slot is reserved: the packed list is the left
    tokens followed by the right tokens, and the mask is true at every
    position, also for a negative [spans]. *)
Theorem make_input_no_span (lef_tokens rig_tokens : list Z) (spans max_length : Z) :
  spans <= 0 ->
  Forall fits_int32 lef_tokens -> Forall fits_int32 rig_tokens ->
  len lef_tokens + len rig_tokens < max_length -> max_length <= 2 ^ 31 ->
  make_input lef_tokens rig_tokens spans max_length =
  Ok {| input_tokens :=
          lef_tokens ++ rig_tokens
          ++ repeat 0 (Z.to_nat (max_length - (len lef_tokens + len rig_tokens)));
        input_length := len lef_tokens + len rig_tokens;
        context := repeat true (Z.to_nat max_length);
        input_span := repeat 0 (Z.to_nat max_length) |}.
Proof.
  intros Hs Hl Hr Hlt Hmax.
  pose proof (len_nonneg lef_tokens) as Hl0.
  pose proof (len_nonneg rig_tokens) as Hr0.
  assert (Hz : zeros_range spans = []).
  { unfold zeros_range. replace (Z.to_nat spans) with 0%nat by lia. reflexivity. }
  assert (Hn : len (lef_tokens ++ zeros_range spans ++ rig_tokens)
               = len lef_tokens + len rig_tokens).
  { rewrite Hz. simpl. apply len_app. }
  rewrite make_input_value.
  - rewrite Hn, Hz. simpl app.
    rewrite map_to_int32_fits by (apply Forall_app; now split).
    rewrite <- app_assoc. do 2 f_equal.
    unfold np_arange. apply map_seq_const. intros i Hi.
    destruct (Z.of_nat i <? len lef_tokens) eqn:E1; [reflexivity|].
    destruct (Z.of_nat i >=? len lef_tokens + spans) eqn:E2; [reflexivity | lia].
  - lia.
  - apply Forall_app. split; (eapply Forall_impl; [apply fits_int32_int64 | assumption]).
  - lia.
Qed.

Lemma make_input_no_span_witness :
  make_input [5; 6] [7] (-3) 8 =
  Ok {| input_tokens := [5; 6] ++ [7] ++ repeat 0 (Z.to_nat (8 - (len [5; 6] + len [7])));
        input_length := len [5; 6] + len [7];
        context := repeat true (Z.to_nat 8);
        input_span := repeat 0 (Z.to_nat 8) |}.
Proof.
  apply (make_input_no_span [5; 6] [7] (-3) 8).
  - lia.
  - repeat constructor; unfold fits_int32; lia.
  - repeat constructor; unfold fits_int32; lia.
  - vm_compute. reflexivity.
  - lia.
Defined.

(** X4: for a span count [0 <= spans], the mask of a returned value is a
    run of [len(lef_tokens)] trues, [spans] falses, then trues: exactly
    [spans] positions are masked, and the token tensor holds a zero at each
    of them. *)
Theorem make_input_masked_slots (lef_tokens rig_tokens : list Z) (spans max_length : Z)
        (p : packed_input) :
  0 <= spans ->
  make_input lef_tokens rig_tokens spans max_length = Ok p ->
  context p
  = repeat true (List.length lef_tokens) ++ repeat false (Z.to_nat spans)
    ++ repeat true (Z.to_nat max_length - List.length lef_tokens - Z.to_nat spans) /\
  len (filter negb (context p)) = spans /\
  forall i, (i < Z.to_nat max_length)%nat ->
            nth i (context p) true = false -> nth i (input_tokens p) 1 = 0.
Proof.
  intros Hs Hp.
  destruct (make_input_returned _ _ _ _ _ Hp) as [Hlt [Hfit H31]].
  rewrite (make_input_returned_value _ _ _ _ _ Hp). clear Hp.
  cbn [input_tokens context].
  rewrite len_input in Hlt by assumption.
  pose proof (len_nonneg rig_tokens) as Hr0.
  assert (Hruns :
            map (fun c => (c <? len lef_tokens) || (c >=? len lef_tokens + spans))
                (np_arange max_length)
            = repeat true (List.length lef_tokens) ++ repeat false (Z.to_nat spans)
              ++ repeat true (Z.to_nat max_length - List.length lef_tokens - Z.to_nat spans)).
  { apply context_runs; unfold len in *; lia. }
  rewrite Hruns. split; [reflexivity|]. split.
  - rewrite filter_negb_runs. unfold len. rewrite repeat_length. lia.
  - intros i Hi Hfalse.
    assert (Hin : (List.length lef_tokens <= i < List.length lef_tokens + Z.to_nat spans)%nat).
    { destruct (Nat.lt_ge_cases i (List.length lef_tokens)) as [H1|H1].
      - rewrite app_nth1 in Hfalse by (rewrite repeat_length; lia).
        rewrite nth_repeat_lt in Hfalse by lia. discriminate.
      - split; [assumption|].
        destruct (Nat.lt_ge_cases i (List.length lef_tokens + Z.to_nat spans)) as [H2|H2];
          [assumption|].
        rewrite app_nth2 in Hfalse by (rewrite repeat_length; lia).
        rewrite app_nth2 in Hfalse by (rewrite !repeat_length; lia).
        rewrite !repeat_length in Hfalse.
        destruct (Nat.lt_ge_cases (i - List.length lef_tokens - Z.to_nat spans)
                                  (Z.to_nat max_length - List.length lef_tokens
                                   - Z.to_nat spans)) as [H3|H3].
        + rewrite nth_repeat_lt in Hfalse by lia. discriminate.
        + rewrite nth_overflow in Hfalse by (rewrite repeat_length; lia). discriminate. }
    rewrite app_nth1.
    2:{ rewrite length_map, !length_app. unfold zeros_range. rewrite repeat_length. lia. }
    rewrite nth_map_in with (d' := 0).
    2:{ rewrite !length_app. unfold zeros_range. rewrite repeat_length. lia. }
    rewrite app_nth2 by lia. rewrite app_nth1.
    2:{ unfold zeros_range. rewrite repeat_length. lia. }
    unfold zeros_range. rewrite nth_repeat_lt by lia. reflexivity.
Qed.

Lemma make_input_masked_slots_witness :
  exists p,
    make_input [5; 6] [7] 2 8 = Ok p /\
    context p
    = repeat true (List.length [5; 6]) ++ repeat false (Z.to_nat 2)
      ++ repeat true (Z.to_nat 8 - List.length [5; 6] - Z.to_nat 2) /\
    len (filter negb (context p)) = 2 /\
    forall i, (i < Z.to_nat 8)%nat ->
              nth i (context p) true = false -> nth i (input_tokens p) 1 = 0.
Proof.
  eexists. split; [reflexivity|].
  apply (make_input_masked_slots [5; 6] [7] 2 8); [lia | reflexivity].
Defined.

(** ** [LCQMC_Dataset]: one example *)

Lemma firstn_repeat_min {A : Type} (a : A) (k n : nat) :
  firstn k (repeat a n) = repeat a (Nat.min k n).
Proof.
  revert n. induction k as [|k IH]; intros n; simpl; [reflexivity|].
  destruct n; simpl; [reflexivity | now rewrite IH].
Qed.

Lemma assign_index_zeros (n k : nat) :
  (k < n)%nat ->
  assign_index (repeat 0 n) (Z.of_nat k) 1 = Ok (repeat 0 k ++ 1 :: repeat 0 (n - k - 1)).
Proof.
  intros H. unfold assign_index. rewrite repeat_length.
  destruct ((0 <=? Z.of_nat k) && (Z.of_nat k <? Z.of_nat n)) eqn:E; [|lia].
  rewrite Nat2Z.id, firstn_repeat_min, skipn_repeat.
  rewrite Nat.min_l by lia.
  replace (n - S k)%nat with (n - k - 1)%nat by lia. reflexivity.
Qed.

(** The steps of [build_example] on a row of three columns that returns. *)
Lemma build_example_returned (encode : string -> list Z) (int_of_string : string -> result Z)
      (text_a text_b label : string) (max_length : Z) (ex : example) :
  build_example encode int_of_string [text_a; text_b; label] max_length = Ok ex ->
  exists p,
    make_input (1 :: encode (prompt text_a text_b)) (encode "。"%string) 1 max_length = Ok p /\
    int_of_string label = Ok (ex_target ex) /\
    fits_int64 (ex_target ex) /\
    ex_input_tokens ex = input_tokens p /\
    ex_input_length ex = input_length p /\
    ex_context ex = context p /\
    ex_input_span ex = input_span p /\
    ex_index ex
    = repeat 0 (List.length (encode (prompt text_a text_b)))
      ++ 1 :: repeat 0 (Z.to_nat max_length - List.length (encode (prompt text_a text_b)) - 1).
Proof.
  intros Hex. unfold build_example in Hex.
  destruct (make_input _ _ 1 max_length) as [p|e] eqn:Hp; cbn [bind] in Hex; [|discriminate].
  destruct (make_input_returned _ _ _ _ _ Hp) as [Hlt _].
  rewrite len_input in Hlt by lia.
  pose proof (len_nonneg (encode "。"%string)) as Hr0.
  assert (Hlef : len (1 :: encode (prompt text_a text_b))
                 = Z.of_nat (List.length (encode (prompt text_a text_b))) + 1).
  { unfold len. simpl List.length. lia. }
  rewrite Hlef in Hlt, Hex.
  rewrite torch_zeros_ok in Hex by lia. cbn [bind] in Hex.
  replace (Z.of_nat (List.length (encode (prompt text_a text_b))) + 1 - 1)
    with (Z.of_nat (List.length (encode (prompt text_a text_b)))) in Hex by lia.
  rewrite assign_index_zeros in Hex by lia. cbn [bind] in Hex.
  destruct (int_of_string label) as [n|e] eqn:Hn; cbn [bind] in Hex; [|discriminate].
  unfold torch_tensor_long in Hex.
  destruct (fits_int64b n) eqn:E64; cbn [bind] in Hex; [|discriminate].
  inversion Hex; subst ex; clear Hex. simpl.
  apply fits_int64b_spec in E64.
  exists p. split; [reflexivity|]. split; [reflexivity|]. split; [exact E64|].
  repeat split; reflexivity.
Qed.

(** X5: the layout of an example that [build_example] returns.  With [k]
    tokens in the encoded prompt, the left context is the token 1 followed
    by the prompt (positions 0..k); [index] is one-hot at position [k], the
    last token of the left context; the mask is false at position [k+1]
    alone, where the token tensor holds the blank 0; the length field
    counts the left context, the blank and the encoded full stop; the
    target is the label as [int] reads it. *)
Theorem build_example_layout (encode : string -> list Z) (int_of_string : string -> result Z)
        (text_a text_b label : string) (max_length : Z) (ex : example) :
  build_example encode int_of_string [text_a; text_b; label] max_length = Ok ex ->
  let k := List.length (encode (prompt text_a text_b)) in
  ex_index ex = repeat 0 k ++ 1 :: repeat 0 (Z.to_nat max_length - k - 1) /\
  ex_context ex = repeat true (S k) ++ false :: repeat true (Z.to_nat max_length - k - 2) /\
  nth 0 (ex_input_tokens ex) 0 = 1 /\
  firstn k (skipn 1 (ex_input_tokens ex)) = map to_int32 (encode (prompt text_a text_b)) /\
  nth (S k) (ex_input_tokens ex) 1 = 0 /\
  ex_input_length ex = Z.of_nat k + 2 + len (encode "。"%string) /\
  ex_input_length ex < max_length /\
  ex_input_span ex = repeat 0 (Z.to_nat max_length) /\
  int_of_string label = Ok (ex_target ex).
Proof.
  intros Hex k.
  destruct (build_example_returned _ _ _ _ _ _ _ Hex)
    as [p [Hp [Hlabel [_ [Htok [Hlen [Hctx [Hspan Hidx]]]]]]]].
  rewrite Htok, Hlen, Hctx, Hspan, Hidx. clear Htok Hlen Hctx Hspan Hidx Hex.
  destruct (make_input_returned _ _ _ _ _ Hp) as [Hlt _].
  rewrite (make_input_returned_value _ _ _ _ _ Hp). clear Hp.
  cbn [input_tokens input_length context input_span].
  rewrite len_input in * by lia.
  pose proof (len_nonneg (encode "。"%string)) as Hr0.
  fold k.
  assert (Hlef : len (1 :: encode (prompt text_a text_b)) = Z.of_nat (S k)).
  { unfold len. reflexivity. }
  rewrite Hlef in *.
  split; [reflexivity|]. split.
  { rewrite (context_runs (S k) 1 1 max_length) by lia.
    simpl repeat at 2. simpl app at 2. do 3 f_equal. lia. }
  split; [reflexivity|]. split.
  { simpl. rewrite map_app, <- app_assoc, firstn_app.
    rewrite length_map. fold k. rewrite Nat.sub_diag, firstn_all2 by (rewrite length_map; lia).
    simpl. apply app_nil_r. }
  split.
  { simpl. rewrite map_app, <- app_assoc.
    rewrite app_nth2 by (rewrite length_map; lia).
    rewrite length_map. fold k. rewrite Nat.sub_diag. reflexivity. }
  split; [lia|]. split; [lia|]. split; [reflexivity | exact Hlabel].
Qed.

Lemma build_example_layout_witness :
  exists ex,
    build_example byte_encode label_of_string ["a1"; "b1"; "1"]%string 64 = Ok ex /\
    let k := List.length (byte_encode (prompt "a1"%string "b1"%string)) in
    ex_index ex = repeat 0 k ++ 1 :: repeat 0 (Z.to_nat 64 - k - 1) /\
    ex_context ex = repeat true (S k) ++ false :: repeat true (Z.to_nat 64 - k - 2) /\
    nth 0 (ex_input_tokens ex) 0 = 1 /\
    firstn k (skipn 1 (ex_input_tokens ex)) = map to_int32 (byte_encode (prompt "a1"%string "b1"%string)) /\
    nth (S k) (ex_input_tokens ex) 1 = 0 /\
    ex_input_length ex = Z.of_nat k + 2 + len (byte_encode "。"%string) /\
    ex_input_length ex < 64 /\
    ex_input_span ex = repeat 0 (Z.to_nat 64) /\
    label_of_string "1"%string = Ok (ex_target ex).
Proof.
  eexists. split; [vm_compute; reflexivity|].
  apply (build_example_layout byte_encode label_of_string "a1"%string "b1"%string "1"%string 64).
  vm_compute. reflexivity.
Defined.

(** X6: the failures of [build_example], in the order the code meets them.
    A row that has not three columns raises [ValueError]; a row of three
    columns whose packed length [k + 2 + len(encode("。"))] reaches
    [max_length] raises [AssertionError] whatever its label; otherwise, for
    tokens that torch can store, the label decides: the exception of
    [int(label)], [RuntimeError] for a number beyond int64, an example
    otherwise. *)
Theorem build_example_outcomes (encode : string -> list Z) (int_of_string : string -> result Z)
        (r : row) (max_length : Z) :
  (List.length r <> 3%nat ->
   build_example encode int_of_string r max_length = Raise ValueError) /\
  (forall text_a text_b label,
      r = [text_a; text_b; label] ->
      let n := len (encode (prompt text_a text_b)) + 2 + len (encode "。"%string) in
      (max_length <= n ->
       build_example encode int_of_string r max_length = Raise AssertionError) /\
      (n < max_length -> n < 2 ^ 31 ->
       Forall fits_int64 (encode (prompt text_a text_b) ++ encode "。"%string) ->
       (forall e, int_of_string label = Raise e ->
                  build_example encode int_of_string r max_length = Raise e) /\
       (forall v, int_of_string label = Ok v -> ~ fits_int64 v ->
                  build_example encode int_of_string r max_length = Raise RuntimeError) /\
       (forall v, int_of_string label = Ok v -> fits_int64 v ->
                  exists ex, build_example encode int_of_string r max_length = Ok ex
                             /\ ex_target ex = v))).
Proof.
  split.
  - intros Hlen.
    destruct r as [|a [|b [|c [|d r']]]]; simpl in *; try reflexivity.
    now elim Hlen.
  - intros text_a text_b label -> n.
    pose proof (len_nonneg (encode (prompt text_a text_b))) as Hk0.
    pose proof (len_nonneg (encode "。"%string)) as Hr0.
    assert (Hn : len ((1 :: encode (prompt text_a text_b)) ++ zeros_range 1
                      ++ encode "。"%string) = n).
    { rewrite len_input by lia. unfold n, len. simpl List.length. lia. }
    split.
    + intros Hge. unfold build_example, make_input. rewrite Hn.
      destruct (n <? max_length) eqn:E; [lia | reflexivity].
    + intros Hlt H31 Hfit.
      assert (Hp : exists p, make_input (1 :: encode (prompt text_a text_b))
                                        (encode "。"%string) 1 max_length = Ok p).
      { eexists. apply make_input_value; rewrite ?Hn; try assumption.
        constructor; [unfold fits_int64; lia | assumption]. }
      destruct Hp as [p Hp].
      assert (Hidx : exists index,
                 assign_index (repeat 0 (Z.to_nat max_length))
                              (len (1 :: encode (prompt text_a text_b)) - 1) 1 = Ok index).
      { eexists.
        replace (len (1 :: encode (prompt text_a text_b)) - 1)
          with (Z.of_nat (List.length (encode (prompt text_a text_b))))
          by (unfold len; simpl List.length; lia).
        apply assign_index_zeros. unfold len in *. lia. }
      destruct Hidx as [index Hidx].
      unfold build_example. rewrite Hp. cbn [bind].
      rewrite torch_zeros_ok by lia. cbn [bind]. rewrite Hidx. cbn [bind].
      split; [|split].
      * intros e He. now rewrite He.
      * intros v Hv Hnot. rewrite Hv. cbn [bind]. unfold torch_tensor_long.
        destruct (fits_int64b v) eqn:E; [|reflexivity].
        apply fits_int64b_spec in E. contradiction.
      * intros v Hv Hfits. rewrite Hv. cbn [bind]. unfold torch_tensor_long.
        apply fits_int64b_spec in Hfits. rewrite Hfits. cbn [bind].
        eexists. split; reflexivity.
Qed.

(** ** [LCQMC_Dataset]: the rows of a rank *)

Lemma filter_combine_agree {A : Type} (p : Z -> bool) (l l' : list A) (a : nat) :
  List.length l = List.length l' ->
  (forall j, p (Z.of_nat (a + j)) = true -> nth_error l j = nth_error l' j) ->
  filter (fun ir => p (fst ir)) (combine (map Z.of_nat (seq a (List.length l))) l)
  = filter (fun ir => p (fst ir)) (combine (map Z.of_nat (seq a (List.length l'))) l').
Proof.
  revert l' a. induction l as [|x l IH]; intros [|x' l'] a Hlen Hagree;
    simpl in Hlen; try discriminate; [reflexivity|].
  simpl.
  assert (Htail : filter (fun ir => p (fst ir))
                         (combine (map Z.of_nat (seq (S a) (List.length l))) l)
                  = filter (fun ir => p (fst ir))
                           (combine (map Z.of_nat (seq (S a) (List.length l'))) l')).
  { apply IH; [lia|]. intros j Hj. apply (Hagree (S j)).
    now replace (a + S j)%nat with (S a + j)%nat by lia. }
  destruct (p (Z.of_nat a)) eqn:E.
  - specialize (Hagree 0%nat). rewrite Nat.add_0_r in Hagree.
    specialize (Hagree E). simpl in Hagree. inversion Hagree; subst.
    now rewrite Htail.
  - exact Htail.
Qed.

(** X7: the constructor reads only the rows its rank keeps.  Two files with
    as many rows that agree on the rows of the rank give the same outcome:
    the header and the rows of the other ranks or past [max_id] are never
    unpacked, so nothing in them can make the constructor fail. *)
Theorem LCQMC_Dataset_reads_kept_rows_only
        (encode : string -> list Z) (int_of_string : string -> result Z)
        (reader reader' : list row) (rank world_size max_length : Z) :
  List.length reader = List.length reader' ->
  (forall i, kept_index ((len reader - 1) / world_size * world_size) rank world_size
                        (Z.of_nat i) = true ->
             nth_error reader i = nth_error reader' i) ->
  LCQMC_Dataset_init encode int_of_string reader rank world_size max_length
  = LCQMC_Dataset_init encode int_of_string reader' rank world_size max_length.
Proof.
  intros Hlen Hagree. unfold LCQMC_Dataset_init.
  destruct (world_size =? 0); [reflexivity|].
  rewrite !LCQMC_loop_kept.
  assert (Hl : len reader' = len reader) by (unfold len; now rewrite Hlen).
  rewrite Hl. unfold enumerate, kept.
  rewrite (filter_combine_agree _ reader reader' 0 Hlen); [reflexivity|].
  intros j Hj. now apply Hagree.
Qed.

Lemma LCQMC_Dataset_reads_kept_rows_only_witness :
  LCQMC_Dataset_init byte_encode label_of_string small_file 1 2 64
  = LCQMC_Dataset_init byte_encode label_of_string small_file' 1 2 64.
Proof.
  apply (LCQMC_Dataset_reads_kept_rows_only
           byte_encode label_of_string small_file small_file' 1 2 64).
  - reflexivity.
  - intros i Hi.
    destruct i as [|[|[|[|[|[|i]]]]]]; try reflexivity;
      try (vm_compute in Hi; discriminate).
Defined.

(** X8: the ranks share out the data rows.  With [max_id = ((R-1)//W)*W],
    every row [1 <= i <= max_id] passes the two tests on rank [i mod W] and
    on no other rank; no rank keeps the header (row 0) or a row past [max_id];
    fewer than [W] data rows are left out; and the ranks [0..W-1] together
    keep [max_id] rows. *)
Theorem LCQMC_ranks_share_rows (reader : list row) (world_size : Z) :
  1 <= len reader -> 1 <= world_size ->
  let max_id := (len reader - 1) / world_size * world_size in
  (forall i, 1 <= i <= max_id ->
             0 <= i mod world_size < world_size /\
             kept_index max_id (i mod world_size) world_size i = true /\
             forall r, kept_index max_id r world_size i = true -> r = i mod world_size) /\
  (forall r i, 0 <= i -> kept_index max_id r world_size i = true -> 1 <= i <= max_id) /\
  0 <= (len reader - 1) - max_id < world_size /\
  fold_right Z.add 0
             (map (fun r => len (filter (kept max_id (Z.of_nat r) world_size)
                                        (enumerate reader)))
                  (seq 0 (Z.to_nat world_size)))
  = max_id.
Proof.
  intros HR HW max_id.
  assert (Hk : 0 <= (len reader - 1) / world_size) by (apply Z.div_pos; lia).
  assert (Hmod : (len reader - 1) mod world_size = len reader - 1 - max_id).
  { unfold max_id. rewrite Z.mod_eq by lia. lia. }
  pose proof (Z.mod_pos_bound (len reader - 1) world_size ltac:(lia)) as Hb.
  split; [|split; [|split]].
  - intros i Hi. pose proof (Z.mod_pos_bound i world_size ltac:(lia)) as Hbi.
    split; [exact Hbi|]. unfold kept_index. split.
    + apply andb_true_iff. split; [|apply Z.eqb_refl].
      apply negb_true_iff, orb_false_iff. split; lia.
    + intros r Hr. apply andb_true_iff in Hr. destruct Hr as [_ Hr]. lia.
  - intros r i Hi Hr. unfold kept_index in Hr.
    apply andb_true_iff in Hr. destruct Hr as [Hr _].
    apply negb_true_iff, orb_false_iff in Hr.
    destruct Hr as [H0 Hmax]. lia.
  - lia.
  - rewrite (map_ext_in _ (fun _ => (len reader - 1) / world_size)).
    2:{ intros r Hr. apply in_seq in Hr. apply kept_count; lia. }
    assert (Hsum : forall (c : Z) (l : list nat),
               fold_right Z.add 0 (map (fun _ => c) l) = Z.of_nat (List.length l) * c).
    { intros c l. induction l as [|x l IH]; simpl List.length; simpl map; simpl fold_right;
        [lia | rewrite IH; lia]. }
    rewrite Hsum, length_seq. unfold max_id. lia.
Qed.

Lemma LCQMC_ranks_share_rows_witness :
  let max_id := (len small_file - 1) / 2 * 2 in
  (forall i, 1 <= i <= max_id ->
             0 <= i mod 2 < 2 /\
             kept_index max_id (i mod 2) 2 i = true /\
             forall r, kept_index max_id r 2 i = true -> r = i mod 2) /\
  (forall r i, 0 <= i -> kept_index max_id r 2 i = true -> 1 <= i <= max_id) /\
  0 <= (len small_file - 1) - max_id < 2 /\
  fold_right Z.add 0
             (map (fun r => len (filter (kept max_id (Z.of_nat r) 2) (enumerate small_file)))
                  (seq 0 (Z.to_nat 2)))
  = max_id.
Proof.
  apply (LCQMC_ranks_share_rows small_file 2).
  - vm_compute. discriminate.
  - lia.
Defined.

(** Two strictly increasing lists with the same elements are the same
    list. *)
Lemma sorted_lt_ext (l1 l2 : list Z) :
  StronglySorted Z.lt l1 -> StronglySorted Z.lt l2 ->
  (forall x, In x l1 <-> In x l2) -> l1 = l2.
Proof.
  intros H1. revert l2. induction H1 as [|a l1 Hs1 IH Ha]; intros l2 H2 Hin.
  - destruct l2 as [|b l2]; [reflexivity|].
    exfalso. apply (proj2 (Hin b)). now left.
  - destruct H2 as [|b l2 Hs2 Hb].
    + exfalso. apply (proj1 (Hin a)). now left.
    + rewrite Forall_forall in Ha, Hb.
      assert (Hab : a = b).
      { destruct (proj1 (Hin a) (or_introl eq_refl)) as [E|E]; [now symmetry|].
        destruct (proj2 (Hin b) (or_introl eq_refl)) as [E'|E']; [assumption|].
        specialize (Ha b E'). specialize (Hb a E). lia. }
      subst b. f_equal. apply IH; [assumption|].
      intros x. split; intros Hx.
      * destruct (proj1 (Hin x) (or_intror Hx)) as [E|E]; [|assumption].
        specialize (Ha x Hx). lia.
      * destruct (proj2 (Hin x) (or_intror Hx)) as [E|E]; [|assumption].
        specialize (Hb x Hx). lia.
Qed.

Lemma sorted_map_seq (f : nat -> Z) (a n : nat) :
  (forall i j, (i < j)%nat -> f i < f j) ->
  StronglySorted Z.lt (map f (seq a n)).
Proof.
  intros Hf. revert a. induction n as [|n IH]; intros a; simpl; constructor.
  - apply IH.
  - apply Forall_forall. intros y Hy.
    apply in_map_iff in Hy. destruct Hy as [j [<- Hj]].
    apply in_seq in Hj. apply Hf. lia.
Qed.

Lemma sorted_filter (p : Z -> bool) (l : list Z) :
  StronglySorted Z.lt l -> StronglySorted Z.lt (filter p l).
Proof.
  induction 1 as [|a l Hs IH Ha]; simpl; [constructor|].
  destruct (p a); [|assumption].
  constructor; [assumption|].
  rewrite Forall_forall in *. intros x Hx. apply Ha.
  apply filter_In in Hx. tauto.
Qed.

Lemma map_fst_filter_combine {A : Type} (p : Z -> bool) (ixs : list Z) (l : list A) :
  List.length ixs = List.length l ->
  map fst (filter (fun ir => p (fst ir)) (combine ixs l)) = filter p ixs.
Proof.
  revert l. induction ixs as [|i ixs IH]; intros [|x l] H; simpl in *; try discriminate.
  - reflexivity.
  - destruct (p i); simpl; rewrite IH by lia; reflexivity.
Qed.

Lemma row_of_mod (rank W k : Z) :
  1 <= W -> 0 <= rank < W -> row_of rank W k mod W = rank.
Proof.
  intros HW Hr. unfold row_of. destruct (rank =? 0) eqn:E.
  - apply Z.eqb_eq in E. subst rank.
    replace (k * W + W) with ((k + 1) * W) by lia. apply Z.mod_mul. lia.
  - rewrite Z.add_comm, Z.mod_add by lia. apply Z.mod_small. lia.
Qed.

(** The indices a rank keeps, in file order. *)
Lemma kept_indices (n : nat) (rank W : Z) :
  (1 <= n)%nat -> 1 <= W -> 0 <= rank < W ->
  filter (kept_index ((Z.of_nat n - 1) / W * W) rank W) (map Z.of_nat (seq 0 n))
  = map (fun k => row_of rank W (Z.of_nat k)) (seq 0 (Z.to_nat ((Z.of_nat n - 1) / W))).
Proof.
  intros Hn HW Hr.
  set (K := (Z.of_nat n - 1) / W).
  assert (HK : 0 <= K) by (apply Z.div_pos; lia).
  assert (HKW : K * W <= Z.of_nat n - 1).
  { unfold K. rewrite Z.mul_comm. apply Z.mul_div_le. lia. }
  apply sorted_lt_ext.
  - apply sorted_filter. apply sorted_map_seq. intros i j Hij. lia.
  - apply sorted_map_seq. intros i j Hij. unfold row_of. nia.
  - intros x. rewrite filter_In, !in_map_iff. split.
    + intros [[i [<- Hi]] Hkept]. apply in_seq in Hi.
      unfold kept_index in Hkept.
      apply andb_true_iff in Hkept. destruct Hkept as [H1 H2].
      apply negb_true_iff, orb_false_iff in H1. destruct H1 as [H0 Hmax].
      apply Z.eqb_eq in H2.
      pose proof (Z.div_mod (Z.of_nat i) W ltac:(lia)) as Hdm.
      rewrite H2 in Hdm.
      assert (Hq : 0 <= Z.of_nat i / W) by (apply Z.div_pos; lia).
      unfold row_of. destruct (rank =? 0) eqn:E.
      * apply Z.eqb_eq in E.
        set (q := Z.of_nat i / W) in *.
        assert (Hq1 : 1 <= q <= K) by nia.
        exists (Z.to_nat (q - 1)). split; [|apply in_seq; lia].
        rewrite Z2Nat.id by lia. lia.
      * apply Z.eqb_neq in E.
        set (q := Z.of_nat i / W) in *.
        assert (Hq1 : q < K) by nia.
        exists (Z.to_nat q). split; [|apply in_seq; lia].
        rewrite Z2Nat.id by lia. lia.
    + intros [k [<- Hk]]. apply in_seq in Hk.
      assert (Hrow : 1 <= row_of rank W (Z.of_nat k) <= K * W).
      { unfold row_of. destruct (rank =? 0) eqn:E; nia. }
      split.
      * exists (Z.to_nat (row_of rank W (Z.of_nat k))). split; [lia|].
        apply in_seq. lia.
      * unfold kept_index. apply andb_true_iff. split.
        -- apply negb_true_iff, orb_false_iff. split; lia.
        -- apply Z.eqb_eq. now apply row_of_mod.
Qed.

Lemma mapM_nth_error {A B : Type} (f : A -> result B) (l : list A) (bs : list B)
      (k : nat) (a : A) :
  mapM f l = Ok bs -> nth_error l k = Some a ->
  exists b, f a = Ok b /\ nth_error bs k = Some b.
Proof.
  revert bs k. induction l as [|x l IH]; intros bs k Hm Hk.
  - destruct k; discriminate.
  - simpl in Hm.
    destruct (f x) as [b|e] eqn:Hfx; simpl in Hm; [|discriminate].
    destruct (mapM f l) as [bs'|e] eqn:Hl; simpl in Hm; [|discriminate].
    inversion Hm; subst bs.
    destruct k as [|k]; simpl in Hk.
    + inversion Hk; subst. exists b. split; [assumption | reflexivity].
    + apply (IH bs' k eq_refl Hk).
Qed.

Lemma py_getitem_in_range {A : Type} (l : list A) (k : nat) (a : A) :
  nth_error l k = Some a ->
  py_getitem l (Z.of_nat k) = Ok a /\ py_getitem l (Z.of_nat k - len l) = Ok a.
Proof.
  intros H.
  assert (Hk : (k < List.length l)%nat) by (apply nth_error_Some; congruence).
  unfold py_getitem, len. split.
  - destruct (Z.of_nat k <? 0) eqn:E; [lia|].
    destruct ((0 <=? Z.of_nat k) && (Z.of_nat k <? Z.of_nat (List.length l))) eqn:E2; [|lia].
    now rewrite Nat2Z.id, H.
  - destruct (Z.of_nat k - Z.of_nat (List.length l) <? 0) eqn:E; [|lia].
    replace (Z.of_nat k - Z.of_nat (List.length l) + Z.of_nat (List.length l))
      with (Z.of_nat k) by lia.
    destruct ((0 <=? Z.of_nat k) && (Z.of_nat k <? Z.of_nat (List.length l))) eqn:E2; [|lia].
    now rewrite Nat2Z.id, H.
Qed.

Lemma py_getitem_out_of_range {A : Type} (l : list A) (idx : Z) :
  idx < - len l \/ len l <= idx -> py_getitem l idx = Raise IndexError.
Proof.
  intros H. unfold py_getitem.
  pose proof (len_nonneg l) as H0.
  destruct (idx <? 0) eqn:E.
  - destruct ((0 <=? idx + len l) && (idx + len l <? len l)) eqn:E2; [lia | reflexivity].
  - destruct ((0 <=? idx) && (idx <? len l)) eqn:E2; [lia | reflexivity].
Qed.

(** X9: which row an index of the dataset stands for.  On rank [r] of [W]
    the dataset holds [(R-1)//W] examples, and [__getitem__(k)] returns the
    example built from the file row [k*W + r] (from row [(k+1)*W] on rank
    0); the index [k - len] names the same example, and an index outside
    [-len, len) raises [IndexError]. *)
Theorem LCQMC_Dataset_getitem_row
        (encode : string -> list Z) (int_of_string : string -> result Z)
        (reader : list row) (rank world_size max_length : Z) (data : list example) :
  1 <= len reader -> 1 <= world_size -> 0 <= rank < world_size ->
  LCQMC_Dataset_init encode int_of_string reader rank world_size max_length = Ok data ->
  LCQMC_Dataset_len data = (len reader - 1) / world_size /\
  (forall k, 0 <= k < LCQMC_Dataset_len data ->
     exists r ex,
       nth_error reader (Z.to_nat (row_of rank world_size k)) = Some r /\
       build_example encode int_of_string r max_length = Ok ex /\
       LCQMC_Dataset_getitem data k = Ok ex /\
       LCQMC_Dataset_getitem data (k - LCQMC_Dataset_len data) = Ok ex) /\
  (forall idx, idx < - LCQMC_Dataset_len data \/ LCQMC_Dataset_len data <= idx ->
               LCQMC_Dataset_getitem data idx = Raise IndexError).
Proof.
  intros HR HW Hr Hinit.
  unfold LCQMC_Dataset_len, LCQMC_Dataset_getitem.
  set (rows := filter (kept ((len reader - 1) / world_size * world_size) rank world_size)
                      (enumerate reader)).
  assert (Hdata : mapM (fun ir => build_example encode int_of_string (snd ir) max_length) rows
                  = Ok data).
  { unfold LCQMC_Dataset_init in Hinit.
    destruct (world_size =? 0) eqn:E; [lia|].
    rewrite LCQMC_loop_kept in Hinit. fold rows in Hinit.
    destruct (mapM _ rows); simpl in Hinit; [|discriminate].
    now inversion Hinit. }
  assert (Hfst : map fst rows
                 = map (fun k => row_of rank world_size (Z.of_nat k))
                       (seq 0 (Z.to_nat ((len reader - 1) / world_size)))).
  { unfold rows, enumerate, kept.
    rewrite map_fst_filter_combine by (now rewrite length_map, length_seq).
    apply kept_indices; unfold len in *; lia. }
  assert (Hlen : len data = (len reader - 1) / world_size).
  { apply mapM_length in Hdata.
    assert (Hl : List.length rows = Z.to_nat ((len reader - 1) / world_size)).
    { rewrite <- (length_map fst rows), Hfst, length_map, length_seq. reflexivity. }
    assert (0 <= (len reader - 1) / world_size) by (apply Z.div_pos; lia).
    unfold len at 1. lia. }
  split; [exact Hlen|]. split.
  - intros k Hk.
    assert (Hkn : (Z.to_nat k < List.length rows)%nat).
    { apply mapM_length in Hdata. unfold len in Hk. lia. }
    destruct (nth_error rows (Z.to_nat k)) as [[i r]|] eqn:Hrow.
    2:{ apply nth_error_None in Hrow. lia. }
    assert (Hi : i = row_of rank world_size k).
    { pose proof (map_nth_error fst _ _ Hrow) as Hm. rewrite Hfst in Hm. simpl in Hm.
      rewrite nth_error_map in Hm.
      destruct (nth_error (seq 0 _) (Z.to_nat k)) as [j|] eqn:Hj; simpl in Hm;
        [|discriminate].
      apply nth_error_In in Hj as Hin. apply in_seq in Hin.
      assert (j = Z.to_nat k).
      { pose proof (nth_error_nth _ _ 0%nat Hj) as Hnth.
        rewrite seq_nth in Hnth by lia. lia. }
      subst j. inversion Hm. now rewrite Z2Nat.id by lia. }
    subst i.
    assert (Hin : In (row_of rank world_size k, r) (enumerate reader)).
    { apply nth_error_In in Hrow. unfold rows in Hrow. apply filter_In in Hrow. tauto. }
    apply In_enumerate in Hin. destruct Hin as [_ Hreader].
    destruct (mapM_nth_error _ _ _ _ _ Hdata Hrow) as [ex [Hex Hnth]].
    simpl in Hex.
    destruct (py_getitem_in_range data (Z.to_nat k) ex Hnth) as [Hg1 Hg2].
    rewrite Z2Nat.id in Hg1, Hg2 by lia.
    exists r, ex. repeat split; assumption.
  - apply py_getitem_out_of_range.
Qed.

Lemma LCQMC_Dataset_getitem_row_witness :
  exists data,
    LCQMC_Dataset_init byte_encode label_of_string small_file 1 2 64 = Ok data /\
    LCQMC_Dataset_len data = (len small_file - 1) / 2 /\
    (forall k, 0 <= k < LCQMC_Dataset_len data ->
       exists r ex,
         nth_error small_file (Z.to_nat (row_of 1 2 k)) = Some r /\
         build_example byte_encode label_of_string r 64 = Ok ex /\
         LCQMC_Dataset_getitem data k = Ok ex /\
         LCQMC_Dataset_getitem data (k - LCQMC_Dataset_len data) = Ok ex) /\
    (forall idx, idx < - LCQMC_Dataset_len data \/ LCQMC_Dataset_len data <= idx ->
                 LCQMC_Dataset_getitem data idx = Raise IndexError).
Proof.
  eexists. split; [vm_compute; reflexivity|].
  apply (LCQMC_Dataset_getitem_row byte_encode label_of_string small_file 1 2 64).
  - vm_compute. discriminate.
  - lia.
  - lia.
  - vm_compute. reflexivity.
Defined.

(** X23: a file with fewer data rows than ranks.  When the file has no row,
    only a header, or fewer than [world_size] rows after the header,
    [max_id] is at most 0 and no row is kept: for every rank the constructor
    returns an empty dataset, whatever the rows hold and without reading
    them.  A [world_size] of 0 raises [ZeroDivisionError]. *)
Theorem LCQMC_Dataset_small_file
        (encode : string -> list Z) (int_of_string : string -> result Z)
        (reader : list row) (rank world_size max_length : Z) :
  1 <= world_size -> len reader - 1 < world_size ->
  LCQMC_Dataset_init encode int_of_string reader rank world_size max_length = Ok [] /\
  LCQMC_Dataset_init encode int_of_string reader rank 0 max_length = Raise ZeroDivisionError.
Proof.
  intros HW Hsmall. split; [|reflexivity].
  unfold LCQMC_Dataset_init.
  destruct (world_size =? 0) eqn:E; [lia|].
  rewrite LCQMC_loop_kept.
  rewrite filter_nil_in; [reflexivity|].
  intros [i r] Hin. apply In_enumerate in Hin. destruct Hin as [Hi _].
  unfold kept, kept_index. simpl fst.
  assert (Hmax : (len reader - 1) / world_size * world_size <= 0).
  { pose proof (len_nonneg reader) as H0.
    destruct (Z.eq_dec (len reader) 0) as [Hz|Hz].
    - rewrite Hz. simpl.
      assert (- 1 / world_size < 0) by (apply Z.div_lt_upper_bound; lia). nia.
    - rewrite Z.div_small by lia. lia. }
  destruct (i =? 0) eqn:E0; [reflexivity|].
  destruct (i >? (len reader - 1) / world_size * world_size) eqn:E1; [reflexivity|].
  lia.
Qed.

Lemma LCQMC_Dataset_small_file_witness :
  LCQMC_Dataset_init byte_encode label_of_string small_file' 3 8 64 = Ok [] /\
  LCQMC_Dataset_init byte_encode label_of_string small_file' 3 0 64
  = Raise ZeroDivisionError.
Proof.
  apply (LCQMC_Dataset_small_file byte_encode label_of_string small_file' 3 8 64).
  - lia.
  - vm_compute. reflexivity.
Defined.

(* ================================================================= *)
(** ** [clip_grad_norm]: what a call guarantees *)

Section ClipGradNormCalls.
Local Open Scope R_scope.

(** X10: what a call guarantees for [0 < eps] and [0 < max_norm * scale].
    Every gradient of every rank is multiplied by one factor [k] with
    [0 < k <= 1], so no entry grows or changes sign; the aggregated norm
    after the call is [k] times the norm before, it is not larger than
    before, and it is strictly below [max_norm * scale]. *)
Theorem clip_grad_norm_bounds_norm
        (workers : list (list ParamGroup)) (max_norm scale : R)
        (nt : norm_type) (eps : R) :
  can_run nt workers -> 0 < eps -> 0 < max_norm * scale ->
  exists total out k,
    global_norm nt workers = Ok total /\
    clip_grad_norm workers max_norm scale nt eps = Ok out /\
    0 < k <= 1 /\
    map fst out = map (mul_grads k) workers /\
    global_norm nt (map fst out) = Ok (total * k) /\
    total * k <= total /\
    total * k < max_norm * scale.
Proof.
  intros Hrun He Hm.
  destruct (global_norm_runs nt workers Hrun) as [total [Htotal Hpos]].
  destruct (clip_grad_norm_with workers max_norm scale nt eps total Htotal)
    as [Hout Hfst].
  set (c := clip_coef max_norm scale eps total) in *.
  assert (Hc0 : 0 < c) by (unfold c, clip_coef; apply Rdiv_lt_0_compat; lra).
  assert (Hcd : c * (total + eps) = max_norm * scale)
    by (unfold c, clip_coef; field; lra).
  exists total, (map (clip_rank max_norm scale eps total) workers).
  destruct (Rlt_dec c 1) as [Hlt|Hge].
  - exists c. rewrite Hfst.
    split; [exact Htotal|]. split; [exact Hout|]. split; [lra|].
    split; [reflexivity|]. split.
    + apply global_norm_mul_grads; [assumption | lra | assumption].
    + split; nra.
  - exists 1. rewrite Hfst.
    assert (Hid : map (mul_grads 1) workers = workers).
    { rewrite <- (map_id workers) at 2. apply map_ext. intros pg.
      unfold mul_grads. rewrite <- (map_id pg) at 2. apply map_ext. intros [ps].
      f_equal. simpl. rewrite <- (map_id ps) at 2. apply map_ext. intros q.
      unfold mul_param. destruct q as [d [g|]]; simpl; [|reflexivity].
      unfold tensor_mul. now rewrite map_mul_1. }
    split; [exact Htotal|]. split; [exact Hout|]. split; [lra|].
    split; [now rewrite Hid|]. split.
    + now rewrite Rmult_1_r.
    + split; nra.
Qed.

Lemma clip_grad_norm_bounds_norm_witness :
  exists total out k,
    global_norm (Lp 2) two_workers = Ok total /\
    clip_grad_norm two_workers 1 1 (Lp 2) eps_default = Ok out /\
    0 < k <= 1 /\
    map fst out = map (mul_grads k) two_workers /\
    global_norm (Lp 2) (map fst out) = Ok (total * k) /\
    total * k <= total /\
    total * k < 1 * 1.
Proof.
  apply (clip_grad_norm_bounds_norm two_workers 1 1 (Lp 2) eps_default).
  - simpl. lra.
  - unfold eps_default. lra.
  - lra.
Defined.

(** *** When a call raises *)

Lemma local_norm_Inf_cases (pg : list ParamGroup) :
  (has_entries pg /\ exists m, local_norm Inf (parameters pg) = Ok m) \/
  (Exists (fun q => grad_data q = []) (parameters pg) /\
   local_norm Inf (parameters pg) = Raise RuntimeError) \/
  (parameters pg = [] /\ local_norm Inf (parameters pg) = Raise ValueError).
Proof.
  unfold has_entries, local_norm.
  assert (Hm : (Forall (fun q => grad_data q <> []) (parameters pg) /\
                mapM (fun q => tensor_max (tensor_abs (grad_data q))) (parameters pg)
                = Ok (map (fun q => Linf_norm (grad_data q)) (parameters pg))) \/
               (Exists (fun q => grad_data q = []) (parameters pg) /\
                mapM (fun q => tensor_max (tensor_abs (grad_data q))) (parameters pg)
                = Raise RuntimeError)).
  { induction (parameters pg) as [|q qs IH]; simpl.
    - left. split; [constructor | reflexivity].
    - destruct (grad_data q) as [|x xs] eqn:Hq.
      + right. split; [now left | reflexivity].
      + rewrite <- Hq. rewrite tensor_max_abs by (rewrite Hq; discriminate). simpl.
        destruct IH as [[Hall Hok]|[Hex Hraise]].
        * left. split; [constructor; [rewrite Hq; discriminate | assumption]|].
          now rewrite Hok.
        * right. split; [now right | now rewrite Hraise]. }
  destruct Hm as [[Hall Hok]|[Hex Hraise]].
  - rewrite Hok. simpl.
    destruct (parameters pg) as [|q qs] eqn:Hps.
    + right. right. split; reflexivity.
    + left. split; [split; [discriminate | assumption]|].
      simpl. eexists. reflexivity.
  - right. left. split; [assumption|]. now rewrite Hraise.
Qed.

Lemma has_entries_no_empty (pg : list ParamGroup) :
  has_entries pg -> ~ Exists (fun q => grad_data q = []) (parameters pg).
Proof.
  intros [_ Hall] Hex. apply Exists_exists in Hex. destruct Hex as [q [Hq Hg]].
  rewrite Forall_forall in Hall. now apply (Hall q Hq).
Qed.

(** The local phase of the ['inf'] branch over the ranks. *)
Lemma locals_Inf_cases (workers : list (list ParamGroup)) :
  (Forall has_entries workers /\
   exists ls, mapM (fun pg => local_norm Inf (parameters pg)) workers = Ok ls) \/
  (~ Forall has_entries workers /\
   exists e, mapM (fun pg => local_norm Inf (parameters pg)) workers = Raise e /\
             (e = ValueError \/ e = RuntimeError) /\
             (Forall (fun pg => Forall (fun q => grad_data q <> []) (parameters pg)) workers ->
              e = ValueError)).
Proof.
  induction workers as [|pg ws IH]; cbn [mapM].
  - left. split; [constructor | now exists []].
  - destruct (local_norm_Inf_cases pg) as [[Hpg [m Hm]]|[[Hex Hr]|[Hnil Hr]]].
    + rewrite Hm. cbn [bind].
      destruct IH as [[Hall [ls Hls]]|[Hnot [e [He [Hkind Hval]]]]].
      * left. split; [now constructor|]. rewrite Hls. cbn [bind]. now eexists.
      * right. split; [intros H; inversion H; contradiction|].
        exists e. rewrite He. cbn [bind]. split; [reflexivity|]. split; [assumption|].
        intros H. inversion H; subst. now apply Hval.
    + right. split.
      * intros H. inversion H as [|? ? Hpg _]; subst.
        now apply (has_entries_no_empty pg Hpg).
      * exists RuntimeError. rewrite Hr. cbn [bind]. split; [reflexivity|].
        split; [now right|]. intros H. inversion H as [|? ? Hpg _]; subst.
        exfalso. apply Exists_exists in Hex. destruct Hex as [q [Hq Hg]].
        rewrite Forall_forall in Hpg. now apply (Hpg q Hq).
    + right. split.
      * intros H. inversion H as [|? ? [Hne _] _]; subst. contradiction.
      * exists ValueError. rewrite Hr. cbn [bind]. split; [reflexivity|].
        split; [now left | reflexivity].
Qed.

(** X11: when [clip_grad_norm] returns and what it raises.  The call
    returns exactly on the inputs of [can_run]: for ['inf'], when every rank
    holds a gradient and no gradient is without entries; for a number, when
    it is not zero.  A norm type of zero raises [ZeroDivisionError] on any
    gradients; ['inf'] raises [ValueError] or [RuntimeError], and
    [ValueError] when no gradient is without entries (then some rank holds
    no gradient at all).  Nothing else is raised, and [max_norm], [scale]
    and [eps] are never checked. *)
Theorem clip_grad_norm_raises
        (workers : list (list ParamGroup)) (max_norm scale : R)
        (nt : norm_type) (eps : R) :
  (succeeds (clip_grad_norm workers max_norm scale nt eps) <-> can_run nt workers) /\
  (forall e, clip_grad_norm workers max_norm scale nt eps = Raise e ->
             match nt with
             | Inf => (e = ValueError \/ e = RuntimeError) /\
                      (Forall (fun pg => Forall (fun q => grad_data q <> []) (parameters pg))
                              workers -> e = ValueError)
             | Lp p => p = 0 /\ e = ZeroDivisionError
             end) /\
  clip_grad_norm workers max_norm scale (Lp 0) eps = Raise ZeroDivisionError.
Proof.
  assert (HLp : forall p, mapM (fun pg => local_norm (Lp p) (parameters pg)) workers
                          = Ok (map (fun pg =>
                                       fold_left (fun total q =>
                                                    total + rpow (tensor_norm (grad_data q) p) p)
                                                 (parameters pg) 0) workers)).
  { intros p. unfold local_norm. apply mapM_Ok. }
  split; [|split].
  - split.
    + intros [out Hout]. unfold clip_grad_norm, global_norm in Hout.
      destruct nt as [|p]; simpl.
      * destruct (locals_Inf_cases workers) as [[Hall _]|[_ [e [He _]]]]; [assumption|].
        rewrite He in Hout. discriminate.
      * rewrite HLp in Hout. simpl in Hout.
        destruct (Req_dec_T p 0); [discriminate | assumption].
    + intros Hrun. destruct (global_norm_runs nt workers Hrun) as [total [Htotal _]].
      unfold clip_grad_norm. rewrite Htotal. simpl. now eexists.
  - intros e He. unfold clip_grad_norm, global_norm in He.
    destruct nt as [|p].
    + destruct (locals_Inf_cases workers) as [[_ [ls Hls]]|[_ [e' [He' Hkind]]]].
      * rewrite Hls in He. discriminate.
      * rewrite He' in He. simpl in He. inversion He; subst. exact Hkind.
    + rewrite HLp in He. simpl in He.
      destruct (Req_dec_T p 0); [|discriminate].
      inversion He. now split.
  - unfold clip_grad_norm, global_norm. rewrite HLp. simpl.
    destruct (Req_dec_T 0 0) as [_|N]; [reflexivity | now elim N].
Qed.

(** *** The loss scale and the threshold *)

(** X12: the returned norm does not depend on the loss scale.  When every
    gradient is multiplied by a loss scale [0 < s] and [scale] is multiplied
    by [s] as well, every rank returns the same value as before,
    [total_norm / scale]. *)
Theorem clip_grad_norm_loss_scale
        (workers : list (list ParamGroup)) (max_norm scale : R)
        (nt : norm_type) (eps s : R) :
  can_run nt workers -> 0 < s -> scale <> 0 ->
  exists total out out',
    global_norm nt workers = Ok total /\
    clip_grad_norm workers max_norm scale nt eps = Ok out /\
    clip_grad_norm (map (mul_grads s) workers) max_norm (scale * s) nt eps = Ok out' /\
    List.length out' = List.length workers /\
    Forall (fun o => snd o = total / scale) out /\
    Forall (fun o => snd o = total / scale) out'.
Proof.
  intros Hrun Hs Hscale.
  destruct (global_norm_runs nt workers Hrun) as [total [Htotal _]].
  assert (Htotal' : global_norm nt (map (mul_grads s) workers) = Ok (total * s)).
  { apply global_norm_mul_grads; [assumption | lra | assumption]. }
  destruct (clip_grad_norm_with workers max_norm scale nt eps total Htotal) as [Hout _].
  destruct (clip_grad_norm_with (map (mul_grads s) workers) max_norm (scale * s) nt eps
                                (total * s) Htotal') as [Hout' _].
  exists total, (map (clip_rank max_norm scale eps total) workers),
         (map (clip_rank max_norm (scale * s) eps (total * s)) (map (mul_grads s) workers)).
  split; [exact Htotal|]. split; [exact Hout|]. split; [exact Hout'|].
  split; [now rewrite !length_map|]. split.
  - apply Forall_forall. intros o Ho.
    apply in_map_iff in Ho. destruct Ho as [pg [<- _]]. reflexivity.
  - apply Forall_forall. intros o Ho.
    apply in_map_iff in Ho. destruct Ho as [pg [<- _]]. simpl. field. lra.
Qed.

Lemma clip_grad_norm_loss_scale_witness :
  exists total out out',
    global_norm (Lp 2) two_workers = Ok total /\
    clip_grad_norm two_workers 1 1 (Lp 2) eps_default = Ok out /\
    clip_grad_norm (map (mul_grads 1024) two_workers) 1 (1 * 1024) (Lp 2) eps_default
    = Ok out' /\
    List.length out' = List.length two_workers /\
    Forall (fun o => snd o = total / 1) out /\
    Forall (fun o => snd o = total / 1) out'.
Proof.
  apply (clip_grad_norm_loss_scale two_workers 1 1 (Lp 2) eps_default 1024).
  - simpl. lra.
  - lra.
  - lra.
Defined.

(** X13: a threshold [max_norm * scale <= 0] is not refused.  For
    [0 < eps] the coefficient is then [<= 0], the call always rescales, and
    every gradient is multiplied by it: a threshold of zero sets every
    entry of every gradient to zero, and a negative one flips the sign of
    every entry. *)
Theorem clip_grad_norm_threshold_not_positive
        (workers : list (list ParamGroup)) (max_norm scale : R)
        (nt : norm_type) (eps : R) :
  can_run nt workers -> 0 < eps -> max_norm * scale <= 0 ->
  exists total out,
    global_norm nt workers = Ok total /\
    clip_grad_norm workers max_norm scale nt eps = Ok out /\
    let c := clip_coef max_norm scale eps total in
    c <= 0 /\
    map fst out = map (mul_grads c) workers /\
    all_grads (map fst out) = map (fun x => x * c) (all_grads workers) /\
    (max_norm * scale = 0 ->
     all_grads (map fst out) = map (fun _ => 0) (all_grads workers)) /\
    (max_norm * scale < 0 -> c < 0).
Proof.
  intros Hrun He Hm.
  destruct (global_norm_runs nt workers Hrun) as [total [Htotal Hpos]].
  destruct (clip_grad_norm_with workers max_norm scale nt eps total Htotal)
    as [Hout Hfst].
  exists total, (map (clip_rank max_norm scale eps total) workers).
  split; [exact Htotal|]. split; [exact Hout|].
  cbv zeta. set (c := clip_coef max_norm scale eps total) in *.
  assert (Hcd : c * (total + eps) = max_norm * scale)
    by (unfold c, clip_coef; field; lra).
  assert (Hc : c <= 0) by nra.
  destruct (Rlt_dec c 1) as [_|N]; [|exfalso; apply N; lra].
  rewrite Hfst. split; [exact Hc|]. split; [reflexivity|].
  split; [apply all_grads_mul_grads|]. split.
  - intros H0. rewrite all_grads_mul_grads.
    assert (c = 0) by nra. subst c. rewrite H.
    apply map_ext. intros x. apply Rmult_0_r.
  - intros Hneg. nra.
Qed.

Lemma clip_grad_norm_threshold_not_positive_witness :
  exists total out,
    global_norm (Lp 2) two_workers = Ok total /\
    clip_grad_norm two_workers 0 1 (Lp 2) eps_default = Ok out /\
    let c := clip_coef 0 1 eps_default total in
    c <= 0 /\
    map fst out = map (mul_grads c) two_workers /\
    all_grads (map fst out) = map (fun x => x * c) (all_grads two_workers) /\
    (0 * 1 = 0 -> all_grads (map fst out) = map (fun _ => 0) (all_grads two_workers)) /\
    (0 * 1 < 0 -> c < 0).
Proof.
  apply (clip_grad_norm_threshold_not_positive two_workers 0 1 (Lp 2) eps_default).
  - simpl. lra.
  - unfold eps_default. lra.
  - lra.
Defined.

(** *** The update in place, object by object *)

Lemma length_heap_update (h : list param) (i : nat) (f : param -> param) :
  List.length (heap_update h i f) = List.length h.
Proof.
  revert i. induction h as [|q t IH]; intros i; simpl; [reflexivity|].
  destruct i; simpl; [reflexivity | now rewrite IH].
Qed.

Lemma length_fold_heap_update (c : R) (refs : list nat) (h : list param) :
  List.length (fold_left (fun h i => heap_update h i (mul_param c)) refs h) = List.length h.
Proof.
  revert h. induction refs as [|i refs IH]; intros h; simpl; [reflexivity|].
  now rewrite IH, length_heap_update.
Qed.

Lemma grad_mul_param (c : R) (q : param) :
  grad (mul_param c q) = option_map (fun g => tensor_mul g c) (grad q) /\
  data (mul_param c q) = data q.
Proof. unfold mul_param. destruct q as [d [g|]]; simpl; split; reflexivity. Qed.

(** X14: the loop [for p in parameters: p.grad.data.mul_(clip_coef)] on a
    rank whose groups name every parameter object with a gradient once.
    Each such object has its gradient multiplied by the coefficient, once;
    every other object of the heap is left as it is; no object is added or
    removed and the groups are the same; and read through the groups, the
    outcome is [mul_grads] of the groups before. *)
Theorem mul_in_place_objects (c : R) (st : rank_state) :
  NoDup (parameter_refs st) ->
  (forall j, In j (parameter_refs st) ->
             grad (deref (heap (mul_in_place c st)) j)
             = option_map (fun g => tensor_mul g c) (grad (deref (heap st) j)) /\
             data (deref (heap (mul_in_place c st)) j) = data (deref (heap st) j)) /\
  (forall j, ~ In j (parameter_refs st) ->
             deref (heap (mul_in_place c st)) j = deref (heap st) j) /\
  List.length (heap (mul_in_place c st)) = List.length (heap st) /\
  groups (mul_in_place c st) = groups st /\
  parameters (read st) = map (deref (heap st)) (parameter_refs st) /\
  read (mul_in_place c st) = mul_grads c (read st).
Proof.
  intros Hnd. split; [|split; [|split; [|split; [|split]]]].
  - intros j Hj. unfold mul_in_place. cbn [heap].
    rewrite fold_heap_update_deref by assumption.
    destruct (in_dec Nat.eq_dec j (parameter_refs st)) as [_|N]; [|contradiction].
    apply grad_mul_param.
  - intros j Hj. unfold mul_in_place. cbn [heap].
    rewrite fold_heap_update_deref by assumption.
    destruct (in_dec Nat.eq_dec j (parameter_refs st)) as [Hin|_];
      [contradiction | reflexivity].
  - apply length_fold_heap_update.
  - reflexivity.
  - apply parameters_read.
  - now apply mul_in_place_read.
Qed.

Lemma mul_in_place_objects_witness :
  (forall j, In j (parameter_refs small_rank) ->
             grad (deref (heap (mul_in_place (1 / 2) small_rank)) j)
             = option_map (fun g => tensor_mul g (1 / 2)) (grad (deref (heap small_rank) j)) /\
             data (deref (heap (mul_in_place (1 / 2) small_rank)) j)
             = data (deref (heap small_rank) j)) /\
  (forall j, ~ In j (parameter_refs small_rank) ->
             deref (heap (mul_in_place (1 / 2) small_rank)) j = deref (heap small_rank) j) /\
  List.length (heap (mul_in_place (1 / 2) small_rank)) = List.length (heap small_rank) /\
  groups (mul_in_place (1 / 2) small_rank) = groups small_rank /\
  parameters (read small_rank) = map (deref (heap small_rank)) (parameter_refs small_rank) /\
  read (mul_in_place (1 / 2) small_rank) = mul_grads (1 / 2) (read small_rank).
Proof.
  apply (mul_in_place_objects (1 / 2) small_rank).
  simpl. repeat constructor; simpl; intuition discriminate.
Defined.

(** *** The order of the ranks *)

Lemma Rsum_Permutation (l l' : list R) : Permutation l l' -> Rsum l = Rsum l'.
Proof.
  unfold Rsum. induction 1; simpl; lra.
Qed.

Lemma Rmaxl_Permutation (l l' : list R) : Permutation l l' -> Rmaxl l = Rmaxl l'.
Proof.
  unfold Rmaxl. induction 1; simpl; try congruence.
  rewrite !Rmax_assoc, (Rmax_comm y x). reflexivity.
Qed.

(** X15: the aggregated norm, and so the coefficient and the returned
    value, do not depend on the order of the ranks: on inputs the call can
    run on, listing the ranks in another order gives the same norm. *)
Theorem global_norm_rank_order (nt : norm_type) (workers workers' : list (list ParamGroup)) :
  can_run nt workers -> Permutation workers workers' ->
  can_run nt workers' /\
  global_norm nt workers' = global_norm nt workers /\
  forall max_norm scale eps out out',
    clip_grad_norm workers max_norm scale nt eps = Ok out ->
    clip_grad_norm workers' max_norm scale nt eps = Ok out' ->
    Permutation (map snd out) (map snd out') /\
    Permutation (map fst out) (map fst out').
Proof.
  intros Hrun Hperm.
  assert (Hrun' : can_run nt workers').
  { destruct nt as [|p]; simpl in *; [|assumption].
    now apply (Permutation_Forall Hperm). }
  assert (Hall : Permutation (all_grads workers) (all_grads workers')).
  { unfold all_grads. now apply Permutation_flat_map. }
  assert (Hnorm : global_norm nt workers' = global_norm nt workers).
  { destruct nt as [|p]; simpl in Hrun, Hrun'.
    - rewrite !global_norm_Inf by assumption. f_equal. unfold Linf_norm.
      apply Rmaxl_Permutation. apply Permutation_map. now apply Permutation_sym.
    - rewrite !global_norm_Lp by assumption. f_equal. unfold Lp_norm. f_equal.
      apply Rsum_Permutation. apply Permutation_map. now apply Permutation_sym. }
  split; [exact Hrun'|]. split; [exact Hnorm|].
  intros max_norm scale eps out out' Hout Hout'.
  unfold clip_grad_norm in Hout, Hout'. rewrite Hnorm in Hout'.
  destruct (global_norm nt workers) as [total|e]; simpl in Hout, Hout'; [|discriminate].
  inversion Hout; inversion Hout'; subst. split.
  - rewrite !map_map. now apply Permutation_map.
  - rewrite !map_map. now apply Permutation_map.
Qed.

Lemma global_norm_rank_order_witness :
  can_run (Lp 2) (rev two_workers) /\
  global_norm (Lp 2) (rev two_workers) = global_norm (Lp 2) two_workers /\
  forall max_norm scale eps out out',
    clip_grad_norm two_workers max_norm scale (Lp 2) eps = Ok out ->
    clip_grad_norm (rev two_workers) max_norm scale (Lp 2) eps = Ok out' ->
    Permutation (map snd out) (map snd out') /\
    Permutation (map fst out) (map fst out').
Proof.
  apply (global_norm_rank_order (Lp 2) two_workers (rev two_workers)).
  - simpl. lra.
  - apply Permutation_rev.
Defined.

End ClipGradNormCalls.

(* ================================================================= *)
(** ** The accuracy of a split *)

Lemma torch_eq_same_size (a b : list Z) :
  List.length a = List.length b ->
  torch_eq a b = Ok (map (fun xy => fst xy =? snd xy) (combine a b)).
Proof. intros H. unfold torch_eq. now rewrite H, Nat.eqb_refl. Qed.

Lemma count_true_map {A : Type} (f : A -> bool) (l : list A) :
  count_true (map f l) = len (filter f l).
Proof.
  unfold count_true, len. f_equal.
  induction l as [|a l IH]; simpl; [reflexivity|].
  destruct (f a); simpl; now rewrite IH.
Qed.

Lemma agreements_bounds (preds targets : list Z) :
  0 <= agreements preds targets <= len preds.
Proof.
  unfold agreements, len. split; [lia|].
  apply inj_le. etransitivity; [apply filter_length_le|].
  rewrite length_combine. lia.
Qed.

Lemma combine_app_same {A B : Type} (l1 l2 : list A) (m1 m2 : list B) :
  List.length l1 = List.length m1 ->
  combine (l1 ++ l2) (m1 ++ m2) = combine l1 m1 ++ combine l2 m2.
Proof.
  revert m1. induction l1 as [|a l1 IH]; intros [|b m1] H; simpl in *; try discriminate.
  - reflexivity.
  - f_equal. apply IH. lia.
Qed.

Lemma agreements_app (p1 t1 p2 t2 : list Z) :
  List.length p1 = List.length t1 ->
  agreements (p1 ++ p2) (t1 ++ t2) = agreements p1 t1 + agreements p2 t2.
Proof.
  intros H. unfold agreements, len.
  rewrite combine_app_same, filter_app, length_app by assumption. lia.
Qed.

(** The loop adds up the agreements and the sizes of well-shaped batches. *)
Lemma eval_loop_sums (batches : list (list Z * list Z)) (acc total : Z) :
  Forall (fun b => List.length (fst b) = List.length (snd b)) batches ->
  eval_loop batches acc total
  = Ok (acc + agreements (List.concat (map fst batches)) (List.concat (map snd batches)),
        total + len (List.concat (map fst batches))).
Proof.
  intros H. revert acc total.
  induction H as [|[logits targets] rest Hb _ IH]; intros acc total; simpl.
  - unfold agreements, len. simpl. now rewrite !Z.add_0_r.
  - simpl in Hb. rewrite torch_eq_same_size by assumption. simpl.
    rewrite IH, count_true_map, agreements_app, len_app by assumption.
    unfold agreements. f_equal. f_equal; lia.
Qed.

Section Evaluation.
Local Open Scope R_scope.

Lemma eval_accuracy_value (batches : list (list Z * list Z)) :
  well_shaped batches ->
  eval_accuracy batches
  = py_truediv (agreements (all_preds batches) (all_targets batches))
               (len (all_preds batches)).
Proof.
  intros H. unfold eval_accuracy. rewrite eval_loop_sums by assumption. reflexivity.
Qed.

Lemma length_all_preds (batches : list (list Z * list Z)) :
  well_shaped batches ->
  List.length (all_preds batches) = List.length (all_targets batches).
Proof.
  unfold all_preds, all_targets.
  induction 1 as [|b rest Hb _ IH]; simpl; [reflexivity|].
  now rewrite !length_app, Hb, IH.
Qed.

(** X16: the accuracy a rank computes for a split.  On batches whose
    predictions and targets have equal sizes it is the number of agreeing
    positions over the number of predictions, a value between 0 and 1; it is
    the same however the examples are cut into batches; and a split
    without any example raises [ZeroDivisionError]. *)
Theorem eval_accuracy_of_split (batches : list (list Z * list Z)) :
  well_shaped batches ->
  let preds := all_preds batches in
  let targets := all_targets batches in
  (preds <> [] ->
   eval_accuracy batches = Ok (IZR (agreements preds targets) / IZR (len preds)) /\
   0 <= IZR (agreements preds targets) / IZR (len preds) <= 1) /\
  (preds = [] -> eval_accuracy batches = Raise ZeroDivisionError) /\
  eval_accuracy batches = eval_accuracy [(preds, targets)].
Proof.
  intros Hw preds targets.
  pose proof (eval_accuracy_value batches Hw) as Hv. fold preds targets in Hv.
  pose proof (agreements_bounds preds targets) as Hb.
  split; [|split].
  - intros Hne.
    assert (Hpos : (0 < len preds)%Z).
    { unfold len. destruct preds; [contradiction | simpl; lia]. }
    rewrite Hv. unfold py_truediv.
    destruct (len preds =? 0)%Z eqn:E; [lia|]. split; [reflexivity|].
    assert (H0 : 0 < IZR (len preds)) by (apply (IZR_lt 0); lia).
    assert (H1 : 0 <= IZR (agreements preds targets)) by (apply (IZR_le 0); lia).
    assert (H2 : IZR (agreements preds targets) <= IZR (len preds)) by (apply IZR_le; lia).
    split.
    + apply Rmult_le_pos; [assumption|]. left. now apply Rinv_0_lt_compat.
    + apply Rmult_le_reg_r with (r := IZR (len preds)); [assumption|].
      replace (IZR (agreements preds targets) / IZR (len preds) * IZR (len preds))
        with (IZR (agreements preds targets)) by (field; lra).
      lra.
  - intros Hnil. rewrite Hv, Hnil. reflexivity.
  - rewrite Hv. symmetry.
    rewrite eval_accuracy_value.
    + unfold all_preds, all_targets. simpl. now rewrite !app_nil_r.
    + constructor; [|constructor]. simpl. now apply length_all_preds.
Qed.

Lemma eval_accuracy_of_split_witness :
  let preds := all_preds small_batches in
  let targets := all_targets small_batches in
  (preds <> [] ->
   eval_accuracy small_batches = Ok (IZR (agreements preds targets) / IZR (len preds)) /\
   0 <= IZR (agreements preds targets) / IZR (len preds) <= 1) /\
  (preds = [] -> eval_accuracy small_batches = Raise ZeroDivisionError) /\
  eval_accuracy small_batches = eval_accuracy [(preds, targets)].
Proof.
  apply (eval_accuracy_of_split small_batches).
  repeat constructor.
Defined.

Example eval_accuracy_small : eval_accuracy small_batches = Ok (3 / 5).
Proof. reflexivity. Qed.

Example eval_accuracy_no_batch : eval_accuracy [] = Raise ZeroDivisionError.
Proof. reflexivity. Qed.

(** *** Averaging the accuracies of the ranks *)

Lemma agreements_concat (ranks : list (list (list Z * list Z))) :
  Forall well_shaped ranks ->
  agreements (List.concat (map all_preds ranks)) (List.concat (map all_targets ranks))
  = fold_right Z.add 0%Z (map (fun b => agreements (all_preds b) (all_targets b)) ranks).
Proof.
  induction 1 as [|b rest Hb _ IH]; simpl; [reflexivity|].
  rewrite agreements_app by (now apply length_all_preds). now rewrite IH.
Qed.

Lemma len_concat_equal (n : Z) (ranks : list (list (list Z * list Z))) :
  Forall (fun b => len (all_preds b) = n) ranks ->
  len (List.concat (map all_preds ranks)) = (n * len ranks)%Z.
Proof.
  induction 1 as [|b rest Hb _ IH]; simpl.
  - unfold len. simpl. lia.
  - rewrite len_app, Hb, IH. unfold len. simpl List.length. lia.
Qed.

Lemma Rsum_accuracies (n : Z) (ranks : list (list (list Z * list Z))) :
  fold_right Rplus 0
             (map (fun b => IZR (agreements (all_preds b) (all_targets b)) / IZR n) ranks)
  = IZR (fold_right Z.add 0%Z
                    (map (fun b => agreements (all_preds b) (all_targets b)) ranks))
    / IZR n.
Proof.
  induction ranks as [|b rest IH]; simpl.
  - unfold Rdiv. now rewrite Rmult_0_l.
  - rewrite IH, plus_IZR. unfold Rdiv. ring.
Qed.

(** X17: what the driver prints for a split.  Every rank divides its
    agreements by its number of predictions and [bmp.sum_loss] averages the
    results over the ranks.  When every rank holds the same number
    [0 < n] of predictions, as the sharding of the dataset gives, this
    average is the accuracy over the examples of all ranks: all agreements
    over all predictions. *)
Theorem finetune_accuracy_over_ranks (ranks : list (list (list Z * list Z))) (n : Z) :
  ranks <> [] -> (0 < n)%Z ->
  Forall well_shaped ranks ->
  Forall (fun b => len (all_preds b) = n) ranks ->
  exists accs,
    mapM eval_accuracy ranks = Ok accs /\
    bmp_sum_loss accs
    = IZR (agreements (List.concat (map all_preds ranks))
                      (List.concat (map all_targets ranks)))
      / IZR (len (List.concat (map all_preds ranks))).
Proof.
  intros Hne Hn Hw Hlen.
  exists (map (fun b => IZR (agreements (all_preds b) (all_targets b)) / IZR n) ranks).
  split.
  - rewrite <- mapM_Ok. apply mapM_ext_in. intros b Hb.
    rewrite Forall_forall in Hw, Hlen.
    rewrite eval_accuracy_value by (now apply Hw).
    rewrite (Hlen b Hb). unfold py_truediv.
    destruct (n =? 0)%Z eqn:E; [lia | reflexivity].
  - unfold bmp_sum_loss.
    rewrite Rsum_accuracies, agreements_concat, (len_concat_equal n) by assumption.
    assert (Hlr : len (map (fun b => IZR (agreements (all_preds b) (all_targets b)) / IZR n)
                           ranks) = len ranks).
    { unfold len. now rewrite length_map. }
    rewrite Hlr, mult_IZR.
    assert (H0 : IZR n <> 0) by (apply not_0_IZR; lia).
    assert (H1 : IZR (len ranks) <> 0).
    { apply not_0_IZR. unfold len. destruct ranks; [contradiction | simpl; lia]. }
    field. split; assumption.
Qed.

Lemma finetune_accuracy_over_ranks_witness :
  exists accs,
    mapM eval_accuracy small_ranks = Ok accs /\
    bmp_sum_loss accs
    = IZR (agreements (List.concat (map all_preds small_ranks))
                      (List.concat (map all_targets small_ranks)))
      / IZR (len (List.concat (map all_preds small_ranks))).
Proof.
  apply (finetune_accuracy_over_ranks small_ranks 3).
  - discriminate.
  - lia.
  - repeat constructor.
  - repeat constructor.
Defined.

(* ================================================================= *)
(** ** [metric] *)

(** *** The dictionary of the first loop *)

Lemma dict_contains_In (ss : dict) (qid : Z) :
  dict_contains ss qid = true <-> In qid (map fst ss).
Proof.
  unfold dict_contains. rewrite existsb_exists, in_map_iff. split.
  - intros [e [He Hq]]. exists e. split; [lia | assumption].
  - intros [e [Hq He]]. exists e. split; [assumption | lia].
Qed.

Lemma dict_append_keys (ss : dict) (qid : Z) (v : Z * Z) :
  map fst (dict_append ss qid v) = map fst ss.
Proof.
  unfold dict_append. rewrite map_map. apply map_ext.
  intros [k l]. simpl. now destruct (k =? qid)%Z.
Qed.

Lemma dict_append_In (ss : dict) (qid : Z) (v : Z * Z) (k : Z) (l : list (Z * Z)) :
  In (k, l) (dict_append ss qid v) <->
  exists l0, In (k, l0) ss /\ l = if (k =? qid)%Z then l0 ++ [v] else l0.
Proof.
  unfold dict_append. rewrite in_map_iff. split.
  - intros [[k0 l0] [He Hin]]. simpl in He.
    destruct (k0 =? qid)%Z eqn:E; inversion He; subst;
      (eexists; split; [eassumption|]; now rewrite E).
  - intros [l0 [Hin ->]]. exists (k, l0). split; [|assumption]. simpl.
    now destruct (k =? qid)%Z.
Qed.

Lemma dict_append_size (ss : dict) (qid : Z) (v : Z * Z) :
  NoDup (map fst ss) -> In qid (map fst ss) ->
  dict_size (dict_append ss qid v) = S (dict_size ss).
Proof.
  unfold dict_size, dict_append.
  induction ss as [|[k l] ss IH]; simpl; intros Hnd Hin; [contradiction|].
  inversion Hnd as [|? ? Hk Hnd']; subst.
  destruct (k =? qid)%Z eqn:E.
  - apply Z.eqb_eq in E. subst k. simpl. rewrite length_app. simpl.
    assert (Hsame : map (fun e : Z * list (Z * Z) =>
                           if (fst e =? qid)%Z then (fst e, snd e ++ [v]) else e) ss = ss).
    { rewrite <- (map_id ss) at 2. apply map_ext_in. intros [k' l'] Hin'. simpl.
      destruct (k' =? qid)%Z eqn:E'; [|reflexivity].
      apply Z.eqb_eq in E'. subst k'. elim Hk.
      apply in_map_iff. now exists (qid, l'). }
    rewrite Hsame. lia.
  - simpl. apply Z.eqb_neq in E.
    destruct Hin as [Hin|Hin]; [contradiction|].
    rewrite IH by assumption. lia.
Qed.

Lemma pairs_of_snoc (k : Z) (seen : list (Z * Z * Z)) (gt pd qid : Z) :
  pairs_of k (seen ++ [(gt, pd, qid)])
  = pairs_of k seen ++ (if (qid =? k)%Z then [(gt, pd)] else []).
Proof.
  unfold pairs_of. rewrite filter_app, map_app. simpl.
  now destruct (qid =? k)%Z.
Qed.


Lemma dict_size_app (ss ss' : dict) : dict_size (ss ++ ss') = (dict_size ss + dict_size ss')%nat.
Proof.
  unfold dict_size. induction ss as [|e ss IH]; simpl; [reflexivity|].
  rewrite IH. lia.
Qed.

Lemma pairs_of_absent (k : Z) (seen : list (Z * Z * Z)) :
  ~ In k (map snd seen) -> pairs_of k seen = [].
Proof.
  intros H. unfold pairs_of. rewrite filter_nil_in; [reflexivity|].
  intros t Ht. destruct (snd t =? k)%Z eqn:E; [|reflexivity].
  apply Z.eqb_eq in E. elim H. apply in_map_iff. now exists t.
Qed.

Lemma NoDup_snoc {A : Type} (l : list A) (a : A) :
  NoDup l -> ~ In a l -> NoDup (l ++ [a]).
Proof.
  intros Hnd Hin. induction Hnd as [|x l Hx Hnd IH]; simpl.
  - constructor; [tauto | constructor].
  - constructor.
    + rewrite in_app_iff. simpl. intros [H|[H|[]]]; [contradiction|].
      subst. apply Hin. now left.
    + apply IH. intros H. apply Hin. now right.
Qed.

Lemma metric_step_groups (seen : list (Z * Z * Z)) (ss : dict) (gt pd qid : Z) :
  groups_of seen ss ->
  groups_of (seen ++ [(gt, pd, qid)]) (metric_step ss (gt, pd, qid)).
Proof.
  intros [Hnd [Hgroups [Hkeys Hsize]]].
  unfold metric_step, dict_setdefault.
  destruct (dict_contains ss qid) eqn:Hc.
  - (* the question has an entry *)
    apply dict_contains_In in Hc.
    split; [|split; [|split]].
    + now rewrite dict_append_keys.
    + intros k l Hin. apply dict_append_In in Hin. destruct Hin as [l0 [Hin ->]].
      destruct (Hgroups k l0 Hin) as [-> Hne].
      rewrite pairs_of_snoc, (Z.eqb_sym qid k).
      destruct (k =? qid)%Z; [|now rewrite app_nil_r].
      split; [reflexivity|]. intros H. now apply app_eq_nil in H.
    + intros t Ht. rewrite dict_append_keys.
      apply in_app_iff in Ht. destruct Ht as [Ht|[<-|[]]]; [now apply Hkeys | exact Hc].
    + rewrite dict_append_size, length_app by assumption. simpl. lia.
  - (* a new question *)
    assert (Hnew : ~ In qid (map fst ss)).
    { intros H. apply dict_contains_In in H. congruence. }
    assert (Hnone : ~ In qid (map snd seen)).
    { intros H. apply in_map_iff in H. destruct H as [t [<- Ht]]. now apply Hnew, Hkeys. }
    assert (Hnd1 : NoDup (map fst (ss ++ [(qid, []:list (Z * Z))]))).
    { rewrite map_app. simpl. now apply NoDup_snoc. }
    assert (Hin1 : In qid (map fst (ss ++ [(qid, []:list (Z * Z))]))).
    { rewrite map_app, in_app_iff. right. now left. }
    split; [|split; [|split]].
    + now rewrite dict_append_keys.
    + intros k l Hin. apply dict_append_In in Hin. destruct Hin as [l0 [Hin ->]].
      rewrite pairs_of_snoc, (Z.eqb_sym qid k).
      apply in_app_iff in Hin. destruct Hin as [Hin|[Heq|[]]].
      * destruct (Hgroups k l0 Hin) as [-> Hne].
        destruct (k =? qid)%Z eqn:E; [|now rewrite app_nil_r].
        apply Z.eqb_eq in E. subst k. elim Hnew.
        apply in_map_iff. now exists (qid, pairs_of qid seen).
      * inversion Heq; subst. rewrite Z.eqb_refl, pairs_of_absent by assumption.
        split; [reflexivity | discriminate].
    + intros t Ht. rewrite dict_append_keys.
      apply in_app_iff in Ht. destruct Ht as [Ht|[<-|[]]]; [|exact Hin1].
      rewrite map_app, in_app_iff. left. now apply Hkeys.
    + rewrite dict_append_size by assumption.
      rewrite dict_size_app, length_app, Hsize. unfold dict_size. simpl. lia.
Qed.

Lemma metric_fold_groups (ts seen : list (Z * Z * Z)) (ss : dict) :
  groups_of seen ss ->
  groups_of (seen ++ ts) (fold_left metric_step ts ss).
Proof.
  revert seen ss. induction ts as [|[[gt pd] qid] ts IH]; intros seen ss H; simpl.
  - now rewrite app_nil_r.
  - replace (seen ++ (gt, pd, qid) :: ts) with ((seen ++ [(gt, pd, qid)]) ++ ts)
      by (now rewrite <- app_assoc).
    apply IH. now apply metric_step_groups.
Qed.

Lemma metric_groups_fold (gts pds qids : list Z) :
  metric_groups gts pds qids = fold_left metric_step (zip3 gts pds qids) [].
Proof.
  unfold metric_groups. f_equal.
Qed.

Lemma metric_groups_of (gts pds qids : list Z) :
  groups_of (zip3 gts pds qids) (metric_groups gts pds qids).
Proof.
  rewrite metric_groups_fold.
  apply (metric_fold_groups (zip3 gts pds qids) [] []).
  repeat split; simpl; try constructor; try contradiction.
Qed.

Lemma length_zip3 (gts pds qids : list Z) :
  List.length (zip3 gts pds qids)
  = Nat.min (List.length gts) (Nat.min (List.length pds) (List.length qids)).
Proof.
  revert pds qids. induction gts as [|g gts IH]; intros [|p pds] [|q qids]; simpl;
    try reflexivity.
  now rewrite IH.
Qed.

(** X18: the dictionary [ss] that the first loop of [metric] builds.  The
    loop reads as many triples as the shortest of the three lists has
    entries; [ss] has one entry for each question id among them and no other
    entry; the entry of a question holds the (ground truth, prediction)
    pairs of that question in the order of the lists, and is never empty;
    and the entries hold as many pairs as there are triples. *)
Theorem metric_groups_partition (gts pds qids : list Z) :
  let triples := zip3 gts pds qids in
  let ss := metric_groups gts pds qids in
  List.length triples
  = Nat.min (List.length gts) (Nat.min (List.length pds) (List.length qids)) /\
  NoDup (map fst ss) /\
  (forall qid, In qid (map fst ss) <-> In qid (map snd triples)) /\
  (forall qid l, In (qid, l) ss -> l = pairs_of qid triples /\ l <> []) /\
  dict_size ss = List.length triples.
Proof.
  intros triples ss.
  destruct (metric_groups_of gts pds qids) as [Hnd [Hgroups [Hkeys Hsize]]].
  fold triples ss in Hnd, Hgroups, Hkeys, Hsize.
  split; [apply length_zip3|]. split; [exact Hnd|]. split; [|split; assumption].
  intros qid. split.
  - intros Hin. apply in_map_iff in Hin. destruct Hin as [[k l] [Hk Hin]].
    simpl in Hk. subst k.
    destruct (Hgroups qid l Hin) as [Hl Hne].
    destruct (in_dec Z.eq_dec qid (map snd triples)) as [H|H]; [assumption|].
    rewrite pairs_of_absent in Hl by assumption. contradiction.
  - intros Hin. apply in_map_iff in Hin. destruct Hin as [t [<- Ht]]. now apply Hkeys.
Qed.

(** *** The exact match *)

Lemma exact_match_cases (l : list (Z * Z)) :
  (exact_match l = 1%Z /\ Forall (fun gp => fst gp = snd gp) l) \/
  (exact_match l = 0%Z /\ ~ Forall (fun gp => fst gp = snd gp) l).
Proof.
  unfold exact_match.
  destruct (len (filter (fun gp => (fst gp =? snd gp)%Z) l) =? len l)%Z eqn:E.
  - left. split; [reflexivity|]. apply Z.eqb_eq in E.
    assert (Hall : forallb (fun gp => (fst gp =? snd gp)%Z) l = true).
    { apply filter_length_forallb. unfold len in E. lia. }
    apply Forall_forall. intros gp Hgp. rewrite forallb_forall in Hall.
    apply Z.eqb_eq. now apply Hall.
  - right. split; [reflexivity|]. intros Hall. apply Z.eqb_neq in E. apply E.
    assert (Hf : filter (fun gp => (fst gp =? snd gp)%Z) l = l).
    { clear E. induction Hall as [|gp l Hgp _ IH]; simpl; [reflexivity|].
      rewrite (proj2 (Z.eqb_eq _ _) Hgp). now f_equal. }
    now rewrite Hf.
Qed.

Lemma sum_exact_matches (ss : dict) :
  (0 <= sum_Z (exact_matches ss) <= len ss)%Z /\
  (sum_Z (exact_matches ss) = len ss <->
   forall qid l, In (qid, l) ss -> Forall (fun gp => fst gp = snd gp) l).
Proof.
  unfold sum_Z, exact_matches, len.
  induction ss as [|[k l] ss [IHb IHi]]; simpl.
  - split; [lia|]. split; [intros _ qid l [] | reflexivity].
  - destruct (exact_match_cases l) as [[-> Hall]|[-> Hnot]].
    + split; [lia|]. split.
      * intros Hs qid l' [Heq|Hin].
        -- inversion Heq; subst. exact Hall.
        -- refine (proj1 IHi _ qid l' Hin). lia.
      * intros H.
        assert (fold_right Z.add 0%Z (map (fun e => exact_match (snd e)) ss)
                = Z.of_nat (List.length ss)); [|lia].
        apply (proj2 IHi). intros qid l' Hin. apply (H qid l'). now right.
    + split; [lia|]. split.
      * intros Hs. lia.
      * intros H. exfalso. apply Hnot. apply (H k l). now left.
Qed.

Lemma pairs_of_In (qid gt pd : Z) (triples : list (Z * Z * Z)) :
  In (gt, pd) (pairs_of qid triples) <-> In (gt, pd, qid) triples.
Proof.
  unfold pairs_of. rewrite in_map_iff. split.
  - intros [[[g p] q] [Heq Hin]]. apply filter_In in Hin. destruct Hin as [Hin Hq].
    simpl in *. inversion Heq; subst. apply Z.eqb_eq in Hq. now subst.
  - intros Hin. exists (gt, pd, qid). split; [reflexivity|].
    apply filter_In. split; [assumption | apply Z.eqb_refl].
Qed.

(** Every question is right exactly when every triple is. *)
Lemma groups_all_right (gts pds qids : list Z) :
  (forall qid l, In (qid, l) (metric_groups gts pds qids) ->
                 Forall (fun gp => fst gp = snd gp) l) <->
  (forall gt pd qid, In (gt, pd, qid) (zip3 gts pds qids) -> gt = pd).
Proof.
  destruct (metric_groups_of gts pds qids) as [_ [Hgroups [Hkeys _]]].
  split.
  - intros H gt pd qid Hin.
    specialize (Hkeys _ Hin). simpl in Hkeys.
    apply in_map_iff in Hkeys. destruct Hkeys as [[k l] [Hk Hl]]. simpl in Hk. subst k.
    specialize (H qid l Hl). destruct (Hgroups qid l Hl) as [-> _].
    rewrite Forall_forall in H.
    apply (H (gt, pd)). now apply pairs_of_In.
  - intros H qid l Hl. destruct (Hgroups qid l Hl) as [-> _].
    apply Forall_forall. intros [gt pd] Hin. simpl.
    apply pairs_of_In in Hin. now apply (H gt pd qid).
Qed.

Lemma mapM_metric_question (f1_score_macro : list Z -> list Z -> result R)
      (ss : dict) (per : list (R * Z)) :
  mapM (metric_question f1_score_macro) ss = Ok per ->
  map snd per = exact_matches ss.
Proof.
  revert per. induction ss as [|e ss IH]; intros per H; simpl in H.
  - now inversion H.
  - unfold metric_question at 1 in H.
    destruct (unzip_pairs (snd e)) as [gp|x]; simpl in H; [|discriminate].
    destruct (f1_score_macro (fst gp) (snd gp)) as [f1|x]; simpl in H; [|discriminate].
    destruct (mapM (metric_question f1_score_macro) ss) as [per'|x]; simpl in H;
      [|discriminate].
    inversion H; subst. simpl. f_equal. now apply IH.
Qed.

Lemma metric_returned (f1_score f1_score_macro : list Z -> list Z -> result R)
      (gts pds qids : list Z) (f1_a f1_m em : R) :
  metric f1_score f1_score_macro gts pds qids = Ok (f1_a, f1_m, em) ->
  f1_score gts pds = Ok f1_a /\
  (0 < len (metric_groups gts pds qids))%Z /\
  em = IZR (sum_Z (exact_matches (metric_groups gts pds qids)))
       / IZR (len (metric_groups gts pds qids)).
Proof.
  intros H. unfold metric in H.
  destruct (f1_score gts pds) as [a|x]; simpl in H; [|discriminate].
  destruct (mapM _ (metric_groups gts pds qids)) as [per|x] eqn:Hper; simpl in H;
    [|discriminate].
  destruct (mean (map fst per)) as [m|x]; simpl in H; [|discriminate].
  pose proof (mapM_metric_question _ _ _ Hper) as Hems.
  apply mapM_length in Hper.
  unfold py_truediv in H.
  assert (Hl : len (map snd per) = len (metric_groups gts pds qids)).
  { unfold len. now rewrite length_map, Hper. }
  rewrite Hl, Hems in H.
  destruct (len (metric_groups gts pds qids) =? 0)%Z eqn:E; simpl in H; [discriminate|].
  inversion H; subst. split; [reflexivity|]. split; [|reflexivity].
  unfold len in *. lia.
Qed.

(** X19: the exact match that [metric] returns.  Whenever [metric]
    returns, at least one triple was read, and [em] is the number of
    questions whose pairs all agree divided by the number of questions: a
    value between 0 and 1, equal to 1 exactly when the prediction equals the
    ground truth in every triple. *)
Theorem metric_exact_match (f1_score f1_score_macro : list Z -> list Z -> result R)
        (gts pds qids : list Z) (f1_a f1_m em : R) :
  metric f1_score f1_score_macro gts pds qids = Ok (f1_a, f1_m, em) ->
  let ss := metric_groups gts pds qids in
  zip3 gts pds qids <> [] /\
  em = IZR (sum_Z (exact_matches ss)) / IZR (len ss) /\
  0 <= em <= 1 /\
  (em = 1 <-> forall gt pd qid, In (gt, pd, qid) (zip3 gts pds qids) -> gt = pd).
Proof.
  intros H ss.
  destruct (metric_returned _ _ _ _ _ _ _ _ H) as [_ [Hpos Hem]]. fold ss in Hpos, Hem.
  destruct (sum_exact_matches ss) as [Hb Hall].
  assert (H0 : 0 < IZR (len ss)) by (apply (IZR_lt 0); lia).
  assert (H1 : 0 <= IZR (sum_Z (exact_matches ss))) by (apply (IZR_le 0); lia).
  assert (H2 : IZR (sum_Z (exact_matches ss)) <= IZR (len ss)) by (apply IZR_le; lia).
  assert (Hmul : em * IZR (len ss) = IZR (sum_Z (exact_matches ss))).
  { rewrite Hem. field. lra. }
  split; [|split; [exact Hem | split]].
  - intros Hnil. unfold ss, metric_groups in Hpos. rewrite Hnil in Hpos.
    simpl in Hpos. unfold len in Hpos. simpl in Hpos. lia.
  - split.
    + rewrite Hem. apply Rmult_le_pos; [assumption|]. left. now apply Rinv_0_lt_compat.
    + apply Rmult_le_reg_r with (r := IZR (len ss)); [assumption|]. lra.
  - rewrite <- groups_all_right. fold ss. rewrite <- Hall. split.
    + intros H1'. apply eq_IZR. rewrite <- Hmul, H1'. ring.
    + intros Hs. rewrite Hs in Hmul.
      apply Rmult_eq_reg_r with (r := IZR (len ss)); [lra | lra].
Qed.

Lemma metric_exact_match_witness :
  exists f1_a f1_m em,
    metric share_equal share_equal small_gts small_pds small_qids = Ok (f1_a, f1_m, em) /\
    let ss := metric_groups small_gts small_pds small_qids in
    zip3 small_gts small_pds small_qids <> [] /\
    em = IZR (sum_Z (exact_matches ss)) / IZR (len ss) /\
    0 <= em <= 1 /\
    (em = 1 <->
     forall gt pd qid, In (gt, pd, qid) (zip3 small_gts small_pds small_qids) -> gt = pd).
Proof.
  do 3 eexists. split; [reflexivity|].
  eapply (metric_exact_match share_equal share_equal small_gts small_pds small_qids).
  reflexivity.
Defined.

Example metric_small :
  metric share_equal share_equal small_gts small_pds small_qids
  = Ok (3 / 4, (2 / 2 + (1 / 2 + 0)) / 2, 1 / 2).
Proof. reflexivity. Qed.

(** *** When [metric] raises *)

Lemma mapM_metric_question_cases (f1_score_macro : list Z -> list Z -> result R) (ss : dict) :
  (forall k l, In (k, l) ss -> l <> []) ->
  (exists per, mapM (metric_question f1_score_macro) ss = Ok per) \/
  (exists e k l, mapM (metric_question f1_score_macro) ss = Raise e /\
                 In (k, l) ss /\ f1_score_macro (map fst l) (map snd l) = Raise e).
Proof.
  induction ss as [|[k l] ss IH]; intros Hne; cbn [mapM].
  - left. now exists [].
  - assert (Hl : l <> []) by (apply (Hne k); now left).
    destruct l as [|gp l']; [contradiction|].
    assert (Hq : metric_question f1_score_macro (k, gp :: l')
                 = (f1 <- f1_score_macro (map fst (gp :: l')) (map snd (gp :: l')) ;;
                    Ok (f1, exact_match (gp :: l')))) by reflexivity.
    rewrite Hq. clear Hq.
    destruct (f1_score_macro (map fst (gp :: l')) (map snd (gp :: l'))) as [f1|e] eqn:Hf;
      cbn [bind].
    + destruct IH as [[per Hper]|[e [k' [l0 [Hr [Hin Hf']]]]]].
      * intros k' l0 Hin. apply (Hne k'). now right.
      * left. rewrite Hper. cbn [bind]. now eexists.
      * right. exists e, k', l0. rewrite Hr. cbn [bind].
        split; [reflexivity|]. split; [now right | assumption].
    + right. exists e, k, (gp :: l'). split; [reflexivity|]. split; [now left | assumption].
Qed.

Lemma mean_cases (l : list R) :
  (l = [] /\ mean l = Raise ZeroDivisionError) \/ (l <> [] /\ exists m, mean l = Ok m).
Proof.
  unfold mean. destruct l as [|x l].
  - left. now split.
  - right. split; [discriminate|].
    destruct (len (x :: l) =? 0)%Z eqn:E; [|now eexists].
    apply Z.eqb_eq in E. unfold len in E. simpl List.length in E. lia.
Qed.

(** X20: the outcomes of [metric].  An exception of the first
    [f1_score] is the outcome.  When it returns and no triple is read (one
    of the three lists is empty), [metric] raises [ZeroDivisionError].  When
    triples are read, [metric] returns unless [f1_score] with
    [average="macro"] raises on the pairs of some question, and then that
    exception is the outcome: the unpacking of the pairs of a question
    never fails, and no division is by zero. *)
Theorem metric_outcomes (f1_score f1_score_macro : list Z -> list Z -> result R)
        (gts pds qids : list Z) :
  (forall e, f1_score gts pds = Raise e ->
             metric f1_score f1_score_macro gts pds qids = Raise e) /\
  (forall a, f1_score gts pds = Ok a -> zip3 gts pds qids = [] ->
             metric f1_score f1_score_macro gts pds qids = Raise ZeroDivisionError) /\
  (forall a, f1_score gts pds = Ok a -> zip3 gts pds qids <> [] ->
             (exists m em, metric f1_score f1_score_macro gts pds qids = Ok (a, m, em)) \/
             (exists e qid,
                 metric f1_score f1_score_macro gts pds qids = Raise e /\
                 In qid (map snd (zip3 gts pds qids)) /\
                 f1_score_macro (map fst (pairs_of qid (zip3 gts pds qids)))
                                (map snd (pairs_of qid (zip3 gts pds qids))) = Raise e)).
Proof.
  destruct (metric_groups_of gts pds qids) as [_ [Hgroups [Hkeys Hsize]]].
  split; [|split].
  - intros e He. unfold metric. now rewrite He.
  - intros a Ha Hnil. unfold metric, metric_groups. rewrite Ha, Hnil. reflexivity.
  - intros a Ha Hne. unfold metric. rewrite Ha. cbn [bind].
    destruct (mapM_metric_question_cases f1_score_macro (metric_groups gts pds qids))
      as [[per Hper]|[e [k [l [Hr [Hin Hf]]]]]].
    + intros k l Hin. now apply (Hgroups k l).
    + left. rewrite Hper. cbn [bind].
      apply mapM_length in Hper as Hlen.
      assert (Hpos : (0 < List.length per)%nat).
      { rewrite Hlen. destruct (metric_groups gts pds qids) as [|e ss] eqn:Hss;
          [|simpl; lia].
        unfold dict_size in Hsize. simpl in Hsize.
        destruct (zip3 gts pds qids); [contradiction | discriminate]. }
      destruct (mean_cases (map fst per)) as [[Hnil _]|[_ [m Hm]]].
      * destruct per; [simpl in Hpos; lia | discriminate].
      * rewrite Hm. cbn [bind]. unfold py_truediv.
        destruct (len (map snd per) =? 0)%Z eqn:E.
        -- unfold len in E. rewrite length_map in E. lia.
        -- cbn [bind]. now do 2 eexists.
    + right. destruct (Hgroups k l Hin) as [Hl Hnel]. subst l.
      exists e, k. rewrite Hr. cbn [bind]. split; [reflexivity|]. split; [|assumption].
      destruct (in_dec Z.eq_dec k (map snd (zip3 gts pds qids))) as [H|H]; [assumption|].
      rewrite pairs_of_absent in Hnel by assumption. contradiction.
Qed.

(** *** The lists after the gather *)

Lemma zip3_prefix (g0 p0 qids grest prest : list Z) :
  (List.length qids <= List.length g0)%nat -> (List.length qids <= List.length p0)%nat ->
  zip3 (g0 ++ grest) (p0 ++ prest) qids = zip3 g0 p0 qids.
Proof.
  revert g0 p0. induction qids as [|q qids IH]; intros g0 p0 Hg Hp.
  - destruct g0, p0; simpl; try reflexivity;
      destruct grest, prest; reflexivity.
  - destruct g0 as [|g g0]; [simpl in Hg; lia|].
    destruct p0 as [|p p0]; [simpl in Hp; lia|].
    simpl in *. f_equal. apply IH; lia.
Qed.

(** X21: [metric] on the gathered lists with the question ids of one rank.
    In [finetune] the predictions and labels are gathered from all ranks
    but [qids] are those of the rank.  With [n] examples and [n] question
    ids on every rank, [zip] stops after [n] triples: on every rank the
    questions are scored with the labels and predictions of rank 0 alone,
    paired with the rank's own question ids, and [f1_m] and [em] are those
    of [metric] on the lists of rank 0. *)
Theorem metric_after_gather (f1_score f1_score_macro : list Z -> list Z -> result R)
        (pd0 gt0 : list Z) (pds gts : list (list Z)) (qids : list Z) (junk : Z) (n : nat) :
  Forall (fun l => List.length l = n) (pd0 :: pds) ->
  Forall (fun l => List.length l = n) (gt0 :: gts) ->
  Forall (Forall fits_int32) (pd0 :: pds) ->
  Forall (Forall fits_int32) (gt0 :: gts) ->
  List.length qids = n ->
  exists pd gt,
    finetune_gather (pd0 :: pds) (gt0 :: gts) junk
    = Ok (Some (map (fun _ => pd) (pd0 :: pds), map (fun _ => gt) (gt0 :: gts))) /\
    zip3 gt pd qids = zip3 gt0 pd0 qids /\
    metric_groups gt pd qids = metric_groups gt0 pd0 qids /\
    forall a a' m em,
      f1_score gt pd = Ok a -> f1_score gt0 pd0 = Ok a' ->
      (metric f1_score f1_score_macro gt pd qids = Ok (a, m, em) <->
       metric f1_score f1_score_macro gt0 pd0 qids = Ok (a', m, em)).
Proof.
  intros Hpn Hgn Hpfit Hgfit Hq.
  exists (List.concat (pd0 :: pds)), (List.concat (gt0 :: gts)).
  assert (Hzip : zip3 (List.concat (gt0 :: gts)) (List.concat (pd0 :: pds)) qids
                 = zip3 gt0 pd0 qids).
  { simpl. apply zip3_prefix.
    - inversion Hgn; subst. lia.
    - inversion Hpn; subst. lia. }
  assert (Hgroups : metric_groups (List.concat (gt0 :: gts)) (List.concat (pd0 :: pds)) qids
                    = metric_groups gt0 pd0 qids).
  { unfold metric_groups. now rewrite Hzip. }
  split; [|split; [exact Hzip | split; [exact Hgroups|]]].
  - unfold finetune_gather.
    rewrite !mapM_int_tensor_fits by assumption. cbn [bind].
    rewrite (gather_list_concat (pd0 :: pds) junk n) by assumption. cbn [bind].
    rewrite (gather_list_concat (gt0 :: gts) junk n) by assumption. reflexivity.
  - intros a a' m em Ha Ha'. unfold metric. rewrite Ha, Ha', Hgroups. cbn [bind].
    destruct (mapM (metric_question f1_score_macro) (metric_groups gt0 pd0 qids))
      as [per|e]; cbn [bind]; [|split; discriminate].
    destruct (mean (map fst per)) as [m'|e]; cbn [bind]; [|split; discriminate].
    destruct (py_truediv (fold_right Z.add 0%Z (map snd per)) (len (map snd per)))
      as [em'|e]; cbn [bind]; [|split; discriminate].
    split; intros H; inversion H; subst; reflexivity.
Qed.

Lemma metric_after_gather_witness :
  exists pd gt,
    finetune_gather (small_pds :: other_pds) (small_gts :: other_gts) 7%Z
    = Ok (Some (map (fun _ => pd) (small_pds :: other_pds),
                map (fun _ => gt) (small_gts :: other_gts))) /\
    zip3 gt pd small_qids = zip3 small_gts small_pds small_qids /\
    metric_groups gt pd small_qids = metric_groups small_gts small_pds small_qids /\
    forall a a' m em,
      share_equal gt pd = Ok a -> share_equal small_gts small_pds = Ok a' ->
      (metric share_equal share_equal gt pd small_qids = Ok (a, m, em) <->
       metric share_equal share_equal small_gts small_pds small_qids = Ok (a', m, em)).
Proof.
  apply (metric_after_gather share_equal share_equal
                             small_pds small_gts other_pds other_gts small_qids 7%Z 4%nat).
  - repeat constructor.
  - repeat constructor.
  - repeat constructor; unfold fits_int32; lia.
  - repeat constructor; unfold fits_int32; lia.
  - reflexivity.
Defined.

(* ================================================================= *)
(** ** [Embedding]: what [length_scale] changes *)

(** X22: [length_scale] only rescales.  For kernels that are linear in
    exact arithmetic ([F.linear] and [ct.transpose] commute with the
    division by a number, and dividing twice divides by the product), the
    outputs of [forward] and of [projection] with [length_scale] are the
    outputs without it divided by [sqrt(dim_model)], and the logits of
    [projection] on the output of [forward] are those without
    [length_scale] divided by [dim_model]. *)
Theorem Embedding_length_scale {I T : Type} `{Kernels I T}
        (dim : Z) (w : T) (i8 : bool) (ids : I) (x : T) :
  (forall (t u : T) (s : R), F_linear (tensor_div t s) u = tensor_div (F_linear t u) s) ->
  (forall (t : T) (s : R), ct_transpose (tensor_div t s) = tensor_div (ct_transpose t) s) ->
  (forall (t : T) (a b : R), tensor_div (tensor_div t a) b = tensor_div t (a * b)) ->
  (0 <= dim)%Z ->
  let scaled := {| dim_model := dim; weight := w; length_scale := true; int8 := i8 |} in
  let plain := {| dim_model := dim; weight := w; length_scale := false; int8 := i8 |} in
  fst (forward scaled ids) = tensor_div (fst (forward plain ids)) (sqrt (IZR dim)) /\
  fst (projection (I := I) scaled x)
  = tensor_div (fst (projection (I := I) plain x)) (sqrt (IZR dim)) /\
  fst (projection (I := I) scaled (fst (forward scaled ids)))
  = tensor_div (fst (projection (I := I) plain (fst (forward plain ids)))) (IZR dim).
Proof.
  intros Hlin Htr Hdiv Hdim scaled plain.
  unfold forward, projection, math_sqrt. cbn [fst length_scale weight dim_model scaled plain].
  split; [reflexivity|]. split.
  - now rewrite Htr, Hlin.
  - rewrite !Htr, !Hlin, Hdiv. f_equal.
    apply sqrt_sqrt. apply (IZR_le 0). exact Hdim.
Qed.

Lemma Embedding_length_scale_witness :
  let scaled := {| dim_model := 4%Z; weight := 3; length_scale := true; int8 := false |} in
  let plain := {| dim_model := 4%Z; weight := 3; length_scale := false; int8 := false |} in
  fst (forward scaled tt) = tensor_div (fst (forward plain tt)) (sqrt (IZR 4)) /\
  fst (projection (I := unit) scaled 5)
  = tensor_div (fst (projection (I := unit) plain 5)) (sqrt (IZR 4)) /\
  fst (projection (I := unit) scaled (fst (forward scaled tt)))
  = tensor_div (fst (projection (I := unit) plain (fst (forward plain tt)))) (IZR 4).
Proof.
  apply (Embedding_length_scale (I := unit) (T := R) 4%Z 3 false tt 5).
  - intros t u s. simpl. unfold Rdiv. ring.
  - intros t s. reflexivity.
  - intros t a b. simpl. unfold Rdiv. rewrite Rinv_mult. ring.
  - lia.
Defined.

End Evaluation.
